(** * QueryTool (llm4crs/query/query_tool.py): a shallow embedding

    The development follows the Python module top to bottom.

    - Python text is [string]: a sequence of code points below 256.  The
      character classes of [re] and the escapes of [json] are those Python
      has on that range; text with other code points is outside the
      embedding.
    - Python [int] is [Z]; [//] is [Z.div] (both round towards minus
      infinity) and a zero divisor raises [ZeroDivisionError].
    - A result record (a [dict] produced by the corpus) is an association
      list in insertion order, which is the order [dict.items()] iterates in.
    - Exceptions are values of [exn] carried by [result]; a [while] loop that
      has not left its body is the outcome [Diverge]: the shrink loop of a
      record when it cannot end, the redraw loop of [random.sample] when
      [fuel] redraws in a row gave a position that was taken already.
    - The module-level generator of [random] is a tape of raw draws that is
      threaded through [run] as explicit state.
    - Two computations of the Python library are parameters ([PyLib]): the
      floating-point logarithm in [random.sample], and what [re.sub] makes
      of a replacement that holds a backslash.
    - Objects that the shrink phase copies and mutates live in a store
      ([gmap loc record]); the pure shrink functions are what the store
      operations compute. *)

From stdpp Require Import gmap strings list fin_maps.
From Stdlib Require Import ZArith Lia DecimalString.

(** ** Exceptions and results *)

Inductive exn : Type :=
  | ValueError
  | ZeroDivisionError
  | KeyError
  | IndexError
  | ReError
  | CorpusError.

Inductive result (A : Type) : Type :=
  | Ok (a : A)
  | Raise (e : exn)
  | Diverge.

Arguments Ok {A} a.
Arguments Raise {A} e.
Arguments Diverge {A}.

Definition rbind {A B : Type} (m : result A) (k : A → result B) : result B :=
  match m with
  | Ok a => k a
  | Raise e => Raise e
  | Diverge => Diverge
  end.

#[global] Instance result_bind : MBind result := λ A B k m, rbind m k.
#[global] Instance result_ret : MRet result := @Ok.

(** ** Parts of the Python library taken as parameters *)

(** [ceil_log4 x] is [_ceil(_log(x, 4))] of [random.sample], a
    floating-point computation.  [sub_template repl s] is
    [re.sub(r'\bFROM\s+(\w+)\s+WHERE', repl, s, flags=re.IGNORECASE)] for
    a replacement [repl] that holds a backslash: [re] then reads [repl] as a
    template, expands its escapes and group references, or rejects it with
    [re.error]. *)
Class PyLib : Type := {
  ceil_log4 : Z → Z;
  sub_template : string → string → result string;
}.

(** ** Python strings *)

Module Py.

Definition space : Ascii.ascii := Ascii.ascii_of_nat 32.

(** [s.split(" ")]: cut at every single space; never returns an empty
    list, and two adjacent spaces give an empty word. *)
Fixpoint split (s : string) : list string :=
  match s with
  | EmptyString => [EmptyString]
  | String c s' =>
      if Ascii.eqb c space then EmptyString :: split s'
      else match split s' with
           | w :: ws => String c w :: ws
           | [] => [String c EmptyString]
           end
  end.

(** [' '.join(words)] *)
Definition join (words : list string) : string := String.concat " " words.

(** [words[:-n]] for [n >= 1]. *)
Definition drop_last (n : nat) (words : list string) : list string :=
  take (length words - n)%nat words.

(** [str(z)] for an [int]. *)
Definition str_int (z : Z) : string := NilZero.string_of_int (Z.to_int z).

Fixpoint is_prefix (p s : string) : bool :=
  match p, s with
  | EmptyString, _ => true
  | String a p', String b s' => Ascii.eqb a b && is_prefix p' s'
  | String _ _, EmptyString => false
  end.

Fixpoint drop (n : nat) (s : string) : string :=
  match n, s with
  | O, _ => s
  | S n', String _ s' => drop n' s'
  | S _, EmptyString => EmptyString
  end.

(** [s.replace(old, new)] for a non-empty [old]: every occurrence, left
    to right, without overlap.  [skip] counts the characters of the
    occurrence just replaced that are still to be passed over. *)
Fixpoint replace_from (skip : nat) (old new s : string) : string :=
  match s with
  | EmptyString => EmptyString
  | String c s' =>
      match skip with
      | S k => replace_from k old new s'
      | O =>
          if is_prefix old s
          then new +:+ replace_from (String.length old - 1) old new s'
          else String c (replace_from O old new s')
      end
  end.

(** [s.replace("", new)] puts [new] before every character and at the end. *)
Fixpoint interleave (new s : string) : string :=
  match s with
  | EmptyString => new
  | String c s' => new +:+ String c (interleave new s')
  end.

Definition replace (old new s : string) : string :=
  match old with
  | EmptyString => interleave new s
  | String _ _ => replace_from O old new s
  end.

End Py.

(** ** The two regular expressions of [rewrite_sql]

    Both patterns are sequences of runs over disjoint character classes and
    literal text, so the backtracking matcher of [re] can only succeed with
    each run taken as long as possible; the functions below match that way.
    The patterns are [str] patterns, for which [\s], [\w] and [\b] follow
    Unicode. *)

Module Re.

Section re.
Context {pylib : PyLib}.

Definition code (c : Ascii.ascii) : nat := Ascii.nat_of_ascii c.

Definition in_range (lo hi : nat) (c : Ascii.ascii) : bool :=
  (lo <=? code c)%nat && (code c <=? hi)%nat.

(** [\s]: the white space of [str.isspace], which below 256 is tab to
    carriage return, the separators 28..31, the space, NEL (133) and the
    no-break space (160). *)
Definition is_space (c : Ascii.ascii) : bool :=
  in_range 9 13 c || in_range 28 31 c || (code c =? 32)%nat
  || (code c =? 133)%nat || (code c =? 160)%nat.

(** The class [[a-zA-Z0-9_]]. *)
Definition is_word (c : Ascii.ascii) : bool :=
  in_range 97 122 c || in_range 65 90 c || in_range 48 57 c || (code c =? 95)%nat.

(** [\w]: the underscore and what [str.isalnum] accepts, which below 256
    is the class above with the ordinal indicators (170, 186), the
    superscript digits (178, 179, 185), the micro sign (181), the fractions
    (188..190) and the letters 192..255 without the two operators 215 and
    247. *)
Definition is_w (c : Ascii.ascii) : bool :=
  is_word c
  || (code c =? 170)%nat || in_range 178 179 c || (code c =? 181)%nat
  || in_range 185 186 c || in_range 188 190 c
  || in_range 192 214 c || in_range 216 246 c || in_range 248 255 c.

Definition not_percent (c : Ascii.ascii) : bool := negb (code c =? 37)%nat.

Definition lower (c : Ascii.ascii) : Ascii.ascii :=
  if in_range 65 90 c then Ascii.ascii_of_nat (code c + 32) else c.

(** The longest prefix of [s] inside the class [p], and what follows it. *)
Fixpoint span (p : Ascii.ascii → bool) (s : string) : string * string :=
  match s with
  | EmptyString => (EmptyString, EmptyString)
  | String c s' =>
      if p c then let '(run, rest) := span p s' in (String c run, rest)
      else (EmptyString, s)
  end.

(** One or more characters of the class [p]. *)
Definition plus (p : Ascii.ascii → bool) (s : string) : option (string * string) :=
  match span p s with
  | (EmptyString, _) => None
  | (run, rest) => Some (run, rest)
  end.

(** Literal text, as written or under [re.IGNORECASE]. *)
Fixpoint lit (ci : bool) (p s : string) : option string :=
  match p, s with
  | EmptyString, _ => Some s
  | String a p', String b s' =>
      if Ascii.eqb (if ci then lower a else a) (if ci then lower b else b)
      then lit ci p' s' else None
  | String _ _, EmptyString => None
  end.

(** [FROM\s+(\w+)\s+WHERE] at the head of [s], ignoring case: the
    number of characters matched. *)
Definition match_from_where (s : string) : option nat :=
  s1 ← lit true "FROM" s;
  '(sp1, s2) ← plus is_space s1;
  '(table, s3) ← plus is_w s2;
  '(sp2, s4) ← plus is_space s3;
  s5 ← lit true "WHERE" s4;
  Some (String.length s - String.length s5)%nat.

(** [\b] in front of a word character: the text starts here or the
    character before is not a word character. *)
Definition boundary (prev : option Ascii.ascii) : bool :=
  match prev with
  | None => true
  | Some c => negb (is_w c)
  end.

Fixpoint sub_scan (skip : nat) (prev : option Ascii.ascii) (repl s : string) : string :=
  match s with
  | EmptyString => EmptyString
  | String c s' =>
      match skip with
      | S k => sub_scan k (Some c) repl s'
      | O =>
          match (if boundary prev then match_from_where s else None) with
          | Some n => repl +:+ sub_scan (n - 1) (Some c) repl s'
          | None => String c (sub_scan O (Some c) repl s')
          end
      end
  end.

Fixpoint has_backslash (s : string) : bool :=
  match s with
  | EmptyString => false
  | String c s' => (code c =? 92)%nat || has_backslash s'
  end.

(** [re.sub(r'\bFROM\s+(\w+)\s+WHERE', repl, sql, flags=re.IGNORECASE)]:
    a replacement without a backslash is inserted as it is written, in
    place of every match from left to right; one with a backslash is a
    template. *)
Definition sub_from_where (repl sql : string) : result string :=
  if has_backslash repl then sub_template repl sql
  else Ok (sub_scan O None repl sql).

(** [([a-zA-Z0-9_]+) (?:NOT )?LIKE '\%([^\%]+)\%'] at the head of [s]:
    the two groups and the number of characters matched. *)
Definition match_like (s : string) : option (string * string * nat) :=
  '(col, s1) ← plus is_word s;
  s2 ← lit false " " s1;
  let s3 := default s2 (lit false "NOT " s2) in
  s4 ← lit false "LIKE '%" s3;
  '(value, s5) ← plus not_percent s4;
  s6 ← lit false "%'" s5;
  Some (col, value, String.length s - String.length s6)%nat.

(** [re.findall(pattern, sql)]: the groups of every match, searching on
    from the end of the previous match. *)
Fixpoint findall_scan (skip : nat) (s : string) : list (string * string) :=
  match s with
  | EmptyString => []
  | String c s' =>
      match skip with
      | S k => findall_scan k s'
      | O =>
          match match_like s with
          | Some (col, value, n) => (col, value) :: findall_scan (n - 1) s'
          | None => findall_scan O s'
          end
      end
  end.

Definition findall_like (sql : string) : list (string * string) :=
  findall_scan O sql.

End re.

End Re.

(** ** Result records *)

(** A field value: the scalars a result row holds (text, integers,
    booleans, [None]); floating-point values are left out. *)
Inductive value : Type :=
  | VStr (s : string)
  | VInt (z : Z)
  | VBool (b : bool)
  | VNone.

(** A record is a [dict] from field name to value, in insertion order; a
    Python [dict] holds every key once. *)
Definition record : Type := list (string * value).

(** [str(v)] *)
Definition py_str (v : value) : string :=
  match v with
  | VStr s => s
  | VInt z => Py.str_int z
  | VBool true => "True"
  | VBool false => "False"
  | VNone => "None"
  end.

(** [d[k]], raising [KeyError] for a missing key. *)
Fixpoint dict_get {V : Type} (k : string) (d : list (string * V)) : result V :=
  match d with
  | [] => Raise KeyError
  | (k', v) :: d' => if String.eqb k k' then Ok v else dict_get k d'
  end.

(** [d[k] = v]: a present key keeps its place, a new key goes last. *)
Fixpoint dict_set {V : Type} (k : string) (v : V) (d : list (string * V)) : list (string * V) :=
  match d with
  | [] => [(k, v)]
  | (k', v') :: d' => if String.eqb k k' then (k, v) :: d' else (k', v') :: dict_set k v d'
  end.

(** ** [json.dumps] with its default arguments *)

Module Json.

Definition hex_digit (n : nat) : Ascii.ascii :=
  Ascii.ascii_of_nat (if (n <? 10)%nat then 48 + n else 87 + n).

(** One character of a string literal under [ensure_ascii=True]. *)
Definition escape_char (c : Ascii.ascii) : string :=
  let n := Ascii.nat_of_ascii c in
  if (n =? 92)%nat then "\\"
  else if (n =? 34)%nat then String (Ascii.ascii_of_nat 92) (String c EmptyString)
  else if (n =? 8)%nat then "\b"
  else if (n =? 12)%nat then "\f"
  else if (n =? 10)%nat then "\n"
  else if (n =? 13)%nat then "\r"
  else if (n =? 9)%nat then "\t"
  else if (n <? 32)%nat || (126 <? n)%nat
       then "\u00" +:+ String (hex_digit (n / 16)) (String (hex_digit (n mod 16)) EmptyString)
  else String c EmptyString.

Fixpoint escape (s : string) : string :=
  match s with
  | EmptyString => EmptyString
  | String c s' => escape_char c +:+ escape s'
  end.

Definition quote : string := String (Ascii.ascii_of_nat 34) EmptyString.

Definition dumps_str (s : string) : string := quote +:+ escape s +:+ quote.

Definition dumps_value (v : value) : string :=
  match v with
  | VStr s => dumps_str s
  | VInt z => Py.str_int z
  | VBool true => "true"
  | VBool false => "false"
  | VNone => "null"
  end.

Definition dumps_item (kv : string * value) : string :=
  dumps_str kv.1 +:+ ": " +:+ dumps_value kv.2.

(** [json.dumps(record)] *)
Definition dumps_record (r : record) : string :=
  "{" +:+ String.concat ", " (dumps_item <$> r) +:+ "}".

(** [json.dumps(records)] *)
Definition dumps (rs : list record) : string :=
  "[" +:+ String.concat ", " (dumps_record <$> rs) +:+ "]".

End Json.

Local Open Scope Z_scope.

(** ** Collaborators outside the module *)

(** The helpers imported from [llm4crs.utils]: the token counter (a
    tokenizer, any function from text to a count) and the extractor of the
    column names of a WHERE clause. *)
Class Utils : Type := {
  num_tokens_from_string : string → Z;
  extract_columns_from_where : string → result (list string);
}.

Section fallback.
Context {utils : Utils}.

(** The first [n] entries of [lst] if their serialization counts at most
    [max_len] tokens, else the longest shorter leading part that does, else
    nothing. *)
Fixpoint cut_list_from (n : nat) (lst : list record) (max_len : Z) : list record :=
  if num_tokens_from_string (Json.dumps (take n lst)) <=? max_len then take n lst
  else match n with
       | O => []
       | S n' => cut_list_from n' lst max_len
       end.

(** Modelled from the spec: [cut_list] of [llm4crs.utils], the emergency
    fallback, "one last unconditional truncation of the serialized payload
    to a length implied by the budget".  [run] hands it the list and the
    budget and serializes what it returns, so it is the truncation of the
    list to the longest leading part whose serialization counts at most
    [max_len] tokens. *)
Definition cut_list (lst : list record) (max_len : Z) : list record :=
  cut_list_from (length lst) lst max_len.

End fallback.

(** The item corpus, an object of class [BaseGallery]: the attributes and
    methods that [QueryTool] reads.  [column_meaning], [fuzzy_engine] and
    [categorical_col_values] are dictionaries of which only the keys are
    used; [query] is the call [item_corpus(sql, return_id_only=False)]
    followed by the conversion to a list of records. *)
Module BaseGallery.
Record t : Type := {
  name : string;
  column_meaning : list string;
  categorical_col_values : list string;
  fuzzy_engine : list string;
  fuzzy_match : string → string → result string;
  query : string → result (list record);
}.
End BaseGallery.

(** ** The generator behind [random.sample] *)

(** The state of the module-level generator: the raw draws still to come. *)
Definition rng : Type := nat → nat.

(** [_randbelow(n)] for [n > 0], as [random.sample] calls it: the next
    draw, brought below [n]. *)
Definition randbelow (g : rng) (n : nat) : nat * rng :=
  ((g O mod n)%nat, λ i, g (S i)).

(** The generator after [d] draws. *)
Fixpoint advance (d : nat) (g : rng) : rng :=
  match d with
  | O => g
  | S d' => advance d' (λ i, g (S i))
  end.

Section sample.
Context {pylib : PyLib} {A : Type}.

(** [setsize] of [random.sample]: 21, and for [k > 5] the size of the
    table of a set of [k] entries more. *)
Definition setsize (k : Z) : Z :=
  21 + (if 5 <? k then 4 ^ ceil_log4 (k * 3) else 0).

(** The first branch of [random.sample], [for i in range(k)] over a copy
    of the population: [k] draws from a pool whose first [live] entries
    have not been chosen yet; the chosen entry is overwritten with the last
    live one. *)
Fixpoint sample_loop (k live : nat) (pool : list A) (g : rng)
    : result (list A * rng) :=
  match k with
  | O => Ok ([], g)
  | S k' =>
      let '(j, g1) := randbelow g live in
      match pool !! j, pool !! (live - 1)%nat with
      | Some x, Some y =>
          '(chosen, g2) ← sample_loop k' (live - 1)%nat (<[j := y]> pool) g1;
          Ok (x :: chosen, g2)
      | _, _ => Raise IndexError
      end
  end.

(** [while j in selected: j = randbelow(n)], with at most [fuel] redraws. *)
Fixpoint reselect (fuel n : nat) (selected : list nat) (j : nat) (g : rng)
    : result (nat * rng) :=
  if bool_decide (j ∈ selected) then
    match fuel with
    | O => Diverge
    | S fuel' => let '(j', g') := randbelow g n in reselect fuel' n selected j' g'
    end
  else Ok (j, g).

(** The second branch, [for i in range(k)] with the set [selected] of the
    positions taken so far. *)
Fixpoint sample_set (fuel k : nat) (population : list A) (selected : list nat) (g : rng)
    : result (list A * rng) :=
  match k with
  | O => Ok ([], g)
  | S k' =>
      let '(j, g1) := randbelow g (length population) in
      '(j, g2) ← reselect fuel (length population) selected j g1;
      match population !! j with
      | Some x =>
          '(chosen, g3) ← sample_set fuel k' population (j :: selected) g2;
          Ok (x :: chosen, g3)
      | None => Raise IndexError
      end
  end.

(** [random.sample(population, k=k)] for a list [population]. *)
Definition random_sample (fuel : nat) (population : list A) (k : Z) (g : rng)
    : result (list A * rng) :=
  let n := Z.of_nat (length population) in
  if (k <? 0) || (n <? k) then Raise ValueError
  else if n <=? setsize k then sample_loop (Z.to_nat k) (length population) population g
  else sample_set fuel (Z.to_nat k) population [] g.

End sample.

(** ** Shrinking one record *)

Section shrink.
Context {utils : Utils}.

(** The body of the second [for] of a pass for one field: the new text of
    the field and the value given to [_cut_last]. *)
Definition cut_field (cut_off key_token : Z) (v : string) : result (string * bool) :=
  let words := Py.split v in
  let n := Z.of_nat (length words) in
  if key_token =? 0 then Raise ZeroDivisionError
  else
    let cut_word_cnt := Z.min ((n * cut_off) `div` key_token) (n - 3) in
    if (1 <=? cut_word_cnt) && (10 <? n) then
      Ok (Py.join (Py.drop_last (Z.to_nat cut_word_cnt) words) +:+ "...", true)
    else if (1 <=? cut_word_cnt) && (5 <? n) then
      Ok (Py.join (Py.drop_last 1 words) +:+ "...", true)
    else
      Ok (Py.join words +:+ EmptyString, false).

(** The second [for] of a pass, field by field; [cut_last] is the value of
    [_cut_last] on entry and the second component its value on exit. *)
Fixpoint cut_fields (cut_off_token key2token : list (string * Z))
    (fields : list (string * string)) (cut_last : bool)
    : result (list (string * string) * bool) :=
  match fields with
  | [] => Ok ([], cut_last)
  | (k, v) :: rest =>
      c ← dict_get k cut_off_token;
      t ← dict_get k key2token;
      '(v', cut) ← cut_field c t v;
      '(rest', cut_last') ← cut_fields cut_off_token key2token rest cut;
      Ok ((k, v') :: rest', cut_last')
  end.

Definition stringify (res_record : record) : list (string * string) :=
  (λ kv, (kv.1, py_str kv.2)) <$> res_record.

Definition as_record (fields : list (string * string)) : record :=
  (λ kv, (kv.1, VStr kv.2)) <$> fields.

Definition sum_tokens (key2token : list (string * Z)) : Z :=
  foldr Z.add 0 key2token.*2.

(** One pass of the [while] body, up to the recomputation of the
    overflow. *)
Definition shrink_pass (overflow_token : Z) (cut_last : bool) (res_record : record)
    : result (record * bool) :=
  let fields := stringify res_record in
  let key2token := (λ kv, (kv.1, num_tokens_from_string kv.2)) <$> fields in
  let all_token := sum_tokens key2token in
  cut_off_token ← mapM (λ kv : string * Z,
      if all_token =? 0 then Raise ZeroDivisionError
      else Ok (kv.1, (overflow_token * kv.2) `div` all_token)) key2token;
  '(fields', cut_last') ← cut_fields cut_off_token key2token fields cut_last;
  Ok (as_record fields', cut_last').

(** How the [while] loop of one record ends. *)
Inductive loop_exit : Type :=
  | Exited (res_record : record)
  | Raised (e : exn)
  | OutOfFuel.

(** The [while] loop with at most [fuel] passes; the second component
    counts the passes that were started. *)
Fixpoint shrink_loop (fuel : nat) (token_limit_per_record overflow_token : Z)
    (cut_last : bool) (res_record : record) : loop_exit * nat :=
  if (0 <? overflow_token) && cut_last then
    match fuel with
    | O => (OutOfFuel, O)
    | S fuel' =>
        match shrink_pass overflow_token cut_last res_record with
        | Ok (res_record', cut_last') =>
            let overflow_token' :=
              num_tokens_from_string (Json.dumps_record res_record')
              - token_limit_per_record in
            let '(exit, passes) :=
              shrink_loop fuel' token_limit_per_record overflow_token' cut_last' res_record' in
            (exit, S passes)
        | Raise e => (Raised e, 1%nat)
        | Diverge => (OutOfFuel, 1%nat)
        end
    end
  else (Exited res_record, O).

(** The number of words of a record, field texts taken as [str] gives
    them. *)
Definition total_words (r : record) : nat :=
  sum_list ((λ kv, length (Py.split kv.2)) <$> stringify r).

(** The body of [for i, record in enumerate(res)]: the shrunk copy of
    the record [rcd].  A loop that has not ended after [total_words rcd + 1]
    passes never ends (lemma [shrink_loop_out_of_fuel]). *)
Definition shrink_record (token_limit_per_record : Z) (rcd : record) : result record :=
  let overflow_token :=
    num_tokens_from_string (Json.dumps_record rcd) - token_limit_per_record in
  match shrink_loop (S (total_words rcd)) token_limit_per_record overflow_token true rcd with
  | (Exited res_record, _) => Ok res_record
  | (Raised e, _) => Raise e
  | (OutOfFuel, _) => Diverge
  end.

End shrink.

(** ** The state a call of [run] can touch *)

Inductive log_entry : Type :=
  | LogText (s : string)
  | LogExn (e : exn).

(** The generator of the [random] module, the entries the usage buffer has
    been given through [track], and what went to [logger.debug]. *)
Record World : Type := {
  random_state : rng;
  tracked : list (string * string * string);
  debug_log : list log_entry;
}.

Definition debug (entry : log_entry) (w : World) : World :=
  {| random_state := random_state w; tracked := tracked w;
     debug_log := debug_log w ++ [entry] |}.

Definition track (tool_name inputs label : string) (w : World) : World :=
  {| random_state := random_state w;
     tracked := tracked w ++ [(tool_name, inputs, label)];
     debug_log := debug_log w |}.

Definition set_random_state (g : rng) (w : World) : World :=
  {| random_state := g; tracked := tracked w; debug_log := debug_log w |}.

Definition nl : string := String (Ascii.ascii_of_nat 10) EmptyString.

(** [str(d.keys())] for a dictionary whose keys are plain names. *)
Definition dict_keys_str (keys : list string) : string :=
  "dict_keys([" +:+ String.concat ", " ((λ k, "'" +:+ k +:+ "'") <$> keys) +:+ "])".

(** ** The class [QueryTool] *)

Module QueryTool.

(** The attributes set by the constructor.  The [buffer] argument is a
    reference to the usage buffer, whose content is [tracked]. *)
Record t : Type := {
  name : string;
  desc : string;
  item_corpus : BaseGallery.t;
  result_max_token : Z;
  _max_record_num : Z;
}.

Definition __init__ (name desc : string) (item_corpus : BaseGallery.t)
    (result_max_token : Z) : t :=
  {| name := name; desc := desc; item_corpus := item_corpus;
     result_max_token := result_max_token;
     _max_record_num := result_max_token `div` 5 |}.

Definition default_result_max_token : Z := 512.

Section methods.
Context {utils : Utils} {pylib : PyLib}.
Variable self : t.

(** *** [rewrite_sql] *)

(** The first [for]: the replacement of every unknown column. *)
Fixpoint ground_columns (cols : list string) (col_replace_dict : list (string * string))
    : result (list (string * string)) :=
  match cols with
  | [] => Ok col_replace_dict
  | col :: cols' =>
      if bool_decide (col ∈ BaseGallery.column_meaning (item_corpus self))
      then ground_columns cols' col_replace_dict
      else
        mapped_col ← BaseGallery.fuzzy_match (item_corpus self) col "sql_cols";
        ground_columns cols' (dict_set col mapped_col col_replace_dict)
  end.

(** The [for] over the matches of the LIKE pattern. *)
Fixpoint ground_values (res : list (string * string)) (replace_dict : list (string * string))
    : result (list (string * string)) :=
  match res with
  | [] => Ok replace_dict
  | (col, value) :: res' =>
      if bool_decide (col ∈ BaseGallery.fuzzy_engine (item_corpus self))
      then
        matched ← BaseGallery.fuzzy_match (item_corpus self) value col;
        let replace_value := Py.replace "'" "''" matched in
        ground_values res'
          (dict_set ("%" +:+ value +:+ "%") ("%" +:+ replace_value +:+ "%") replace_dict)
      else ground_values res' replace_dict
  end.

(** [for k, v in d.items(): sql = sql.replace(k, v)] *)
Definition replace_all (d : list (string * string)) (sql : string) : string :=
  foldl (λ sql kv, Py.replace kv.1 kv.2 sql) sql d.

Definition rewrite_sql (sql : string) : result string :=
  sql ← Re.sub_from_where ("FROM " +:+ BaseGallery.name (item_corpus self) +:+ " WHERE") sql;
  cols ← extract_columns_from_where sql;
  col_replace_dict ← ground_columns cols [];
  let sql := replace_all col_replace_dict sql in
  let res := Re.findall_like sql in
  replace_dict ← ground_values res [];
  Ok (replace_all replace_dict sql).

(** *** [run] *)

Definition broken_message : string :=
  name self +:+ ": some thing went wrong in execution, the tool is broken for current input. " +:+ nl.

Definition rewrite_notice (inputs : string) : string :=
  name self +:+ ": The input SQL is rewritten as " +:+ inputs +:+ " because some "
  +:+ dict_keys_str (BaseGallery.categorical_col_values (item_corpus self))
  +:+ " are not existing. " +:+ nl.

Definition sampling_notice : string :=
  name self +:+ ": The search result is too long, some are omitted. " +:+ nl.

Definition default_output : string := "can not seach related information.".

(** Lines 51-56: the cap on the number of records; the flag is
    [_any_cut].  [fuel] bounds the redraws of one selection of
    [random.sample]. *)
Definition record_cap (fuel : nat) (res : list record) (g : rng)
    : result (list record * bool * rng) :=
  if _max_record_num self <? Z.of_nat (length res) then
    '(sampled, g') ← random_sample fuel res (_max_record_num self) g;
    Ok (sampled, true, g')
  else Ok (res, false, g).

(** Lines 59-110: what is done with the capped records; the result is
    the pair of [info] and [output]. *)
Definition render (res : list record) (any_cut : bool) (info : string)
    : result (string * string) :=
  if result_max_token self <? num_tokens_from_string (Json.dumps res) then
    let token_limit_per_record := result_max_token self `div` (Z.of_nat (length res) + 1) in
    cut_res ← mapM (shrink_record token_limit_per_record) res;
    let info := if any_cut then info +:+ sampling_notice else info in
    let cut_res :=
      if result_max_token self <? num_tokens_from_string (Json.dumps cut_res)
      then cut_list cut_res (result_max_token self) else cut_res in
    let output := Json.dumps cut_res in
    Ok (info +:+ name self +:+ " search result: " +:+ output, output)
  else
    let output := Json.dumps res in
    Ok (info +:+ name self +:+ " search result: " +:+ output, output).

(** The body of the second [try], with the generator state it leaves. *)
Definition search (fuel : nat) (inputs info : string) (g : rng)
    : result (string * string) * rng :=
  match BaseGallery.query (item_corpus self) inputs with
  | Ok res =>
      match record_cap fuel res g with
      | Ok (res', any_cut, g') => (render res' any_cut info, g')
      | Raise e => (Raise e, g)
      | Diverge => (Diverge, g)
      end
  | Raise e => (Raise e, g)
  | Diverge => (Diverge, g)
  end.

(** Lines 116-120. *)
Definition finish (inputs info output : string) (w : World) : string * World :=
  (output, debug (LogText info) (track (name self) inputs "Some item information." w)).

Definition run (fuel : nat) (inputs : string) (w : World) : result (string * World) :=
  let w := debug (LogText (nl +:+ "SQL from AGI: " +:+ inputs)) w in
  let info := EmptyString in
  let output := default_output in
  match rewrite_sql inputs with
  | Ok inputs =>
      let w := debug (LogText ("Rewrite SQL: " +:+ inputs)) w in
      let info := info +:+ rewrite_notice inputs in
      match search fuel inputs info (random_state w) with
      | (Ok (info, output), g) => Ok (finish inputs info output (set_random_state g w))
      | (Raise e, g) =>
          let w := debug (LogExn e) (set_random_state g w) in
          let info := info +:+ broken_message in
          Ok (finish inputs info output w)
      | (Diverge, _) => Diverge
      end
  | Raise _ => Ok (info +:+ broken_message, w)
  | Diverge => Diverge
  end.

End methods.

End QueryTool.

(** ** The shrink phase on a store of objects

    The records of [res] are objects; [deepcopy] allocates a new one and the
    passes of the [while] loop assign to the fields of that copy.  A
    location is a reference, the store maps it to the content of the
    [dict]. *)

Module Heap.

Definition loc : Type := positive.

Section heap.
Context {utils : Utils}.

Definition deref (σ : gmap loc record) (l : loc) : result record :=
  match σ !! l with
  | Some r => Ok r
  | None => Raise KeyError
  end.

(** [deepcopy(record)]: the values of a record are immutable scalars, so
    the copy is a new [dict] with the same items. *)
Definition deepcopy (l : loc) (σ : gmap loc record) : result (loc * gmap loc record) :=
  r ← deref σ l;
  let l' := fresh (dom σ) in
  Ok (l', <[l' := r]> σ).

(** The [while] loop of lines 70-94 on the object at [l]: every pass
    reads the fields of the object and assigns them again. *)
Fixpoint shrink_loop (fuel : nat) (token_limit_per_record overflow_token : Z)
    (cut_last : bool) (l : loc) (σ : gmap loc record) : result (gmap loc record) :=
  if (0 <? overflow_token) && cut_last then
    match fuel with
    | O => Diverge
    | S fuel' =>
        res_record ← deref σ l;
        '(res_record', cut_last') ← shrink_pass overflow_token cut_last res_record;
        let overflow_token' :=
          num_tokens_from_string (Json.dumps_record res_record')
          - token_limit_per_record in
        shrink_loop fuel' token_limit_per_record overflow_token' cut_last' l
          (<[l := res_record']> σ)
    end
  else Ok σ.

(** Lines 65-95 for the record at [l]: the location of the shrunk copy. *)
Definition shrink_record (token_limit_per_record : Z) (l : loc) (σ : gmap loc record)
    : result (loc * gmap loc record) :=
  rcd ← deref σ l;
  let overflow_token :=
    num_tokens_from_string (Json.dumps_record rcd) - token_limit_per_record in
  '(l', σ1) ← deepcopy l σ;
  σ2 ← shrink_loop (S (total_words rcd)) token_limit_per_record overflow_token true l' σ1;
  Ok (l', σ2).

(** Lines 63-95: [cut_res], filled in the order of [res]. *)
Fixpoint shrink_all (token_limit_per_record : Z) (res : list loc) (σ : gmap loc record)
    : result (list loc * gmap loc record) :=
  match res with
  | [] => Ok ([], σ)
  | l :: res' =>
      '(l', σ1) ← shrink_record token_limit_per_record l σ;
      '(cut_res, σ2) ← shrink_all token_limit_per_record res' σ1;
      Ok (l' :: cut_res, σ2)
  end.

(** The records a list of references denotes. *)
Definition contents (σ : gmap loc record) (ls : list loc) : list (option record) :=
  (λ l, σ !! l) <$> ls.

End heap.

End Heap.

(** ** What the spec says [run] returns *)

(** The composed string in the words of the spec: "a diagnostic prefix
    (rewrite notice if grounding occurred, sampling notice if
    [was_sampled]) with the serialized payload". *)
Definition spec_composed (self : QueryTool.t) (grounded was_sampled : bool)
    (rewritten payload : string) : string :=
  (if grounded then QueryTool.rewrite_notice self rewritten else EmptyString)
  +:+ (if was_sampled then QueryTool.sampling_notice self else EmptyString)
  +:+ payload.

(** ** Vocabulary of the statements *)

(** The number of spaces of a text. *)
Fixpoint spaces (s : string) : nat :=
  match s with
  | EmptyString => O
  | String c s' => ((if Ascii.eqb c Py.space then 1 else 0) + spaces s')%nat
  end.

(** What a cut leaves of a text with words [words]: the text kept when
    [n] words are dropped from the end, with the ellipsis. *)
Definition cut_text (words : list string) (n : nat) : string :=
  Py.join (take (length words - n)%nat words) +:+ "...".

(** A field is either kept as it is, or it has more than 5 words, at
    least one of them is dropped and at least 3 remain. *)
Definition field_step (v v' : string) (cut : bool) : Prop :=
  let words := Py.split v in
  (cut = false ∧ v' = v) ∨
  (cut = true ∧ (5 < length words)%nat ∧
     ∃ n : nat, (1 ≤ n)%nat ∧ (3 ≤ length words - n)%nat ∧ v' = cut_text words n).

(** The number of words of the fields of a record in text form. *)
Definition field_words (fields : list (string * string)) : nat :=
  sum_list ((λ kv, length (Py.split kv.2)) <$> fields).

(** Every character of a text is in the class [p]. *)
Fixpoint all_chars (p : Ascii.ascii → bool) (s : string) : bool :=
  match s with
  | EmptyString => true
  | String c s' => p c && all_chars p s'
  end.

(** The single quote, and the class of the other characters. *)
Definition apostrophe : Ascii.ascii := Ascii.ascii_of_nat 39.

Definition not_apostrophe (c : Ascii.ascii) : bool := negb (Ascii.eqb c apostrophe).

(** A text with its capital letters made small, as [re.IGNORECASE]
    compares it. *)
Fixpoint lower_text (s : string) : string :=
  match s with
  | EmptyString => EmptyString
  | String c s' => String (Re.lower c) (lower_text s')
  end.

(** The last character of [s], or [prev] when [s] is empty. *)
Fixpoint last_char (prev : option Ascii.ascii) (s : string) : option Ascii.ascii :=
  match s with
  | EmptyString => prev
  | String c s' => last_char (Some c) s'
  end.

(** The characters other than [f] and [F]. *)
Definition not_f (c : Ascii.ascii) : bool :=
  negb (Ascii.eqb (Re.lower c) (Ascii.ascii_of_nat 102)).

(** The printable characters of ASCII, space to tilde. *)
Definition printable (c : Ascii.ascii) : bool := Re.in_range 32 126 c.

(** A field value that is a text. *)
Definition is_text (v : value) : Prop := ∃ s, v = VStr s.

(** What the shrink loop may do to a field: its words do not grow, a field
    of at most 5 words keeps its text, and a field of at least 3 words
    keeps at least 3. *)
Definition field_kept (v v' : value) : Prop :=
  let n := length (Py.split (py_str v)) in
  let n' := length (Py.split (py_str v')) in
  (n' ≤ n)%nat ∧ ((n ≤ 5)%nat → py_str v' = py_str v) ∧ ((3 ≤ n)%nat → (3 ≤ n')%nat).

(** The same for a record, field by field, names and order kept. *)
Definition record_kept (r r' : record) : Prop :=
  Forall2 (λ kv kv' : string * value, kv'.1 = kv.1 ∧ field_kept kv.2 kv'.2) r r'.

(** The result of the shrink loop for a field: the text it had, or (for a
    text of more than 5 words) its first [m] words, 3 or more and fewer
    than all, followed by one ellipsis. *)
Definition field_cut_of (v v' : value) : Prop :=
  let words := Py.split (py_str v) in
  py_str v' = py_str v ∨
  ((5 < length words)%nat ∧
   ∃ m : nat, (3 ≤ m < length words)%nat ∧ py_str v' = Py.join (take m words) +:+ "...").

(** The same for a record, field by field, names and order kept. *)
Definition record_cut_of (r r' : record) : Prop :=
  Forall2 (λ kv kv' : string * value, kv'.1 = kv.1 ∧ field_cut_of kv.2 kv'.2) r r'.

(** [ps] is an ordered selection of [k] different positions of a list of
    [n] entries. *)
Definition arrangement (n k : nat) (ps : list nat) : Prop :=
  length ps = k ∧ NoDup ps ∧ Forall (λ p, (p < n)%nat) ps.

(** The draws [js] are choices for a pool of [n] entries that loses one
    entry with every draw. *)
Definition choices (n : nat) (js : list nat) : Prop :=
  ∀ i j, js !! i = Some j → (j < n - i)%nat.

(** The generator delivers the draws [js] first. *)
Definition begins_with (js : list nat) (g : rng) : Prop :=
  ∀ i j, js !! i = Some j → g i = j.

(** Wherever the generator stands, one of its next [fuel + 1] draws gives a
    position of a list of [n] entries that is not among [k - 1] or fewer
    given ones. *)
Definition redraws_suffice (fuel n k : nat) (g : rng) : Prop :=
  ∀ (pos : nat) (selected : list nat), (length selected < k)%nat →
    ∃ i, (i ≤ fuel)%nat ∧ (g (pos + i) mod n)%nat ∉ selected.

(** The positions [random.sample] selects in a list of [n] entries. *)
Definition sample_positions {pylib : PyLib} (fuel n : nat) (k : Z) (g : rng)
    : result (list nat * rng) :=
  random_sample fuel (seq 0 n) k g.

(** The records at the positions [ps] of a result. *)
Definition records_at (res : list record) (ps : list nat) : list record :=
  (λ p, res !!! p) <$> ps.

(** The generator whose draws are those of [g] for a list of [n] entries
    with the positions renamed by [π]. *)
Definition renamed (π : nat → nat) (n : nat) (g : rng) : rng :=
  λ i, π (g i mod n)%nat.

(** The world after a call of [run] whose rewrite step gave [q]: the
    generator state [g], one more tracked use, and the log entries of the
    call, with the exception that was caught, if any. *)
Definition world_after (self : QueryTool.t) (inputs q info : string) (g : rng)
    (raised : option exn) (w : World) : World :=
  {| random_state := g;
     tracked := tracked w ++ [(QueryTool.name self, q, "Some item information.")];
     debug_log :=
       debug_log w
       ++ [LogText (nl +:+ "SQL from AGI: " +:+ inputs); LogText ("Rewrite SQL: " +:+ q)]
       ++ match raised with Some e => [LogExn e] | None => [] end
       ++ [LogText info] |}.

(** ** A small corpus to run the tool on *)

Module Demo.

(** A tokenizer that makes every character a token, and an extractor that
    returns the columns of the LIKE predicates. *)
#[export] Instance utils : Utils := {|
  num_tokens_from_string s := Z.of_nat (String.length s);
  extract_columns_from_where sql := Ok ((Re.findall_like sql).*1);
|}.

(** The parameters of the library for the demo: the logarithm computed
    exactly, and a template that [re] rejects (the corpus below is named
    [items], so no replacement of the demo is a template). *)
#[export] Instance pylib : PyLib := {|
  ceil_log4 x := (Z.log2_up x + 1) `div` 2;
  sub_template _ _ := Raise ReError;
|}.

(** A tokenizer that counts the words of a text. *)
Definition words : Utils := {|
  num_tokens_from_string s := Z.of_nat (S (spaces s));
  extract_columns_from_where sql := Ok ((Re.findall_like sql).*1);
|}.

Definition fuzzy_match (token domain : string) : result string :=
  if String.eqb domain "sql_cols" then
    Ok (if String.eqb token "colr" then "color" else token)
  else if String.eqb domain "color" then
    Ok (if String.eqb token "cofee" then "coffee" else token)
  else Raise KeyError.

Definition long_text : string :=
  "one two three four five six seven eight nine ten eleven twelve".

Definition mug : record :=
  [("description", VStr long_text); ("id", VInt 7)].

(** [mug] after one pass against an allowance of 59 tokens. *)
Definition mug_after_pass : record :=
  [("description", VStr "one two three four five six seven..."); ("id", VStr "7")].

(** The items of [mug] in the other order. *)
Definition mug_id_first : record :=
  [("id", VInt 7); ("description", VStr long_text)].

Definition cup : record := [("title", VStr "cup"); ("color", VStr "coffee")].

Definition corpus (rows : result (list record)) : BaseGallery.t := {|
  BaseGallery.name := "items";
  BaseGallery.column_meaning := ["title"; "color"; "description"; "id"];
  BaseGallery.categorical_col_values := ["color"];
  BaseGallery.fuzzy_engine := ["sql_cols"; "color"];
  BaseGallery.fuzzy_match := fuzzy_match;
  BaseGallery.query := λ _, rows;
|}.

Definition tool (rows : result (list record)) (result_max_token : Z) : QueryTool.t :=
  QueryTool.__init__ "query" "looks up items" (corpus rows) result_max_token.

Definition scenario_sql : string :=
  "SELECT * FROM unknown_table WHERE colr LIKE '%cofee%'".

Definition world (g : rng) : World :=
  {| random_state := g; tracked := []; debug_log := [] |}.

(** A store with [mug] and [cup], and the same store after the shrink
    phase over the references [1; 2; 1] with an allowance of 59 tokens. *)
Definition store : gmap Heap.loc record :=
  <[2%positive := cup]> (<[1%positive := mug]> ∅).

Definition store_after : gmap Heap.loc record :=
  <[5%positive := mug_after_pass]>
    (<[4%positive := cup]> (<[3%positive := mug_after_pass]> store)).

Definition zeros : rng := λ _, O.
Definition ones : rng := λ _, 1%nat.

(** The draws 0, 1, 2, ... *)
Definition counting : rng := λ i, i.

(** Two draws of 0, then the draws 5, 6, 7, ... *)
Definition stutter : rng := λ i, if (i <? 2)%nat then O else (i + 3)%nat.

(** A table name with the letter of code 233 (e with an acute accent), and
    the no-break space. *)
Definition cafe : string := "caf" +:+ String (Ascii.ascii_of_nat 233) EmptyString.
Definition nbsp : string := String (Ascii.ascii_of_nat 160) EmptyString.

(** Twenty-two records, numbered from 0. *)
Definition shelf : list record := (λ i, [("id", VInt (Z.of_nat i))]) <$> seq 0 22.

End Demo.

(** * Properties *)

(** ** Words of a text *)

Section words.

Lemma app_String (c : Ascii.ascii) (a b : string) :
  String c a +:+ b = String c (a +:+ b).
Proof. reflexivity. Qed.

Lemma app_empty_r (s : string) : s +:+ EmptyString = s.
Proof. induction s as [|c s IH]; [done | by rewrite app_String, IH]. Qed.

Lemma app_assoc_s (a b c : string) : (a +:+ b) +:+ c = a +:+ (b +:+ c).
Proof. induction a as [|x a IH]; [done | by rewrite !app_String, IH]. Qed.

Lemma app_length_s (a b : string) :
  String.length (a +:+ b) = (String.length a + String.length b)%nat.
Proof. induction a as [|x a IH]; [done | rewrite app_String; simpl; by rewrite IH]. Qed.

Lemma spaces_app (a b : string) : spaces (a +:+ b) = (spaces a + spaces b)%nat.
Proof.
  induction a as [|c a IH]; [done |].
  rewrite app_String. simpl. rewrite IH. lia.
Qed.

Lemma split_length (s : string) : length (Py.split s) = S (spaces s).
Proof.
  induction s as [|c s IH]; simpl; [done |].
  destruct (Ascii.eqb c Py.space); simpl; [by rewrite IH |].
  destruct (Py.split s) as [|w ws]; simpl in *; lia.
Qed.

Lemma split_not_nil (s : string) : Py.split s ≠ [].
Proof. intros E. pose proof (split_length s) as L. rewrite E in L. done. Qed.

Lemma join_cons (w : string) (ws : list string) :
  ws ≠ [] → Py.join (w :: ws) = w +:+ " " +:+ Py.join ws.
Proof. destruct ws; done. Qed.

Lemma join_split (s : string) : Py.join (Py.split s) = s.
Proof.
  induction s as [|c s IH]; [done |]. simpl.
  destruct (Ascii.eqb c Py.space) eqn:E.
  - apply Ascii.eqb_eq in E as ->.
    rewrite join_cons by apply split_not_nil. by rewrite IH.
  - pose proof (split_not_nil s) as N.
    destruct (Py.split s) as [|w ws]; [done |].
    destruct ws as [|w' ws].
    + change (String c w = String c s). f_equal. exact IH.
    + rewrite join_cons in IH by done. rewrite join_cons by done.
      by rewrite app_String, IH.
Qed.

Lemma split_words_no_space (s : string) : Forall (λ w, spaces w = O) (Py.split s).
Proof.
  induction s as [|c s IH]; simpl; [by repeat constructor |].
  destruct (Ascii.eqb c Py.space) eqn:E; [by constructor |].
  destruct (Py.split s) as [|w ws]; simpl.
  - repeat constructor. simpl. by rewrite E.
  - inversion IH; subst. constructor; [simpl; rewrite E; lia | done].
Qed.

Lemma spaces_join (ws : list string) :
  Forall (λ w, spaces w = O) ws → spaces (Py.join ws) = (length ws - 1)%nat.
Proof.
  induction 1 as [|w ws Hw Hws IH]; [done |].
  destruct ws as [|w' ws]; [simpl; done |].
  rewrite join_cons by done. rewrite !spaces_app, IH, Hw. simpl. lia.
Qed.

(** The words of a field after a cut: as many as were kept. *)
Lemma split_cut_length (s : string) (m : nat) :
  (1 ≤ m)%nat → (m ≤ length (Py.split s))%nat →
  length (Py.split (Py.join (take m (Py.split s)) +:+ "...")) = m.
Proof.
  intros Hm Hle. rewrite split_length, spaces_app, spaces_join.
  - rewrite length_take. simpl. lia.
  - apply Forall_take, split_words_no_space.
Qed.

End words.

(** ** The result monad *)

Lemma bind_Ok {A B : Type} (m : result A) (k : A → result B) (b : B) :
  (m ≫= k) = Ok b → ∃ a, m = Ok a ∧ k a = Ok b.
Proof. destruct m as [a| |]; simpl; [eauto | done | done]. Qed.

Lemma bind_Ok_eq {A B : Type} (m : result A) (k : A → result B) (a : A) :
  m = Ok a → (m ≫= k) = k a.
Proof. by intros ->. Qed.

Lemma bind_not_diverge {A B : Type} (m : result A) (k : A → result B) :
  m ≠ Diverge → (∀ a, k a ≠ Diverge) → (m ≫= k) ≠ Diverge.
Proof. destruct m; simpl; eauto. Qed.

(** ** One pass over a record *)

Section pass.
Context {utils : Utils}.

Lemma cut_field_step (cut_off key_token : Z) (v v' : string) (cut : bool) :
  cut_field cut_off key_token v = Ok (v', cut) → field_step v v' cut.
Proof.
  unfold cut_field, field_step.
  set (words := Py.split v). set (n := Z.of_nat (length words)).
  destruct (key_token =? 0); [done |].
  set (cnt := Z.min _ _).
  assert (cnt ≤ n - 3) as Hcap by (unfold cnt; lia).
  destruct (1 <=? cnt) eqn:H1; simpl.
  - apply Z.leb_le in H1.
    destruct (10 <? n) eqn:H10; [|destruct (5 <? n) eqn:H5].
    + intros [= <- <-]. right. apply Z.ltb_lt in H10.
      split; [done |]. split; [lia |].
      exists (Z.to_nat cnt). split; [lia |]. split; [lia | done].
    + intros [= <- <-]. right. apply Z.ltb_lt in H5.
      split; [done |]. split; [lia |].
      exists 1%nat. split; [lia |]. split; [lia | done].
    + intros [= <- <-]. left. split; [done |].
      unfold words. by rewrite app_empty_r, join_split.
  - intros [= <- <-]. left. split; [done |].
    unfold words. by rewrite app_empty_r, join_split.
Qed.

(** The words of a field do not grow, and shrink when it is cut. *)
Lemma field_step_words (v v' : string) (cut : bool) :
  field_step v v' cut →
  (length (Py.split v') ≤ length (Py.split v))%nat ∧
  (cut = true → (length (Py.split v') < length (Py.split v))%nat).
Proof.
  intros [[-> ->] | (-> & H5 & n & Hn & H3 & ->)]; [split; [lia | done] |].
  unfold cut_text. rewrite split_cut_length by lia. split; [lia | intros _; lia].
Qed.

Lemma field_words_cons (kv : string * string) (fields : list (string * string)) :
  field_words (kv :: fields) = (length (Py.split kv.2) + field_words fields)%nat.
Proof. reflexivity. Qed.

(** The second [for]: every field makes a [field_step], and [_cut_last]
    ends as the flag of the last field. *)
Lemma cut_fields_steps (cut_off_token key2token : list (string * Z))
    (fields fields' : list (string * string)) (cut_last cut_last' : bool) :
  cut_fields cut_off_token key2token fields cut_last = Ok (fields', cut_last') →
  Forall2 (λ kv kv', kv'.1 = kv.1 ∧ ∃ cut, field_step kv.2 kv'.2 cut) fields fields'.
Proof.
  revert fields' cut_last cut_last'.
  induction fields as [|[k v] rest IH]; intros fields' c0 c' H; simpl in H.
  - injection H as <- <-. constructor.
  - apply bind_Ok in H as (c & _ & H). apply bind_Ok in H as (t & _ & H).
    apply bind_Ok in H as ([v' cut] & E1 & H).
    apply bind_Ok in H as ([rest' c2] & E2 & H).
    injection H as <- <-. constructor; [|by eapply IH].
    split; [done |]. exists cut. by eapply cut_field_step.
Qed.

Lemma cut_fields_words (cut_off_token key2token : list (string * Z))
    (fields fields' : list (string * string)) (cut_last cut_last' : bool) :
  cut_fields cut_off_token key2token fields cut_last = Ok (fields', cut_last') →
  (field_words fields' ≤ field_words fields)%nat ∧
  (fields ≠ [] → cut_last' = true → (field_words fields' < field_words fields)%nat) ∧
  (fields = [] → cut_last' = cut_last).
Proof.
  revert fields' cut_last cut_last'.
  induction fields as [|[k v] rest IH]; intros fields' c0 c' H; simpl in H.
  - injection H as <- <-. done.
  - apply bind_Ok in H as (c & _ & H). apply bind_Ok in H as (t & _ & H).
    apply bind_Ok in H as ([v' cut] & E1 & H).
    apply bind_Ok in H as ([rest' c2] & E2 & H).
    injection H as <- <-.
    apply cut_field_step, field_step_words in E1 as [Hle Hlt].
    apply IH in E2 as (Hrest & Hrest_lt & Hnil).
    rewrite !field_words_cons. simpl. split; [lia |]. split; [|done].
    intros _ ->. destruct rest as [|kv rest].
    + rewrite Hnil in Hlt by done. specialize (Hlt eq_refl). lia.
    + specialize (Hrest_lt ltac:(done) eq_refl). lia.
Qed.

Lemma stringify_as_record (fields : list (string * string)) :
  stringify (as_record fields) = fields.
Proof.
  unfold stringify, as_record. rewrite <- list_fmap_compose.
  rewrite <- (list_fmap_id fields) at 2. apply list_fmap_ext.
  by intros _ [k v] _.
Qed.

Lemma shrink_pass_inv (overflow_token : Z) (cut_last cut_last' : bool) (r r' : record) :
  shrink_pass overflow_token cut_last r = Ok (r', cut_last') →
  ∃ cut_off_token key2token fields',
    r' = as_record fields' ∧
    cut_fields cut_off_token key2token (stringify r) cut_last = Ok (fields', cut_last').
Proof.
  unfold shrink_pass. intros H.
  apply bind_Ok in H as (cut_off_token & _ & H).
  apply bind_Ok in H as ([fields' c] & E & H).
  injection H as <- <-. eauto.
Qed.

Lemma shrink_pass_words (overflow_token : Z) (cut_last cut_last' : bool) (r r' : record) :
  shrink_pass overflow_token cut_last r = Ok (r', cut_last') →
  (total_words r' ≤ total_words r)%nat ∧
  (r ≠ [] → cut_last' = true → (total_words r' < total_words r)%nat) ∧
  (r ≠ [] → r' ≠ []).
Proof.
  intros (co & k2t & fields' & -> & H)%shrink_pass_inv.
  pose proof (cut_fields_steps _ _ _ _ _ _ H) as Hsteps.
  apply cut_fields_words in H as (Hle & Hlt & _).
  unfold total_words. rewrite stringify_as_record.
  fold (field_words fields'). fold (field_words (stringify r)).
  split; [done |]. split.
  - intros Hr. apply Hlt. unfold stringify. by destruct r.
  - intros Hr Hnil. apply Forall2_length in Hsteps.
    unfold stringify in Hsteps. rewrite length_fmap in Hsteps.
    destruct r; [done |]. by destruct fields'.
Qed.

End pass.

(** ** The loop over the passes *)

Section loop.
Context {utils : Utils}.

Lemma mapM_not_diverge {A B : Type} (f : A → result B) (l : list A) :
  (∀ a, f a ≠ Diverge) → mapM f l ≠ Diverge.
Proof.
  intros Hf. induction l as [|a l IH]; [done |]. simpl.
  apply bind_not_diverge; [done |]. intros b.
  apply bind_not_diverge; [done |]. done.
Qed.

Lemma dict_get_not_diverge {V : Type} (k : string) (d : list (string * V)) :
  dict_get k d ≠ Diverge.
Proof. induction d as [|[k' v] d IH]; simpl; [done |]. by destruct (String.eqb k k'). Qed.

Lemma cut_field_not_diverge (cut_off key_token : Z) (v : string) :
  cut_field cut_off key_token v ≠ Diverge.
Proof.
  unfold cut_field. destruct (key_token =? 0); [done |].
  by repeat (match goal with |- context [if ?b then _ else _] => destruct b end).
Qed.

Lemma cut_fields_not_diverge (cut_off_token key2token : list (string * Z))
    (fields : list (string * string)) (cut_last : bool) :
  cut_fields cut_off_token key2token fields cut_last ≠ Diverge.
Proof.
  revert cut_last. induction fields as [|[k v] rest IH]; intros c; simpl; [done |].
  apply bind_not_diverge; [apply dict_get_not_diverge |]. intros co.
  apply bind_not_diverge; [apply dict_get_not_diverge |]. intros t.
  apply bind_not_diverge; [apply cut_field_not_diverge |]. intros [v' cut].
  apply bind_not_diverge; [apply IH |]. by intros [rest' c'].
Qed.

Lemma shrink_pass_not_diverge (overflow_token : Z) (cut_last : bool) (r : record) :
  shrink_pass overflow_token cut_last r ≠ Diverge.
Proof.
  unfold shrink_pass. apply bind_not_diverge.
  - apply mapM_not_diverge. intros kv. by destruct (_ =? 0).
  - intros co. apply bind_not_diverge; [apply cut_fields_not_diverge |].
    by intros [fields' c'].
Qed.

(** Every field has a word, so a record with a field has one. *)
Lemma total_words_pos (r : record) : r ≠ [] → (1 ≤ total_words r)%nat.
Proof.
  destruct r as [|[k v] r]; [done |]. intros _.
  unfold total_words, stringify. rewrite !fmap_cons. simpl.
  rewrite split_length. lia.
Qed.

(** Once [_cut_last] is false or the overflow is gone, no pass is made. *)
Lemma shrink_loop_stop (fuel : nat) (limit overflow_token : Z) (cut_last : bool) (r : record) :
  (0 <? overflow_token) && cut_last = false →
  shrink_loop fuel limit overflow_token cut_last r = (Exited r, O).
Proof. intros E. destruct fuel; simpl; by rewrite E. Qed.

(** With as much fuel as the record has words the loop ends by itself,
    after at most that many passes. *)
Lemma shrink_loop_fuel (fuel : nat) (limit overflow_token : Z) (cut_last : bool) (r : record) :
  r ≠ [] → (total_words r ≤ fuel)%nat →
  ∃ exit passes,
    shrink_loop fuel limit overflow_token cut_last r = (exit, passes) ∧
    exit ≠ OutOfFuel ∧ (passes ≤ total_words r)%nat.
Proof.
  revert overflow_token cut_last r.
  induction fuel as [|fuel IH]; intros o c r Hr Hfuel.
  { pose proof (total_words_pos r Hr). lia. }
  simpl. destruct ((0 <? o) && c) eqn:Hcond; [|exists (Exited r), O; split_and!; [done..|lia]].
  pose proof (total_words_pos r Hr) as Hpos.
  destruct (shrink_pass o c r) as [[r' c']| e |] eqn:Hpass.
  - apply shrink_pass_words in Hpass as (Hle & Hlt & Hne).
    destruct c'.
    + destruct (IH (num_tokens_from_string (Json.dumps_record r') - limit) true r')
        as (exit & passes & -> & Hexit & Hpasses); [by apply Hne | specialize (Hlt Hr eq_refl); lia |].
      exists exit, (S passes). split_and!; [done.. |]. specialize (Hlt Hr eq_refl). lia.
    + rewrite shrink_loop_stop by apply andb_false_r.
      exists (Exited r'), 1%nat. split_and!; [done.. | lia].
  - exists (Raised e), 1%nat. split_and!; [done.. | lia].
  - by apply shrink_pass_not_diverge in Hpass.
Qed.


(** A record without fields: the pass changes nothing, [_cut_last] keeps
    its initial value, and a positive overflow stays what it is. *)
Lemma shrink_loop_empty (fuel : nat) (limit : Z) :
  let overflow_token := num_tokens_from_string (Json.dumps_record []) - limit in
  0 < overflow_token →
  shrink_loop fuel limit overflow_token true [] = (OutOfFuel, fuel).
Proof.
  intros o Ho. induction fuel as [|fuel IH]; simpl.
  - replace (0 <? o) with true by (symmetry; by apply Z.ltb_lt). done.
  - replace (0 <? o) with true by (symmetry; by apply Z.ltb_lt). simpl.
    fold o. by rewrite IH.
Qed.

(** [shrink_record] reports [Diverge] only for the loop that cannot end:
    the one over a record without fields. *)
Lemma shrink_loop_out_of_fuel (limit : Z) (r : record) :
  shrink_record limit r = Diverge →
  r = [] ∧ ∀ fuel,
    shrink_loop fuel limit (num_tokens_from_string (Json.dumps_record r) - limit) true r
    = (OutOfFuel, fuel).
Proof.
  unfold shrink_record. intros H.
  destruct r as [|kv r].
  - split; [done |]. intros fuel. apply shrink_loop_empty.
    simpl in H. destruct (0 <? _) eqn:E; [by apply Z.ltb_lt in E | done].
  - destruct (shrink_loop_fuel (S (total_words (kv :: r))) limit
      (num_tokens_from_string (Json.dumps_record (kv :: r)) - limit) true (kv :: r))
      as (exit & passes & E & Hexit & _); [done | lia |].
    rewrite E in H. by destruct exit.
Qed.

End loop.

(** ** Claims about the per-record shrink *)

(** C7. In every pass of the per-record shrink loop each field keeps its
    name and either keeps its text, with nothing appended, or has more than
    5 words, loses [n >= 1] words from the end with at least 3 words kept,
    and gets the ellipsis appended to what is kept. *)
Theorem shrink_pass_cuts {utils : Utils} (overflow_token : Z) (cut_last cut_last' : bool)
    (r r' : record) :
  shrink_pass overflow_token cut_last r = Ok (r', cut_last') →
  Forall2 (λ kv kv' : string * value,
    kv'.1 = kv.1 ∧
    let words := Py.split (py_str kv.2) in
    kv'.2 = VStr (py_str kv.2) ∨
    ((5 < length words)%nat ∧
     ∃ n : nat, (1 ≤ n)%nat ∧ (3 ≤ length words - n)%nat ∧
       kv'.2 = VStr (Py.join (take (length words - n)%nat words) +:+ "..."))) r r'.
Proof.
  intros (co & k2t & fields' & -> & H)%shrink_pass_inv.
  apply cut_fields_steps in H. unfold stringify, as_record in *.
  apply Forall2_fmap_l in H. apply Forall2_fmap_r.
  eapply Forall2_impl; [exact H |].
  intros [k v] [k' v'] [Hk [cut Hstep]]. simpl in *. split; [done |].
  destruct Hstep as [[_ ->] | (_ & H5 & n & Hn & H3 & ->)]; [by left |].
  right. split; [done |]. exists n. done.
Qed.

Section shrink_demo.
#[local] Existing Instance Demo.utils.

Lemma shrink_pass_cuts_witness :
  Forall2 (λ kv kv' : string * value,
    kv'.1 = kv.1 ∧
    let words := Py.split (py_str kv.2) in
    kv'.2 = VStr (py_str kv.2) ∨
    ((5 < length words)%nat ∧
     ∃ n : nat, (1 ≤ n)%nat ∧ (3 ≤ length words - n)%nat ∧
       kv'.2 = VStr (Py.join (take (length words - n)%nat words) +:+ "...")))
    Demo.mug Demo.mug_after_pass.
Proof.
  apply (shrink_pass_cuts (utils := Demo.utils) 31 true false Demo.mug Demo.mug_after_pass).
  vm_compute. reflexivity.
Defined.

End shrink_demo.


Section loop_demo.
#[local] Existing Instance Demo.utils.
#[local] Existing Instance Demo.pylib.



(** C5. The loop at the record [mug] with an allowance of 59 tokens: the
    first pass cuts [description] from 12 to 7 words and leaves [id], the
    last field, as it is; the overflow is still 7, and one more pass would
    cut [description] again, yet the loop has ended after this one pass.
    With the same two fields in the other order it makes 3 passes.  [run]
    meets this allowance with a budget of 177 tokens and two such
    records. *)
Theorem shrink_loop_stops_after_cut :
  let limit := 59 in
  let overflow r := num_tokens_from_string (Json.dumps_record r) - limit in
  shrink_pass (overflow Demo.mug) true Demo.mug = Ok (Demo.mug_after_pass, false) ∧
  (total_words Demo.mug_after_pass < total_words Demo.mug)%nat ∧
  overflow Demo.mug_after_pass = 7 ∧
  (∃ r2, shrink_pass (overflow Demo.mug_after_pass) true Demo.mug_after_pass = Ok (r2, false) ∧
         (total_words r2 < total_words Demo.mug_after_pass)%nat) ∧
  (∀ fuel, shrink_loop (S fuel) limit (overflow Demo.mug) true Demo.mug
           = (Exited Demo.mug_after_pass, 1%nat)) ∧
  (shrink_loop (S (total_words Demo.mug_id_first)) limit (overflow Demo.mug_id_first) true
     Demo.mug_id_first).2 = 3%nat ∧
  (∀ fuel, ∃ w',
     QueryTool.run (Demo.tool (Ok [Demo.mug; Demo.mug]) 177) fuel Demo.scenario_sql
       (Demo.world Demo.zeros)
     = Ok (Json.dumps [Demo.mug_after_pass; Demo.mug_after_pass], w')).
Proof.
  intros limit overflow.
  assert (shrink_pass (overflow Demo.mug) true Demo.mug = Ok (Demo.mug_after_pass, false))
    as Hpass by (vm_compute; reflexivity).
  split_and!.
  - exact Hpass.
  - vm_compute. lia.
  - vm_compute. reflexivity.
  - eexists. split; [vm_compute; reflexivity | vm_compute; lia].
  - intros fuel. cbn [shrink_loop].
    replace ((0 <? overflow Demo.mug) && true) with true by (vm_compute; reflexivity).
    rewrite Hpass. by rewrite shrink_loop_stop by apply andb_false_r.
  - vm_compute. reflexivity.
  - intros fuel. eexists. vm_compute. reflexivity.
Qed.

End loop_demo.

(** ** The record cap and the sample *)

Section sampling.
Context {A : Type}.
Implicit Types (pool chosen population : list A) (g : rng).

Lemma advance_at (d : nat) g (i : nat) : advance d g i = g (d + i)%nat.
Proof. revert g. induction d as [|d IH]; intros g; [done |]. simpl. by rewrite IH. Qed.

Lemma advance_add (d e : nat) g : advance e (advance d g) = advance (d + e) g.
Proof. revert g. induction d as [|d IH]; intros g; [done |]. simpl. apply IH. Qed.

Lemma begins_with_tail (j : nat) (js : list nat) g :
  begins_with (j :: js) g → g O = j ∧ begins_with js (λ i, g (S i)).
Proof.
  intros H. split; [by apply (H O) |]. intros i j' Hi. by apply (H (S i)).
Qed.

(** One step of the selection: the chosen entry leaves the live part of the
    pool and the last live entry takes its place. *)
Lemma pool_step pool (live j : nat) (x y : A) :
  (j < live)%nat → pool !! j = Some x → pool !! (live - 1)%nat = Some y →
  x :: take (live - 1) (<[j := y]> pool) ≡ₚ take live pool.
Proof.
  intros Hj Hx Hy.
  replace live with (S (live - 1)) at 2 by lia.
  rewrite (take_S_r _ _ _ Hy).
  destruct (decide (j = live - 1)%nat) as [-> | Hne].
  - rewrite take_insert_ge by lia. rewrite Hx in Hy. injection Hy as ->.
    apply Permutation_cons_append.
  - rewrite take_insert_lt by lia.
    assert (take (live - 1) pool !! j = Some x) as Ht
      by (rewrite lookup_take_lt by lia; done).
    rewrite <- (take_drop_middle _ _ _ Ht) at 2.
    rewrite insert_take_drop by (apply lookup_lt_Some in Ht; done).
    generalize (take j (take (live - 1) pool)) (drop (S j) (take (live - 1) pool)).
    intros a b. rewrite <- (app_assoc a). simpl. rewrite <- !Permutation_middle.
    by rewrite app_nil_r.
Qed.

(** [k] draws from a pool with [live] entries give [k] entries taken at
    different places of the live part. *)
Lemma sample_loop_spec (k live : nat) pool g :
  (k ≤ live)%nat → (live ≤ length pool)%nat →
  ∃ chosen, sample_loop k live pool g = Ok (chosen, advance k g) ∧
    length chosen = k ∧ ∃ rest, chosen ++ rest ≡ₚ take live pool.
Proof.
  revert live pool g. induction k as [|k IH]; intros live pool g Hk Hlive.
  { exists []. split_and!; [done.. |]. by exists (take live pool). }
  simpl.
  assert (g O mod live < live)%nat as Hj by (apply Nat.mod_upper_bound; lia).
  destruct (lookup_lt_is_Some_2 pool (g O mod live)%nat ltac:(lia)) as [x Hx].
  destruct (lookup_lt_is_Some_2 pool (live - 1)%nat ltac:(lia)) as [y Hy].
  rewrite Hx, Hy.
  destruct (IH (live - 1)%nat (<[(g O mod live)%nat := y]> pool) (λ i, g (S i)))
    as (chosen & -> & Hlen & rest & Hperm);
    [lia | rewrite length_insert; lia |].
  exists (x :: chosen). split_and!; [done | simpl; lia |].
  exists rest. simpl. rewrite Hperm. by apply pool_step.
Qed.

(** The sample of the pool is decided by the next [k] draws. *)
Lemma sample_loop_draws (k live : nat) pool g1 g2 chosen g1' :
  (∀ i, (i < k)%nat → g1 i = g2 i) →
  sample_loop k live pool g1 = Ok (chosen, g1') →
  g1' = advance k g1 ∧ sample_loop k live pool g2 = Ok (chosen, advance k g2).
Proof.
  revert live pool g1 g2 chosen g1'.
  induction k as [|k IH]; intros live pool g1 g2 chosen g1' Hg H; simpl in *.
  { by injection H as <- <-. }
  rewrite <- (Hg O) by lia.
  destruct (pool !! (g1 O mod live)%nat) as [x|]; [|done].
  destruct (pool !! (live - 1)%nat) as [y|]; [|done].
  apply bind_Ok in H as ([chosen' g'] & Hrec & H). injection H as <- <-.
  destruct (IH _ _ _ (λ i, g2 (S i)) _ _ ltac:(intros i Hi; apply Hg; lia) Hrec)
    as (-> & ->).
  done.
Qed.

(** On a pool without repetition the sample decides the draws: two tapes
    that give the same sample gave the same choice at every step. *)
Lemma sample_loop_injective (k live : nat) pool g1 g2 chosen g1' g2' :
  NoDup (take live pool) → (k ≤ live)%nat → (live ≤ length pool)%nat →
  sample_loop k live pool g1 = Ok (chosen, g1') →
  sample_loop k live pool g2 = Ok (chosen, g2') →
  ∀ i, (i < k)%nat → (g1 i mod (live - i) = g2 i mod (live - i))%nat.
Proof.
  revert live pool g1 g2 chosen g1' g2'.
  induction k as [|k IH]; intros live pool g1 g2 chosen g1' g2' Hnd Hk Hlive H1 H2 i Hi;
    [lia |].
  simpl in H1, H2.
  assert (g1 O mod live < live)%nat as Hj1 by (apply Nat.mod_upper_bound; lia).
  assert (g2 O mod live < live)%nat as Hj2 by (apply Nat.mod_upper_bound; lia).
  destruct (pool !! (g1 O mod live)%nat) as [x1|] eqn:Hx1; [|done].
  destruct (pool !! (g2 O mod live)%nat) as [x2|] eqn:Hx2; [|done].
  destruct (pool !! (live - 1)%nat) as [y|] eqn:Hy; [|done].
  apply bind_Ok in H1 as ([c1 h1] & Hrec1 & H1). injection H1 as <- <-.
  apply bind_Ok in H2 as ([c2 h2] & Hrec2 & H2). injection H2 as -> -> <-.
  assert (g1 O mod live = g2 O mod live)%nat as Hj.
  { eapply (NoDup_lookup _ _ _ x1 Hnd); by rewrite lookup_take_lt. }
  destruct i as [|i]; [by rewrite Nat.sub_0_r |].
  rewrite <- Hj in Hrec2.
  replace (live - S i)%nat with (live - 1 - i)%nat by lia.
  refine (IH (live - 1)%nat _ (λ i, g1 (S i)) (λ i, g2 (S i)) _ _ _ _ _ _ Hrec1 Hrec2 i _);
    [| lia | rewrite length_insert; lia | lia].
  pose proof (pool_step pool live _ x1 y Hj1 Hx1 Hy) as Hperm.
  rewrite <- Hperm in Hnd. by apply NoDup_cons in Hnd as [_ Hnd].
Qed.

(** Every ordered selection of [k] different entries of the live part of
    a pool without repetition is the sample of some sequence of choices. *)
Lemma sample_loop_reach (k live : nat) pool (target : list A) :
  NoDup (take live pool) → (live ≤ length pool)%nat →
  length target = k → NoDup target → target ⊆ take live pool →
  ∃ js, length js = k ∧ (∀ i j, js !! i = Some j → (j < live - i)%nat) ∧
    ∀ g, begins_with js g → sample_loop k live pool g = Ok (target, advance k g).
Proof.
  revert live pool target.
  induction k as [|k IH]; intros live pool target Hnd Hlive Hlen Htarget Hsub.
  { destruct target; [|done]. exists []. split_and!; [done | by intros i j ?|done]. }
  destruct target as [|t ts]; [done |]. injection Hlen as Hlen.
  apply NoDup_cons in Htarget as [Ht Hts].
  assert (t ∈ take live pool) as Hin by (apply Hsub; left).
  apply list_elem_of_lookup in Hin as [j Hj].
  pose proof (lookup_lt_Some _ _ _ Hj) as Hjlt. rewrite length_take in Hjlt.
  assert (pool !! j = Some t) as Hx by (rewrite lookup_take_lt in Hj by lia; done).
  destruct (lookup_lt_is_Some_2 pool (live - 1)%nat ltac:(lia)) as [y Hy].
  pose proof (pool_step pool live j t y ltac:(lia) Hx Hy) as Hperm.
  rewrite <- Hperm in Hnd. apply NoDup_cons in Hnd as [Htnot Hnd'].
  destruct (IH (live - 1)%nat (<[j := y]> pool) ts Hnd') as (js & Hjs & Hch & Hrun);
    [rewrite length_insert; lia | done | done | |].
  { intros x Hx'. assert (x ∈ take live pool) as Hx'' by (apply Hsub; by right).
    rewrite <- Hperm in Hx''. apply elem_of_cons in Hx'' as [-> | ?]; [done | done]. }
  exists (j :: js). split_and!; [simpl; lia | |].
  - intros [|i] j'; simpl.
    + intros [= <-]. lia.
    + intros Hi. specialize (Hch i j' Hi). lia.
  - intros g [Hg0 Hg]%begins_with_tail. simpl. rewrite Hg0.
    rewrite Nat.mod_small by lia. rewrite Hx, Hy.
    by rewrite (Hrun _ Hg).
Qed.

Lemma sample_loop_fmap {B : Type} (f : A → B) (k live : nat) pool g :
  sample_loop (A := B) k live (f <$> pool) g
  = rbind (sample_loop k live pool g) (λ r, Ok (f <$> r.1, r.2)).
Proof.
  revert live pool g. induction k as [|k IH]; intros live pool g; [done |].
  simpl. rewrite !list_lookup_fmap.
  destruct (pool !! (g O mod live)%nat) as [x|]; [|done].
  destruct (pool !! (live - 1)%nat) as [y|]; [|done]. simpl.
  rewrite <- list_fmap_insert, IH.
  by destruct (sample_loop k _ _ _) as [[c g']| |].
Qed.

(** *** The redraw loop *)

Lemma reselect_inv (fuel n : nat) (selected : list nat) (j : nat) g (j' : nat) g' :
  reselect fuel n selected j g = Ok (j', g') →
  (j' ∉ selected) ∧ ((j < n)%nat → (j' < n)%nat) ∧
  ∃ d, g' = advance d g ∧
    ∀ g2, (∀ i, (i < d)%nat → g i = g2 i) →
      reselect fuel n selected j g2 = Ok (j', advance d g2).
Proof.
  revert j g. induction fuel as [|fuel IH]; intros j g; simpl.
  - destruct (bool_decide (j ∈ selected)) eqn:E; [done |].
    apply bool_decide_eq_false in E. intros [= <- <-].
    split_and!; [done.. |]. exists O. split; [done |]. by intros g2 _.
  - destruct (bool_decide (j ∈ selected)) eqn:E.
    + intros H. destruct (IH _ _ H) as (Hnot & Hlt & d & -> & Hdet).
      split_and!; [done | |].
      * intros Hj. apply Hlt. apply Nat.mod_upper_bound. lia.
      * exists (S d). split; [done |]. intros g2 Hg. rewrite <- (Hg O) by lia.
        simpl. apply Hdet. intros i Hi. apply Hg. lia.
    + apply bool_decide_eq_false in E. intros [= <- <-].
      split_and!; [done.. |]. exists O. split; [done |]. by intros g2 _.
Qed.

Lemma reselect_not_raise (fuel n : nat) (selected : list nat) (j : nat) g (e : exn) :
  reselect fuel n selected j g ≠ Raise e.
Proof.
  revert j g. induction fuel as [|fuel IH]; intros j g; simpl;
    by destruct (bool_decide (j ∈ selected)).
Qed.

Lemma reselect_fair (fuel n : nat) (selected : list nat) (j : nat) g :
  (j ∉ selected) ∨ (∃ i, (i < fuel)%nat ∧ (g i mod n)%nat ∉ selected) →
  ∃ j' g', reselect fuel n selected j g = Ok (j', g').
Proof.
  revert j g. induction fuel as [|fuel IH]; intros j g H; simpl.
  - destruct H as [H | (i & Hi & _)]; [|lia].
    rewrite bool_decide_eq_false_2 by done. eauto.
  - destruct (bool_decide (j ∈ selected)) eqn:E; [|eauto].
    apply bool_decide_eq_true in E. destruct H as [H | (i & Hi & Hfresh)]; [done |].
    apply IH. destruct i as [|i]; [by left |]. right. exists i. split; [lia | done].
Qed.

Lemma renamed_elem (π : nat → nat) (n j : nat) (selected : list nat) :
  (∀ a b, (a < n)%nat → (b < n)%nat → π a = π b → a = b) →
  Forall (λ p, (p < n)%nat) selected → (j < n)%nat →
  π j ∈ π <$> selected ↔ j ∈ selected.
Proof.
  intros Hinj Hsel Hj. split.
  - intros (p & Heq & Hp)%list_elem_of_fmap.
    assert (p < n)%nat as Hpn by (by apply (proj1 (Forall_forall _ _) Hsel)).
    by rewrite (Hinj j p Hj Hpn Heq).
  - intros Hin. apply list_elem_of_fmap. eauto.
Qed.

Lemma reselect_renamed (π : nat → nat) (fuel n : nat) (selected : list nat) (j : nat) g
    (j' : nat) g' :
  (∀ a b, (a < n)%nat → (b < n)%nat → π a = π b → a = b) →
  (∀ a, (a < n)%nat → (π a < n)%nat) →
  Forall (λ p, (p < n)%nat) selected → (j < n)%nat →
  reselect fuel n selected j g = Ok (j', g') →
  reselect fuel n (π <$> selected) (π j) (renamed π n g) = Ok (π j', renamed π n g').
Proof.
  intros Hinj Hran Hsel. revert j g.
  induction fuel as [|fuel IH]; intros j g Hj; simpl.
  - destruct (bool_decide (j ∈ selected)) eqn:E; [done |].
    apply bool_decide_eq_false in E. intros [= <- <-].
    rewrite bool_decide_eq_false_2; [done |]. by rewrite renamed_elem.
  - destruct (bool_decide (j ∈ selected)) eqn:E.
    + apply bool_decide_eq_true in E. intros H.
      rewrite bool_decide_eq_true_2 by (by rewrite renamed_elem).
      assert (g O mod n < n)%nat as Hlt by (apply Nat.mod_upper_bound; lia).
      unfold renamed at 1. rewrite (Nat.mod_small (π _)) by (by apply Hran).
      exact (IH _ (λ i, g (S i)) Hlt H).
    + apply bool_decide_eq_false in E. intros [= <- <-].
      rewrite bool_decide_eq_false_2; [done |]. by rewrite renamed_elem.
Qed.

(** *** The selection with a set *)

Lemma sample_set_fmap {B : Type} (f : A → B) (fuel k : nat) population
    (selected : list nat) g :
  sample_set (A := B) fuel k (f <$> population) selected g
  = rbind (sample_set fuel k population selected g) (λ r, Ok (f <$> r.1, r.2)).
Proof.
  revert selected g. induction k as [|k IH]; intros selected g; [done |].
  simpl. rewrite length_fmap.
  destruct (reselect fuel _ selected _ _) as [[j g2]| |]; [|done..]. simpl.
  rewrite list_lookup_fmap. destruct (population !! j) as [x|]; [|done]. simpl.
  rewrite IH. by destruct (sample_set fuel k _ _ _) as [[c g']| |].
Qed.

Lemma sample_set_sub (fuel k : nat) population (selected : list nat) g chosen g' :
  sample_set fuel k population selected g = Ok (chosen, g') →
  length chosen = k ∧ chosen ⊆ population.
Proof.
  revert selected g chosen g'.
  induction k as [|k IH]; intros selected g chosen g'; simpl.
  { intros [= <- <-]. split; [done |]. by intros x ?%elem_of_nil. }
  intros ([j g2] & Hsel & H)%bind_Ok.
  destruct (population !! j) as [x|] eqn:Hx; [|done].
  apply bind_Ok in H as ([c g3] & Hrec & H). injection H as <- <-.
  destruct (IH _ _ _ _ Hrec) as [Hlen Hsub]. split; [simpl; lia |].
  intros y [-> | Hy]%elem_of_cons; [by eapply list_elem_of_lookup_2 | by apply Hsub].
Qed.

Lemma sample_set_draws (fuel k : nat) population (selected : list nat) g chosen g' :
  sample_set fuel k population selected g = Ok (chosen, g') →
  ∃ d, g' = advance d g ∧
    ∀ g2, (∀ i, (i < d)%nat → g i = g2 i) →
      sample_set fuel k population selected g2 = Ok (chosen, advance d g2).
Proof.
  revert selected g chosen g'.
  induction k as [|k IH]; intros selected g chosen g'; simpl.
  { intros [= <- <-]. exists O. split; [done |]. by intros g2 _. }
  intros ([j g2] & Hsel & H)%bind_Ok.
  destruct (population !! j) as [x|] eqn:Hx; [|done].
  apply bind_Ok in H as ([c g3] & Hrec & H). injection H as <- <-.
  apply reselect_inv in Hsel as (_ & _ & d1 & -> & Hdet1).
  destruct (IH _ _ _ _ Hrec) as (d2 & -> & Hdet2).
  exists (S (d1 + d2)). split; [simpl; by rewrite advance_add |].
  intros h Hh. rewrite <- (Hh O) by lia.
  rewrite (Hdet1 (λ i, h (S i))) by (intros i Hi; apply Hh; lia).
  simpl. rewrite Hx.
  rewrite (Hdet2 (advance d1 (λ i, h (S i)))).
  - simpl. by rewrite advance_add.
  - intros i Hi. rewrite !advance_at. apply Hh. lia.
Qed.

End sampling.

(** *** The selection of positions *)

Section positions.
Implicit Types (ps selected : list nat) (g : rng).

Lemma sample_set_positions (fuel k n : nat) selected g ps g' :
  sample_set fuel k (seq 0 n) selected g = Ok (ps, g') →
  length ps = k ∧ NoDup ps ∧ Forall (λ p, (p < n)%nat ∧ p ∉ selected) ps.
Proof.
  revert selected g ps g'.
  induction k as [|k IH]; intros selected g ps g'; simpl.
  { intros [= <- <-]. split_and!; [done | constructor | constructor]. }
  intros ([j g2] & Hsel & H)%bind_Ok.
  destruct (seq 0 n !! j) as [x|] eqn:Hx; [|done].
  apply lookup_seq in Hx as [-> Hj]. simpl in Hj.
  apply bind_Ok in H as ([c g3] & Hrec & H). injection H as <- <-.
  apply reselect_inv in Hsel as (Hfresh & _).
  destruct (IH _ _ _ _ Hrec) as (Hlen & Hnd & Hall).
  split_and!; [simpl; lia | |].
  - apply NoDup_cons. split; [|done]. intros Hin.
    apply (proj1 (Forall_forall _ _) Hall) in Hin as [_ Hin]. apply Hin. left.
  - constructor; [done |]. eapply Forall_impl; [exact Hall |].
    intros p [Hp Hnot]. split; [done |]. intros Hin. apply Hnot. by right.
Qed.

Lemma sample_set_not_raise (fuel k n : nat) selected g (e : exn) :
  (0 < n)%nat → sample_set fuel k (seq 0 n) selected g ≠ Raise e.
Proof.
  intros Hn. revert selected g. induction k as [|k IH]; intros selected g; [done |].
  simpl. rewrite length_seq.
  assert (g O mod n < n)%nat as Hj by (apply Nat.mod_upper_bound; lia).
  destruct (reselect fuel n selected _ _) as [[j g2]| e' |] eqn:Hsel; [| |done].
  - apply reselect_inv in Hsel as (_ & Hlt & _). simpl.
    rewrite lookup_seq_lt by auto. simpl.
    specialize (IH (j :: selected) g2).
    by destruct (sample_set fuel k _ _ _) as [[c g3]| |].
  - by apply reselect_not_raise in Hsel.
Qed.

Lemma redraws_suffice_advance (fuel n k d : nat) g :
  redraws_suffice fuel n k g → redraws_suffice fuel n k (advance d g).
Proof.
  intros H pos selected Hlen. destruct (H (d + pos)%nat selected Hlen) as (i & Hi & Hfresh).
  exists i. split; [done |]. by rewrite advance_at, Nat.add_assoc.
Qed.

Lemma sample_set_fair (fuel k n bound : nat) selected g :
  (0 < n)%nat → (length selected + k ≤ bound)%nat → redraws_suffice fuel n bound g →
  ∃ ps g', sample_set fuel k (seq 0 n) selected g = Ok (ps, g').
Proof.
  intros Hn. revert selected g. induction k as [|k IH]; intros selected g Hlen Hfair.
  { by exists [], g. }
  simpl. rewrite length_seq.
  assert (g O mod n < n)%nat as Hj by (apply Nat.mod_upper_bound; lia).
  destruct (reselect_fair fuel n selected (g O mod n)%nat (λ i, g (S i))) as (j & g2 & Hsel).
  { destruct (Hfair O selected ltac:(lia)) as (i & Hi & Hfresh).
    destruct i as [|i]; [by left |]. right. exists i. split; [lia | done]. }
  rewrite Hsel. simpl.
  apply reselect_inv in Hsel as (_ & Hlt & d & -> & _).
  rewrite lookup_seq_lt by auto. simpl.
  destruct (IH (j :: selected) (advance d (λ i, g (S i)))) as (ps & g' & ->).
  - simpl. lia.
  - by apply (redraws_suffice_advance fuel n bound (S d) g).
  - by exists (j :: ps), g'.
Qed.

(** A generator whose next draws are different positions: each is taken
    at once. *)
Lemma sample_set_reach (fuel n : nat) ps selected g :
  NoDup ps → Forall (λ p, (p < n)%nat ∧ p ∉ selected) ps → begins_with ps g →
  sample_set fuel (length ps) (seq 0 n) selected g = Ok (ps, advance (length ps) g).
Proof.
  revert selected g. induction ps as [|p ps IH]; intros selected g Hnd Hall Hg; [done |].
  apply NoDup_cons in Hnd as [Hp Hnd]. apply Forall_cons in Hall as [[Hpn Hfresh] Hall].
  apply begins_with_tail in Hg as [Hg0 Hg].
  simpl. rewrite length_seq, Hg0, Nat.mod_small by done.
  assert (reselect fuel n selected p (λ i, g (S i)) = Ok (p, λ i, g (S i))) as ->.
  { destruct fuel; simpl; by rewrite bool_decide_eq_false_2. }
  simpl. rewrite lookup_seq_lt by done. simpl.
  rewrite IH; [done | done | | done].
  apply Forall_forall. intros q Hq.
  destruct (proj1 (Forall_forall _ _) Hall q Hq) as [Hqn Hqs].
  split; [done |]. intros [-> | Hin]%elem_of_cons; [done | done].
Qed.

(** Renaming the positions renames the sample. *)
Lemma sample_set_renamed (π : nat → nat) (fuel k n : nat) selected g ps g' :
  (∀ a b, (a < n)%nat → (b < n)%nat → π a = π b → a = b) →
  (∀ a, (a < n)%nat → (π a < n)%nat) →
  (0 < n)%nat → Forall (λ p, (p < n)%nat) selected →
  sample_set fuel k (seq 0 n) selected g = Ok (ps, g') →
  sample_set fuel k (seq 0 n) (π <$> selected) (renamed π n g)
  = Ok (π <$> ps, renamed π n g').
Proof.
  intros Hinj Hran Hn. revert selected g ps g'.
  induction k as [|k IH]; intros selected g ps g' Hsel; simpl.
  { by intros [= <- <-]. }
  rewrite length_seq.
  assert (g O mod n < n)%nat as Hj by (apply Nat.mod_upper_bound; lia).
  intros ([j g2] & Hre & H)%bind_Ok.
  destruct (seq 0 n !! j) as [x|] eqn:Hx; [|done].
  apply lookup_seq in Hx as [-> Hjn]. simpl in Hjn.
  apply bind_Ok in H as ([c g3] & Hrec & H). injection H as <- <-.
  change (λ i, renamed π n g (S i)) with (renamed π n (λ i, g (S i))).
  unfold renamed at 1. rewrite (Nat.mod_small (π _)) by (by apply Hran).
  rewrite (reselect_renamed π fuel n selected _ (λ i, g (S i)) j g2 Hinj Hran Hsel Hj Hre).
  simpl. rewrite lookup_seq_lt by (by apply Hran). simpl.
  pose proof (IH (j :: selected) g2 c g3 ltac:(by constructor) Hrec) as Hrec'.
  rewrite fmap_cons in Hrec'. by rewrite Hrec'.
Qed.

End positions.

(** *** [random.sample] *)

Section sample_whole.
Context {pylib : PyLib}.
Implicit Types (g : rng).

Lemma setsize_pos (k : Z) : 21 ≤ setsize k.
Proof.
  unfold setsize. destruct (5 <? k); [|lia].
  pose proof (Z.pow_nonneg 4 (ceil_log4 (k * 3)) ltac:(lia)). lia.
Qed.

Lemma random_sample_fmap {A B : Type} (f : A → B) (fuel : nat) (population : list A)
    (k : Z) g :
  random_sample (A := B) fuel (f <$> population) k g
  = rbind (random_sample fuel population k g) (λ r, Ok (f <$> r.1, r.2)).
Proof.
  unfold random_sample. rewrite length_fmap. destruct (_ || _); [done |].
  destruct (_ <=? _); [apply sample_loop_fmap | apply sample_set_fmap].
Qed.

Lemma lookup_total_seq {A : Type} `{!Inhabited A} (l : list A) :
  (λ p, l !!! p) <$> seq 0 (length l) = l.
Proof.
  apply list_eq. intros i. rewrite list_lookup_fmap.
  destruct (decide (i < length l)%nat) as [Hi | Hi].
  - rewrite lookup_seq_lt by done. simpl. symmetry. by apply list_lookup_lookup_total_lt.
  - rewrite lookup_seq_ge by lia. simpl. symmetry. apply lookup_ge_None. lia.
Qed.

(** What [random.sample] returns is [k] entries of the population. *)
Lemma random_sample_inv {A : Type} (fuel : nat) (population : list A) (k : Z) g
    (chosen : list A) g' :
  random_sample fuel population k g = Ok (chosen, g') →
  0 ≤ k ≤ Z.of_nat (length population) ∧ Z.of_nat (length chosen) = k ∧ chosen ⊆ population.
Proof.
  unfold random_sample. destruct (_ || _) eqn:Hk; [done |].
  apply orb_false_iff in Hk as [Hk1%Z.ltb_ge Hk2%Z.ltb_ge].
  destruct (_ <=? _).
  - destruct (sample_loop_spec (Z.to_nat k) (length population) population g)
      as (c & -> & Hlen & rest & Hperm); [lia | lia |].
    intros [= <- <-]. split_and!; [lia | lia | lia |].
    intros x Hx. rewrite firstn_all in Hperm. rewrite <- Hperm. apply elem_of_app. by left.
  - intros [Hlen Hsub]%sample_set_sub. split_and!; [lia | lia | lia | done].
Qed.

(** A sample is decided by the draws that are read for it. *)
Lemma random_sample_draws {A : Type} (fuel : nat) (population : list A) (k : Z) g
    (chosen : list A) g' :
  random_sample fuel population k g = Ok (chosen, g') →
  ∃ d, g' = advance d g ∧
    ∀ g2, (∀ i, (i < d)%nat → g i = g2 i) →
      random_sample fuel population k g2 = Ok (chosen, advance d g2).
Proof.
  unfold random_sample. destruct (_ || _); [done |].
  destruct (_ <=? _).
  - intros H. exists (Z.to_nat k).
    split; [by destruct (sample_loop_draws _ _ _ g g _ _ ltac:(done) H) |].
    intros g2 Hg. by destruct (sample_loop_draws _ _ _ g g2 _ _ Hg H).
  - apply sample_set_draws.
Qed.

Lemma sample_positions_arrangement (fuel n : nat) (k : Z) g (ps : list nat) g' :
  sample_positions fuel n k g = Ok (ps, g') → arrangement n (Z.to_nat k) ps.
Proof.
  unfold sample_positions, random_sample. rewrite length_seq.
  destruct (_ || _) eqn:Hk; [done |].
  apply orb_false_iff in Hk as [Hk1%Z.ltb_ge Hk2%Z.ltb_ge].
  destruct (_ <=? _).
  - destruct (sample_loop_spec (Z.to_nat k) n (seq 0 n) g)
      as (c & -> & Hlen & rest & Hperm); [lia | by rewrite length_seq |].
    intros [= <- <-]. rewrite take_ge in Hperm by (by rewrite length_seq).
    pose proof (NoDup_seq 0 n) as Hnd. rewrite <- Hperm in Hnd.
    apply NoDup_app in Hnd as (Hnd & _ & _). split_and!; [done | done |].
    apply Forall_forall. intros p Hp.
    assert (p ∈ seq 0 n) as Hin by (rewrite <- Hperm; apply elem_of_app; by left).
    apply elem_of_seq in Hin. lia.
  - intros (Hlen & Hnd & Hall)%sample_set_positions. split_and!; [done | done |].
    eapply Forall_impl; [exact Hall |]. by intros p [? _].
Qed.

Lemma sample_positions_not_raise (fuel n : nat) (k : Z) g (e : exn) :
  0 ≤ k ≤ Z.of_nat n → sample_positions fuel n k g ≠ Raise e.
Proof.
  intros Hk. unfold sample_positions, random_sample. rewrite length_seq.
  replace ((k <? 0) || (Z.of_nat n <? k)) with false
    by (symmetry; apply orb_false_iff; split; apply Z.ltb_ge; lia).
  destruct (_ <=? _) eqn:Hpool.
  - by destruct (sample_loop_spec (Z.to_nat k) n (seq 0 n) g)
      as (c & -> & _); [lia | by rewrite length_seq |].
  - apply Z.leb_gt in Hpool. pose proof (setsize_pos k).
    apply sample_set_not_raise. lia.
Qed.

Lemma sample_positions_returns (fuel n : nat) (k : Z) g :
  0 ≤ k ≤ Z.of_nat n →
  Z.of_nat n ≤ setsize k ∨ redraws_suffice fuel n (Z.to_nat k) g →
  ∃ ps g', sample_positions fuel n k g = Ok (ps, g').
Proof.
  intros Hk Hor. unfold sample_positions, random_sample. rewrite length_seq.
  replace ((k <? 0) || (Z.of_nat n <? k)) with false
    by (symmetry; apply orb_false_iff; split; apply Z.ltb_ge; lia).
  destruct (_ <=? _) eqn:Hpool.
  - destruct (sample_loop_spec (Z.to_nat k) n (seq 0 n) g)
      as (c & -> & _); [lia | by rewrite length_seq | eauto].
  - apply Z.leb_gt in Hpool. destruct Hor as [? | Hfair]; [lia |].
    pose proof (setsize_pos k).
    apply (sample_set_fair fuel (Z.to_nat k) n (Z.to_nat k)); [lia | simpl; lia | done].
Qed.

(** The tape that delivers the draws [js] and zeros after them. *)
Lemma begins_with_default (js : list nat) : begins_with js (λ i, default O (js !! i)).
Proof. intros i j Hi. by rewrite Hi. Qed.

Lemma sample_positions_pool_uniform (fuel n : nat) (k : Z) (ps : list nat) :
  0 ≤ k ≤ Z.of_nat n → Z.of_nat n ≤ setsize k → arrangement n (Z.to_nat k) ps →
  ∃ js, length js = Z.to_nat k ∧ choices n js ∧
    (∀ g, begins_with js g →
       sample_positions fuel n k g = Ok (ps, advance (Z.to_nat k) g)) ∧
    (∀ js' g g', length js' = Z.to_nat k → choices n js' → begins_with js' g →
       sample_positions fuel n k g = Ok (ps, g') → js' = js).
Proof.
  intros Hk Hpool (Hlen & Hnd & Hall).
  assert (∀ g, sample_positions fuel n k g = sample_loop (Z.to_nat k) n (seq 0 n) g) as Heq.
  { intros g. unfold sample_positions, random_sample. rewrite length_seq.
    replace ((k <? 0) || (Z.of_nat n <? k)) with false
      by (symmetry; apply orb_false_iff; split; apply Z.ltb_ge; lia).
    by rewrite (proj2 (Z.leb_le _ _) Hpool). }
  assert (take n (seq 0 n) = seq 0 n) as Htake
    by (apply take_ge; by rewrite length_seq).
  destruct (sample_loop_reach (Z.to_nat k) n (seq 0 n) ps) as (js & Hjs & Hch & Hrun).
  { rewrite Htake. apply NoDup_seq. }
  { by rewrite length_seq. }
  { done. }
  { done. }
  { rewrite Htake. intros p Hp. apply elem_of_seq.
    pose proof (proj1 (Forall_forall _ _) Hall p Hp) as Hpn. simpl in Hpn. lia. }
  exists js. split_and!; [done | done | |].
  - intros g Hg. rewrite Heq. by apply Hrun.
  - intros js' g g' Hjs' Hch' Hg H. rewrite Heq in H.
    pose proof (Hrun _ (begins_with_default js)) as H0.
    pose proof (sample_loop_injective (Z.to_nat k) n (seq 0 n) _ _ ps _ _
                  ltac:(rewrite Htake; apply NoDup_seq) ltac:(lia)
                  ltac:(by rewrite length_seq) H0 H) as Hsame.
    apply list_eq. intros i.
    destruct (decide (i < Z.to_nat k)%nat) as [Hi | Hi].
    + destruct (lookup_lt_is_Some_2 js i ltac:(lia)) as [a Ha].
      destruct (lookup_lt_is_Some_2 js' i ltac:(lia)) as [b Hb].
      specialize (Hsame i Hi). cbn beta in Hsame. rewrite Ha, (Hg i b Hb) in Hsame.
      simpl in Hsame.
      rewrite !Nat.mod_small in Hsame by (first [by apply Hch | by apply Hch']).
      by rewrite Ha, Hb, Hsame.
    + rewrite !lookup_ge_None_2 by lia. done.
Qed.

Lemma sample_positions_set_reach (fuel n : nat) (k : Z) (ps : list nat) g :
  0 ≤ k → setsize k < Z.of_nat n → arrangement n (Z.to_nat k) ps → begins_with ps g →
  sample_positions fuel n k g = Ok (ps, advance (Z.to_nat k) g).
Proof.
  intros Hk Hset (Hlen & Hnd & Hall) Hg.
  unfold sample_positions, random_sample. rewrite length_seq.
  assert (Z.of_nat (length ps) ≤ Z.of_nat n).
  { assert (ps ⊆+ seq 0 n) as Hsub; [|apply submseteq_length in Hsub;
      rewrite length_seq in Hsub; lia].
    apply NoDup_submseteq; [done |]. intros p Hp. apply elem_of_seq.
    pose proof (proj1 (Forall_forall _ _) Hall p Hp) as Hpn. simpl in Hpn. lia. }
  replace ((k <? 0) || (Z.of_nat n <? k)) with false
    by (symmetry; apply orb_false_iff; split; apply Z.ltb_ge; lia).
  rewrite (proj2 (Z.leb_gt _ _) Hset). rewrite <- Hlen.
  apply sample_set_reach; [done | | done].
  eapply Forall_impl; [exact Hall |]. intros p Hp. split; [done | by intros ?%elem_of_nil].
Qed.

Lemma sample_positions_set_renamed (π : nat → nat) (fuel n : nat) (k : Z) g
    (ps : list nat) g' :
  setsize k < Z.of_nat n →
  (∀ a b, (a < n)%nat → (b < n)%nat → π a = π b → a = b) →
  (∀ a, (a < n)%nat → (π a < n)%nat) →
  sample_positions fuel n k g = Ok (ps, g') →
  sample_positions fuel n k (renamed π n g) = Ok (π <$> ps, renamed π n g').
Proof.
  intros Hset Hinj Hran. unfold sample_positions, random_sample. rewrite length_seq.
  destruct (_ || _); [done |]. rewrite (proj2 (Z.leb_gt _ _) Hset).
  pose proof (setsize_pos k) as Hsize. intros Hs.
  by apply (sample_set_renamed π fuel (Z.to_nat k) n [] g ps g' Hinj Hran ltac:(lia)).
Qed.

(** The cap through the positions: the records at the sampled positions. *)
Lemma record_cap_positions (self : QueryTool.t) (fuel : nat) (res : list record) g :
  QueryTool._max_record_num self < Z.of_nat (length res) →
  QueryTool.record_cap self fuel res g
  = rbind (sample_positions fuel (length res) (QueryTool._max_record_num self) g)
      (λ r, Ok ((λ p, res !!! p) <$> r.1, true, r.2)).
Proof.
  intros Hlt. unfold QueryTool.record_cap.
  rewrite (proj2 (Z.ltb_lt _ _) Hlt).
  rewrite <- (lookup_total_seq res) at 1. rewrite random_sample_fmap.
  unfold sample_positions.
  by destruct (random_sample fuel (seq 0 (length res)) _ g) as [[c h]| |].
Qed.

(** What the cap returns: never more than [_max_record_num] records, all
    of them records of the result. *)
Lemma record_cap_inv (self : QueryTool.t) (fuel : nat) (res0 res : list record)
    (any_cut : bool) (g g' : rng) :
  QueryTool.record_cap self fuel res0 g = Ok (res, any_cut, g') →
  Z.of_nat (length res) ≤ QueryTool._max_record_num self ∧ res ⊆ res0.
Proof.
  unfold QueryTool.record_cap.
  destruct (QueryTool._max_record_num self <? Z.of_nat (length res0)) eqn:Hcmp.
  - intros ([chosen g1] & Hsample & [= <- <- <-])%bind_Ok.
    apply random_sample_inv in Hsample as (_ & Hlen & Hsub). split; [lia | done].
  - apply Z.ltb_ge in Hcmp. intros [= <- <- <-]. split; [lia | done].
Qed.

End sample_whole.

(** C3, as the code has it.  The cap never returns more than [B // 5]
    records, all of them records of the result.  A result of at most
    [B // 5] records is returned as it is, with the flag unset and no draw
    made.  For [B < 0] the cap asks [random.sample] for a negative number
    of records and [ValueError] is raised.  For [B >= 0] and a result of
    more than [B // 5] records the cap holds the records at the positions
    [random.sample] selects, with the flag set.  The selection never
    raises; what it returns is an ordered selection of exactly [B // 5]
    different positions; it returns whenever the library takes its first
    branch (a pool) or the generator delivers a position not yet taken
    within [fuel] redraws.  It is uniform: in the first branch every
    ordered selection is the outcome of exactly one sequence of choices,
    the draw [i] being one of [n - i] values; in the second branch (a set
    of the positions taken, a repeat drawn again) every ordered selection
    is returned when the generator delivers it, and renaming the positions
    in the draws by a permutation renames the selection the same way.
    With draws that are uniform and independent every ordered selection is
    thus as likely as any other. *)
Theorem record_cap_at_most {pylib : PyLib} (name desc : string) (corpus : BaseGallery.t)
    (B : Z) (res : list record) (g : rng) (fuel : nat) :
  let self := QueryTool.__init__ name desc corpus B in
  let n := length res in
  let k := B `div` 5 in
  (∀ res' any_cut g', QueryTool.record_cap self fuel res g = Ok (res', any_cut, g') →
     Z.of_nat (length res') ≤ k ∧ res' ⊆ res) ∧
  (Z.of_nat n ≤ k → QueryTool.record_cap self fuel res g = Ok (res, false, g)) ∧
  (B < 0 → QueryTool.record_cap self fuel res g = Raise ValueError) ∧
  (0 ≤ B → k < Z.of_nat n →
     QueryTool.record_cap self fuel res g
       = ('(ps, g') ← sample_positions fuel n k g; Ok (records_at res ps, true, g')) ∧
     (∀ e, sample_positions fuel n k g ≠ Raise e) ∧
     (∀ ps g', sample_positions fuel n k g = Ok (ps, g') → arrangement n (Z.to_nat k) ps) ∧
     (Z.of_nat n ≤ setsize k ∨ redraws_suffice fuel n (Z.to_nat k) g →
        ∃ ps g', sample_positions fuel n k g = Ok (ps, g')) ∧
     (Z.of_nat n ≤ setsize k → ∀ ps, arrangement n (Z.to_nat k) ps →
        ∃ js, length js = Z.to_nat k ∧ choices n js ∧
          (∀ g0, begins_with js g0 →
             sample_positions fuel n k g0 = Ok (ps, advance (Z.to_nat k) g0)) ∧
          (∀ js' g0 g0', length js' = Z.to_nat k → choices n js' → begins_with js' g0 →
             sample_positions fuel n k g0 = Ok (ps, g0') → js' = js)) ∧
     (setsize k < Z.of_nat n →
        (∀ ps g0, arrangement n (Z.to_nat k) ps → begins_with ps g0 →
           sample_positions fuel n k g0 = Ok (ps, advance (Z.to_nat k) g0)) ∧
        (∀ (π : nat → nat) g0 (ps : list nat) g0',
           (∀ a b, (a < n)%nat → (b < n)%nat → π a = π b → a = b) →
           (∀ a, (a < n)%nat → (π a < n)%nat) →
           sample_positions fuel n k g0 = Ok (ps, g0') →
           sample_positions fuel n k (renamed π n g0) = Ok (π <$> ps, renamed π n g0')))).
Proof.
  intros self n k. subst n.
  assert (QueryTool._max_record_num self = k) as Hmax by done.
  split_and!.
  - intros res' any_cut g' H. apply record_cap_inv in H. by rewrite Hmax in H.
  - intros Hle. unfold QueryTool.record_cap. rewrite Hmax.
    by rewrite (proj2 (Z.ltb_ge _ _) Hle).
  - intros HB. unfold QueryTool.record_cap, random_sample. rewrite Hmax.
    assert (k < 0) as Hk by (apply Z.div_lt_upper_bound; lia).
    assert ((k <? Z.of_nat (length res)) = true) as -> by (apply Z.ltb_lt; lia).
    by rewrite (proj2 (Z.ltb_lt _ _) Hk).
  - intros HB Hlt. assert (0 ≤ k) as Hk by (apply Z.div_pos; lia).
    split_and!.
    + rewrite (record_cap_positions self fuel res g) by (by rewrite Hmax).
      rewrite Hmax. by destruct (sample_positions fuel _ k g) as [[ps g']| |].
    + intros e. apply sample_positions_not_raise. lia.
    + apply sample_positions_arrangement.
    + apply sample_positions_returns. lia.
    + intros Hpool ps Hps. apply sample_positions_pool_uniform; [lia | done | done].
    + intros Hset. split.
      * intros ps g0 Hps Hg0. by apply sample_positions_set_reach.
      * intros π g0 ps g0' Hinj Hran H. by apply sample_positions_set_renamed.
Qed.

(** C9, as the code has it.  The constructor takes no generator and no
    seed: the sample is drawn from the generator of the [random] module.
    Two tools built with the same budget select the same sample from the
    same records whenever that generator delivers the same draws for as
    long as the first selection reads it, and they leave it advanced by
    the same number of draws. *)
Theorem record_cap_same_draws {pylib : PyLib} (name1 desc1 name2 desc2 : string)
    (corpus1 corpus2 : BaseGallery.t) (B : Z) (fuel : nat) (res res' : list record)
    (any_cut : bool) (g1 g1' : rng) :
  QueryTool.record_cap (QueryTool.__init__ name1 desc1 corpus1 B) fuel res g1
    = Ok (res', any_cut, g1') →
  ∃ d, g1' = advance d g1 ∧
    ∀ g2, (∀ i, (i < d)%nat → g1 i = g2 i) →
      QueryTool.record_cap (QueryTool.__init__ name2 desc2 corpus2 B) fuel res g2
        = Ok (res', any_cut, advance d g2).
Proof.
  unfold QueryTool.record_cap. simpl.
  destruct (B `div` 5 <? Z.of_nat (length res)).
  - intros ([chosen g'] & Hsample & [= <- <- <-])%bind_Ok.
    apply random_sample_draws in Hsample as (d & -> & Hdet).
    exists d. split; [done |]. intros g2 Hg. by rewrite (Hdet g2 Hg).
  - intros [= <- <- <-]. exists O. split; [done |]. by intros g2 _.
Qed.

Section sampling_demo.
#[local] Existing Instance Demo.utils.
#[local] Existing Instance Demo.pylib.

(** The generator that counts delivers a position that is not taken within
    one redraw, whatever single position is taken. *)
Lemma counting_redraws_suffice : redraws_suffice 1 22 2 Demo.counting.
Proof.
  intros pos selected Hlen. unfold Demo.counting.
  destruct selected as [|a [|b l]]; [| |simpl in Hlen; lia].
  - exists O. split; [lia | apply not_elem_of_nil].
  - destruct (decide ((pos + 0) mod 22 = a)%nat) as [Ha | Ha].
    + exists 1%nat. split; [lia |]. intros Hin%list_elem_of_singleton.
      pose proof (Nat.div_mod_eq (pos + 0) 22). pose proof (Nat.div_mod_eq (pos + 1) 22).
      lia.
    + exists O. split; [lia |]. by intros ?%list_elem_of_singleton.
Qed.

Lemma record_cap_at_most_witness :
  QueryTool.record_cap (QueryTool.__init__ "query" "looks up items" (Demo.corpus (Ok [])) 12)
    1 Demo.shelf Demo.stutter
  = Ok ([[("id", VInt 0)]; [("id", VInt 5)]], true, advance 3 Demo.stutter) ∧
  arrangement 22 2 [0; 5]%nat ∧
  ∃ ps g', sample_positions 1 22 (12 `div` 5) Demo.counting = Ok (ps, g').
Proof.
  pose proof (record_cap_at_most "query" "looks up items" (Demo.corpus (Ok [])) 12
                Demo.shelf Demo.stutter 1%nat) as (_ & _ & _ & H).
  pose proof (record_cap_at_most "query" "looks up items" (Demo.corpus (Ok [])) 12
                Demo.shelf Demo.counting 1%nat) as (_ & _ & _ & H').
  assert (0 ≤ 12) as HB by lia.
  assert (12 `div` 5 < Z.of_nat (length Demo.shelf)) as Hlt by (vm_compute; reflexivity).
  destruct (H HB Hlt) as (Hcap & _ & Harr & _).
  destruct (H' HB Hlt) as (_ & _ & _ & Hret & _).
  split_and!.
  - rewrite Hcap. vm_compute. reflexivity.
  - apply (Harr [0; 5]%nat (advance 3 Demo.stutter)). vm_compute. reflexivity.
  - apply Hret. right. exact counting_redraws_suffice.
Defined.

(** Against C3 as the spec states it: with a budget of -1 the cap is
    [-1 // 5 = -1], every result has more records than that, and the cap
    returns no list: [random.sample] raises [ValueError]. *)
Lemma record_cap_negative_budget :
  (-1) `div` 5 = -1 ∧
  QueryTool.record_cap (QueryTool.__init__ "query" "looks up items" (Demo.corpus (Ok [])) (-1))
    1 [Demo.cup] Demo.zeros = Raise ValueError ∧
  QueryTool.record_cap (QueryTool.__init__ "query" "looks up items" (Demo.corpus (Ok [])) (-1))
    1 [] Demo.zeros = Raise ValueError.
Proof. split_and!; reflexivity. Qed.

Lemma record_cap_same_draws_witness :
  ∃ d, advance 3 Demo.stutter = advance d Demo.stutter ∧
    ∀ g2, (∀ i, (i < d)%nat → Demo.stutter i = g2 i) →
      QueryTool.record_cap (QueryTool.__init__ "other" "another tool" (Demo.corpus (Ok [])) 12)
        1 Demo.shelf g2
      = Ok ([[("id", VInt 0)]; [("id", VInt 5)]], true, advance d g2).
Proof.
  apply (record_cap_same_draws "query" "looks up items" "other" "another tool"
           (Demo.corpus (Ok [])) (Demo.corpus (Ok [])) 12 1 Demo.shelf
           [[("id", VInt 0)]; [("id", VInt 5)]] true Demo.stutter (advance 3 Demo.stutter)).
  vm_compute. reflexivity.
Defined.

(** Against C9 as the spec states it: one tool, built once, is run twice
    on the same query against the same records.  Nothing it was built with
    fixes the generator, the second run starts where the first left the
    generator of the module, and the two runs return different samples.
    The first sample comes back only when the caller puts the generator of
    the module back into the state it had. *)
Lemma record_cap_depends_on_ambient_generator :
  let self := Demo.tool (Ok Demo.shelf) 12 in
  let w0 := Demo.world Demo.counting in
  ∃ w1 w2 w3,
    QueryTool.run (utils := Demo.words) self 1 Demo.scenario_sql w0
      = Ok (Json.dumps [[("id", VInt 0)]; [("id", VInt 1)]], w1) ∧
    QueryTool.run (utils := Demo.words) self 1 Demo.scenario_sql w1
      = Ok (Json.dumps [[("id", VInt 2)]; [("id", VInt 3)]], w2) ∧
    Json.dumps [[("id", VInt 0)]; [("id", VInt 1)]]
      ≠ Json.dumps [[("id", VInt 2)]; [("id", VInt 3)]] ∧
    QueryTool.run (utils := Demo.words) self 1 Demo.scenario_sql
        (set_random_state (random_state w0) w1)
      = Ok (Json.dumps [[("id", VInt 0)]; [("id", VInt 1)]], w3).
Proof.
  intros self w0. eexists _, _, _. split_and!.
  - vm_compute. reflexivity.
  - vm_compute. reflexivity.
  - vm_compute. discriminate.
  - vm_compute. reflexivity.
Qed.

End sampling_demo.

(** ** [rewrite_sql] on the scenario of the spec *)

(** C8. On a corpus named [items] whose column set contains [color] and
    not [colr], where [color] has a fuzzy-matching domain, [colr] matches
    [color] among the columns and [cofee] matches [coffee] in the domain of
    [color], and with the extractor naming [colr] as the column of the
    WHERE clause, [rewrite_sql] turns the query of the scenario into
    [SELECT * FROM items WHERE color LIKE '%coffee%']. *)
Theorem rewrite_sql_scenario {utils : Utils} {pylib : PyLib} (self : QueryTool.t) :
  let corpus := QueryTool.item_corpus self in
  BaseGallery.name corpus = "items" →
  "color" ∈ BaseGallery.column_meaning corpus →
  "colr" ∉ BaseGallery.column_meaning corpus →
  "color" ∈ BaseGallery.fuzzy_engine corpus →
  BaseGallery.fuzzy_match corpus "colr" "sql_cols" = Ok "color" →
  BaseGallery.fuzzy_match corpus "cofee" "color" = Ok "coffee" →
  extract_columns_from_where "SELECT * FROM items WHERE colr LIKE '%cofee%'" = Ok ["colr"] →
  QueryTool.rewrite_sql self "SELECT * FROM unknown_table WHERE colr LIKE '%cofee%'"
    = Ok "SELECT * FROM items WHERE color LIKE '%coffee%'".
Proof.
  intros corpus Hname _ Hcolr Hcolor Hcol Hval Hextract.
  unfold QueryTool.rewrite_sql. fold corpus. rewrite Hname.
  replace (Re.sub_from_where _ _)
    with (Ok (A := string) "SELECT * FROM items WHERE colr LIKE '%cofee%'")
    by (vm_compute; reflexivity).
  cbn [mbind result_bind rbind]. rewrite Hextract. simpl.
  fold corpus. rewrite (bool_decide_eq_false_2 _ Hcolr), Hcol. simpl.
  fold corpus. rewrite (bool_decide_eq_true_2 _ Hcolor), Hval.
  vm_compute. reflexivity.
Qed.

Section rewrite_demo.
#[local] Existing Instance Demo.utils.
#[local] Existing Instance Demo.pylib.

Lemma rewrite_sql_scenario_witness :
  QueryTool.rewrite_sql (Demo.tool (Ok []) 512) Demo.scenario_sql
    = Ok "SELECT * FROM items WHERE color LIKE '%coffee%'".
Proof.
  apply (rewrite_sql_scenario (Demo.tool (Ok []) 512)).
  - reflexivity.
  - compute_done.
  - compute_done.
  - compute_done.
  - reflexivity.
  - reflexivity.
  - reflexivity.
Defined.

End rewrite_demo.

(** ** [run] *)

Section run.
Context {utils : Utils} {pylib : PyLib}.
Variable self : QueryTool.t.

Local Abbreviation B := (QueryTool.result_max_token self).

(** The failure message ends in a newline and is longer than the initial
    value of [output]. *)
Lemma default_output_not_broken_message :
  QueryTool.default_output ≠ QueryTool.broken_message self.
Proof.
  intros E. apply (f_equal String.length) in E.
  unfold QueryTool.broken_message in E. rewrite !app_length_s in E.
  unfold QueryTool.default_output, nl in E. simpl in E. lia.
Qed.

(** The first [except]: the failure message is returned at once. *)
Lemma run_rewrite_failure (fuel : nat) (inputs : string) (w : World) (e : exn) :
  QueryTool.rewrite_sql self inputs = Raise e →
  QueryTool.run self fuel inputs w
    = Ok (QueryTool.broken_message self,
          debug (LogText (nl +:+ "SQL from AGI: " +:+ inputs)) w).
Proof. unfold QueryTool.run. by intros ->. Qed.

Lemma run_search_raise (fuel : nat) (inputs q : string) (w : World) (e : exn) (g : rng) :
  QueryTool.rewrite_sql self inputs = Ok q →
  QueryTool.search self fuel q (QueryTool.rewrite_notice self q) (random_state w)
    = (Raise e, g) →
  QueryTool.run self fuel inputs w
    = Ok (QueryTool.default_output,
          world_after self inputs q
            (QueryTool.rewrite_notice self q +:+ QueryTool.broken_message self) g (Some e) w).
Proof.
  intros Hrw Hsearch. unfold QueryTool.run. rewrite Hrw. cbn [random_state debug].
  change (EmptyString +:+ QueryTool.rewrite_notice self q)
    with (QueryTool.rewrite_notice self q).
  rewrite Hsearch. unfold QueryTool.finish, world_after, debug, track, set_random_state.
  cbn [random_state tracked debug_log]. do 3 f_equal.
  by rewrite <- !app_assoc.
Qed.

Lemma run_search_ok (fuel : nat) (inputs q info output : string) (w : World) (g : rng) :
  QueryTool.rewrite_sql self inputs = Ok q →
  QueryTool.search self fuel q (QueryTool.rewrite_notice self q) (random_state w)
    = (Ok (info, output), g) →
  QueryTool.run self fuel inputs w = Ok (output, world_after self inputs q info g None w).
Proof.
  intros Hrw Hsearch. unfold QueryTool.run. rewrite Hrw. cbn [random_state debug].
  change (EmptyString +:+ QueryTool.rewrite_notice self q)
    with (QueryTool.rewrite_notice self q).
  rewrite Hsearch. unfold QueryTool.finish, world_after, debug, track, set_random_state.
  cbn [random_state tracked debug_log]. do 3 f_equal.
  by rewrite <- !app_assoc.
Qed.

Lemma run_search_diverge (fuel : nat) (inputs q : string) (w : World) (g : rng) :
  QueryTool.rewrite_sql self inputs = Ok q →
  QueryTool.search self fuel q (QueryTool.rewrite_notice self q) (random_state w)
    = (Diverge, g) →
  QueryTool.run self fuel inputs w = Diverge.
Proof.
  intros Hrw Hsearch. unfold QueryTool.run. rewrite Hrw. cbn [random_state debug].
  change (EmptyString +:+ QueryTool.rewrite_notice self q)
    with (QueryTool.rewrite_notice self q).
  by rewrite Hsearch.
Qed.

Lemma search_ok_inv (fuel : nat) (q info0 info output : string) (g0 g : rng) :
  QueryTool.search self fuel q info0 g0 = (Ok (info, output), g) →
  ∃ res0 res any_cut,
    BaseGallery.query (QueryTool.item_corpus self) q = Ok res0 ∧
    QueryTool.record_cap self fuel res0 g0 = Ok (res, any_cut, g) ∧
    QueryTool.render self res any_cut info0 = Ok (info, output).
Proof.
  unfold QueryTool.search. intros H.
  destruct (BaseGallery.query _ q) as [res0| |]; [|done..].
  destruct (QueryTool.record_cap self fuel res0 g0) as [[[res any_cut] g']| |] eqn:Hcap;
    [|done..].
  injection H as H <-. by exists res0, res, any_cut.
Qed.

(** The two ways [render] produces its output. *)
Lemma render_inv (res : list record) (any_cut : bool) (info0 info output : string) :
  QueryTool.render self res any_cut info0 = Ok (info, output) →
  let over := B <? num_tokens_from_string (Json.dumps res) in
  info = (if any_cut && over then info0 +:+ QueryTool.sampling_notice self else info0)
         +:+ QueryTool.name self +:+ " search result: " +:+ output ∧
  ((over = false ∧ output = Json.dumps res) ∨
   (over = true ∧
    ∃ cut_res,
      mapM (shrink_record (B `div` (Z.of_nat (length res) + 1))) res = Ok cut_res ∧
      ((num_tokens_from_string (Json.dumps cut_res) ≤ B ∧ output = Json.dumps cut_res) ∨
       (B < num_tokens_from_string (Json.dumps cut_res) ∧
        output = Json.dumps (cut_list cut_res B))))).
Proof.
  intros H over. unfold QueryTool.render in H. fold over in H.
  destruct over.
  - apply bind_Ok in H as (cut_res & Hmap & H).
    rewrite andb_true_r. injection H as <- <-. split; [done |].
    right. split; [done |]. exists cut_res. split; [done |].
    destruct (B <? num_tokens_from_string (Json.dumps cut_res)) eqn:E.
    + right. apply Z.ltb_lt in E. done.
    + left. apply Z.ltb_ge in E. done.
  - rewrite andb_false_r. injection H as <- <-. split; [done |]. by left.
Qed.

(** What [cut_list] returns: a leading part of the list, whose
    serialization is within [max_len] tokens unless nothing is left. *)
Lemma cut_list_spec (lst : list record) (max_len : Z) :
  cut_list lst max_len `prefix_of` lst ∧
  (num_tokens_from_string (Json.dumps (cut_list lst max_len)) ≤ max_len ∨
   cut_list lst max_len = []).
Proof.
  unfold cut_list. generalize (length lst). intros n.
  induction n as [|n IH]; simpl.
  - destruct (_ <=? _) eqn:E; [|split; [apply prefix_nil | by right]].
    split; [apply prefix_nil | left; by apply Z.leb_le].
  - destruct (_ <=? _) eqn:E; [|exact IH].
    split; [apply (prefix_take lst (S n)) | left; by apply Z.leb_le].
Qed.

End run.

(** C1, as the code has it.  When the rewrite step has succeeded and the
    execution, the cap, the shrinking or the serialization raises, [run]
    catches the exception and returns the initial value of [output], the
    text [can not seach related information.]; this is not the failure
    message, which [run] returns when the rewrite step fails.  The
    exception and the failure message go to the debug log only, and nothing
    of the result is returned. *)
Theorem run_execution_failure {utils : Utils} {pylib : PyLib} (self : QueryTool.t)
    (fuel : nat) (inputs q : string) (w : World) (e : exn) (g : rng) :
  QueryTool.rewrite_sql self inputs = Ok q →
  QueryTool.search self fuel q (QueryTool.rewrite_notice self q) (random_state w)
    = (Raise e, g) →
  (∃ w', QueryTool.run self fuel inputs w = Ok ("can not seach related information.", w') ∧
         LogExn e ∈ debug_log w' ∧
         last (debug_log w')
           = Some (LogText (QueryTool.rewrite_notice self q +:+ QueryTool.broken_message self))) ∧
  "can not seach related information." ≠ QueryTool.broken_message self ∧
  (∀ fuel' inputs' e' w0, QueryTool.rewrite_sql self inputs' = Raise e' →
     ∃ w', QueryTool.run self fuel' inputs' w0 = Ok (QueryTool.broken_message self, w')).
Proof.
  intros Hrw Hsearch. split_and!.
  - eexists. split; [exact (run_search_raise self fuel inputs q w e g Hrw Hsearch) |].
    unfold world_after. cbn [debug_log]. split.
    + rewrite !elem_of_app. right. right. left. by apply list_elem_of_singleton.
    + by rewrite !app_assoc, last_snoc.
  - apply default_output_not_broken_message.
  - intros fuel' inputs' e' w0 H. eexists.
    exact (run_rewrite_failure self fuel' inputs' w0 e' H).
Qed.

(** C2, as the code has it.  When rewriting and execution succeed, [run]
    returns the serialized record list alone: the list of the capped
    records when its serialization is within the budget, and else the list
    of their shrunk copies, cut by [cut_list] when it is still over the
    budget.  The composed text goes to the debug log: the rewrite notice
    (whether or not anything was grounded), the sampling notice exactly
    when records were sampled and the sampled list was over the budget, and
    the labelled payload. *)
Theorem run_returns_payload {utils : Utils} {pylib : PyLib} (self : QueryTool.t)
    (fuel : nat) (inputs q info output : string) (w : World) (g : rng) :
  QueryTool.rewrite_sql self inputs = Ok q →
  QueryTool.search self fuel q (QueryTool.rewrite_notice self q) (random_state w)
    = (Ok (info, output), g) →
  ∃ w' res0 res any_cut final,
    QueryTool.run self fuel inputs w = Ok (output, w') ∧
    output = Json.dumps final ∧
    BaseGallery.query (QueryTool.item_corpus self) q = Ok res0 ∧
    QueryTool.record_cap self fuel res0 (random_state w) = Ok (res, any_cut, g) ∧
    (let B := QueryTool.result_max_token self in
     if B <? num_tokens_from_string (Json.dumps res) then
       ∃ cut_res,
         mapM (shrink_record (B `div` (Z.of_nat (length res) + 1))) res = Ok cut_res ∧
         final = if B <? num_tokens_from_string (Json.dumps cut_res)
                 then cut_list cut_res B else cut_res
     else final = res) ∧
    last (debug_log w') = Some (LogText info) ∧
    info = QueryTool.rewrite_notice self q
           +:+ (if any_cut && (QueryTool.result_max_token self
                                 <? num_tokens_from_string (Json.dumps res))
                then QueryTool.sampling_notice self else EmptyString)
           +:+ QueryTool.name self +:+ " search result: " +:+ output.
Proof.
  intros Hrw Hsearch.
  destruct (search_ok_inv _ _ _ _ _ _ _ _ Hsearch)
    as (res0 & res & any_cut & Hq & Hcap & Hrender).
  apply render_inv in Hrender as [Hinfo Hout].
  assert (∃ final, output = Json.dumps final ∧
    (let B := QueryTool.result_max_token self in
     if B <? num_tokens_from_string (Json.dumps res) then
       ∃ cut_res,
         mapM (shrink_record (B `div` (Z.of_nat (length res) + 1))) res = Ok cut_res ∧
         final = if B <? num_tokens_from_string (Json.dumps cut_res)
                 then cut_list cut_res B else cut_res
     else final = res)) as (final & Hfinal & Hrel).
  { cbv zeta.
    destruct Hout as [[-> ->] | (-> & cut_res & Hmap & [[Hle ->] | [Hlt ->]])].
    - by exists res.
    - exists cut_res. split; [done |]. exists cut_res. split; [done |].
      by rewrite (proj2 (Z.ltb_ge _ _) Hle).
    - eexists. split; [done |]. exists cut_res. split; [done |].
      by rewrite (proj2 (Z.ltb_lt _ _) Hlt). }
  exists (world_after self inputs q info g None w), res0, res, any_cut, final.
  split_and!; [by apply run_search_ok | done | done | done | done | |].
  - unfold world_after. cbn [debug_log]. by rewrite !app_assoc, last_snoc.
  - rewrite Hinfo. destruct (any_cut && _); [|done]. by rewrite !app_assoc_s.
Qed.


Section run_demo.
#[local] Existing Instance Demo.utils.
#[local] Existing Instance Demo.pylib.

Local Abbreviation grounded_sql := "SELECT * FROM items WHERE color LIKE '%coffee%'".

Lemma run_execution_failure_witness :
  let self := Demo.tool (Raise CorpusError) 512 in
  ∃ w', QueryTool.run self 0 Demo.scenario_sql (Demo.world Demo.zeros)
          = Ok ("can not seach related information.", w') ∧
        LogExn CorpusError ∈ debug_log w' ∧
        last (debug_log w')
          = Some (LogText (QueryTool.rewrite_notice self grounded_sql
                           +:+ QueryTool.broken_message self)).
Proof.
  intros self.
  apply (run_execution_failure self 0 Demo.scenario_sql grounded_sql
           (Demo.world Demo.zeros) CorpusError Demo.zeros).
  - vm_compute. reflexivity.
  - reflexivity.
Defined.

(** Against C1 as the spec states it: the corpus raises on the rewritten
    query, and what [run] returns is not the failure message. *)
Lemma run_execution_failure_counterexample :
  let self := Demo.tool (Raise CorpusError) 512 in
  QueryTool.rewrite_sql self Demo.scenario_sql = Ok grounded_sql ∧
  QueryTool.search self 0 grounded_sql (QueryTool.rewrite_notice self grounded_sql) Demo.zeros
    = (Raise CorpusError, Demo.zeros) ∧
  ¬ ∃ w', QueryTool.run self 0 Demo.scenario_sql (Demo.world Demo.zeros)
            = Ok (QueryTool.broken_message self, w').
Proof.
  intros self. split_and!; [vm_compute; reflexivity | reflexivity |].
  intros [w' H]. vm_compute in H. discriminate H.
Qed.

Lemma run_returns_payload_witness :
  let self := Demo.tool (Ok [Demo.mug; Demo.cup; Demo.cup; Demo.mug]) 12 in
  let payload :=
    Json.dumps [Demo.cup; [("description", VStr "one two three..."); ("id", VStr "7")]] in
  ∃ w' res0 res any_cut final,
    QueryTool.run (utils := Demo.words) self 0 Demo.scenario_sql (Demo.world Demo.ones)
      = Ok (payload, w') ∧
    payload = Json.dumps final ∧
    BaseGallery.query (QueryTool.item_corpus self) grounded_sql = Ok res0 ∧
    QueryTool.record_cap self 0 res0 (random_state (Demo.world Demo.ones))
      = Ok (res, any_cut, λ i, Demo.ones (S (S i))) ∧
    (let B := QueryTool.result_max_token self in
     if B <? num_tokens_from_string (Utils := Demo.words) (Json.dumps res) then
       ∃ cut_res,
         mapM (shrink_record (utils := Demo.words) (B `div` (Z.of_nat (length res) + 1))) res
           = Ok cut_res ∧
         final = if B <? num_tokens_from_string (Utils := Demo.words) (Json.dumps cut_res)
                 then cut_list (utils := Demo.words) cut_res B else cut_res
     else final = res) ∧
    last (debug_log w')
      = Some (LogText
          (QueryTool.rewrite_notice self grounded_sql +:+ QueryTool.sampling_notice self
           +:+ "query search result: " +:+ payload)) ∧
    QueryTool.rewrite_notice self grounded_sql +:+ QueryTool.sampling_notice self
      +:+ "query search result: " +:+ payload
    = QueryTool.rewrite_notice self grounded_sql
      +:+ (if any_cut && (QueryTool.result_max_token self
                            <? num_tokens_from_string (Utils := Demo.words) (Json.dumps res))
           then QueryTool.sampling_notice self else EmptyString)
      +:+ QueryTool.name self +:+ " search result: " +:+ payload.
Proof.
  intros self payload.
  apply (run_returns_payload (utils := Demo.words) self 0 Demo.scenario_sql grounded_sql).
  - vm_compute. reflexivity.
  - vm_compute. reflexivity.
Defined.

(** Against C2 as the spec states it: [colr] and [cofee] are grounded,
    the query returns one record, and [run] returns the serialized list
    without the rewrite notice in front of it. *)
Lemma run_returns_payload_counterexample :
  let self := Demo.tool (Ok [Demo.cup]) 512 in
  QueryTool.rewrite_sql self Demo.scenario_sql = Ok grounded_sql ∧
  Re.sub_from_where "FROM items WHERE" Demo.scenario_sql ≠ Ok grounded_sql ∧
  BaseGallery.query (QueryTool.item_corpus self) grounded_sql = Ok [Demo.cup] ∧
  (∃ w', QueryTool.run self 0 Demo.scenario_sql (Demo.world Demo.zeros)
           = Ok (Json.dumps [Demo.cup], w')) ∧
  ¬ ∃ w', QueryTool.run self 0 Demo.scenario_sql (Demo.world Demo.zeros)
            = Ok (spec_composed self true false grounded_sql (Json.dumps [Demo.cup]), w').
Proof.
  intros self. split_and!.
  - vm_compute. reflexivity.
  - vm_compute. discriminate.
  - reflexivity.
  - eexists. vm_compute. reflexivity.
  - intros [w' H]. vm_compute in H. discriminate H.
Qed.


End run_demo.

(** ** The shrink phase leaves the records of the result alone *)

Section frame.
Context {utils : Utils}.
Implicit Types (σ : gmap Heap.loc record) (l : Heap.loc).

Lemma deref_Ok σ l (r : record) : Heap.deref σ l = Ok r ↔ σ !! l = Some r.
Proof. unfold Heap.deref. destruct (σ !! l); split; congruence. Qed.

(** The passes assign to the object at [l] and to nothing else. *)
Lemma heap_loop_frame (fuel : nat) (limit overflow_token : Z) (cut_last : bool) l σ σ' :
  Heap.shrink_loop fuel limit overflow_token cut_last l σ = Ok σ' →
  ∀ l0, l0 ≠ l → σ' !! l0 = σ !! l0.
Proof.
  revert overflow_token cut_last σ.
  induction fuel as [|fuel IH]; intros o c σ H l0 Hne; simpl in H;
    destruct ((0 <? o) && c); try done; try (by injection H as <-).
  apply bind_Ok in H as (r & _ & H). apply bind_Ok in H as ([r' c'] & _ & H).
  rewrite (IH _ _ _ H l0 Hne). by apply lookup_insert_ne.
Qed.

(** What the passes leave at [l] is what the loop over the content
    computes. *)
Lemma heap_loop_content (fuel : nat) (limit overflow_token : Z) (cut_last : bool) l σ σ'
    (r : record) :
  σ !! l = Some r →
  Heap.shrink_loop fuel limit overflow_token cut_last l σ = Ok σ' →
  ∃ r' passes,
    shrink_loop fuel limit overflow_token cut_last r = (Exited r', passes) ∧
    σ' !! l = Some r'.
Proof.
  revert overflow_token cut_last σ r.
  induction fuel as [|fuel IH]; intros o c σ r Hr H; simpl in *;
    destruct ((0 <? o) && c); try done;
    try (injection H as <-; by exists r, O).
  apply bind_Ok in H as (r0 & Hr0 & H). apply deref_Ok in Hr0.
  rewrite Hr in Hr0. injection Hr0 as <-.
  apply bind_Ok in H as ([r1 c1] & Hpass & H). rewrite Hpass.
  destruct (IH _ _ _ r1 (lookup_insert_eq _ _ _) H) as (r' & passes & -> & Hr').
  by exists r', (S passes).
Qed.

(** One record: the copy is a new object, the objects that were there keep
    their content, and the copy ends as the shrunk record. *)
Lemma heap_shrink_record (limit : Z) l l' σ σ' :
  Heap.shrink_record limit l σ = Ok (l', σ') →
  ∃ r r',
    σ !! l = Some r ∧ (l' ∉ dom σ) ∧
    (∀ l0, l0 ∈ dom σ → σ' !! l0 = σ !! l0) ∧
    shrink_record limit r = Ok r' ∧ σ' !! l' = Some r'.
Proof.
  unfold Heap.shrink_record. intros H.
  apply bind_Ok in H as (r & Hr & H).
  apply bind_Ok in H as ([l1 σ1] & Hcopy & H).
  apply bind_Ok in H as (σ2 & Hloop & H). injection H as <- <-.
  unfold Heap.deepcopy in Hcopy. rewrite Hr in Hcopy. injection Hcopy as <- <-.
  apply deref_Ok in Hr.
  pose proof (is_fresh (dom σ)) as Hfresh.
  destruct (heap_loop_content _ _ _ _ _ _ _ r (lookup_insert_eq _ _ _) Hloop)
    as (r' & passes & Hpure & Hr').
  exists r, r'. split_and!; [done | done | | | done].
  - intros l0 Hl0. rewrite (heap_loop_frame _ _ _ _ _ _ _ Hloop) by set_solver.
    apply lookup_insert_ne. set_solver.
  - unfold shrink_record. by rewrite Hpure.
Qed.

Lemma Forall2_impl_in {X Y : Type} (P : X → Prop) (R R' : X → Y → Prop)
    (xs : list X) (ys : list Y) :
  Forall P xs → Forall2 R xs ys → (∀ x y, P x → R x y → R' x y) → Forall2 R' xs ys.
Proof.
  intros HP HR Himpl. induction HR as [|x y xs ys Hxy HR IH]; [constructor |].
  inversion HP; subst. constructor; auto.
Qed.

Lemma heap_shrink_all (limit : Z) (res cut_res : list Heap.loc) σ σ' :
  Forall (λ l, l ∈ dom σ) res →
  Heap.shrink_all limit res σ = Ok (cut_res, σ') →
  (∀ l0, l0 ∈ dom σ → σ' !! l0 = σ !! l0) ∧
  Forall (λ l', (l' ∉ dom σ) ∧ l' ∈ dom σ') cut_res ∧
  Forall2 (λ l l', ∃ r r',
    σ !! l = Some r ∧ shrink_record limit r = Ok r' ∧ σ' !! l' = Some r') res cut_res.
Proof.
  revert cut_res σ σ'.
  induction res as [|l res IH]; intros cut_res σ σ' Hres H; simpl in H.
  { injection H as <- <-. split_and!; [done | constructor | constructor]. }
  apply bind_Ok in H as ([l' σ1] & Hrec & H).
  apply bind_Ok in H as ([cut' σ2] & Hall & H). injection H as <- <-.
  apply heap_shrink_record in Hrec as (r & r' & Hr & Hfresh & Hframe1 & Hpure & Hr').
  assert (∀ l0, l0 ∈ dom σ → l0 ∈ dom σ1) as Hdom.
  { intros l0 Hl0. apply elem_of_dom. rewrite Hframe1 by done. by apply elem_of_dom. }
  inversion Hres as [|? ? Hl Hres']; subst.
  apply IH in Hall as (Hframe2 & Hnew & Hcopies);
    [|eapply Forall_impl; [exact Hres' | exact Hdom]].
  assert (∀ l0, l0 ∈ dom σ → σ2 !! l0 = σ !! l0) as Hframe.
  { intros l0 Hl0. rewrite Hframe2 by auto. by apply Hframe1. }
  split_and!.
  - exact Hframe.
  - constructor.
    + split; [done |]. apply elem_of_dom. rewrite Hframe2; [by rewrite Hr' |].
      apply elem_of_dom. by rewrite Hr'.
    + eapply Forall_impl; [exact Hnew |]. intros l0 [Hl0 Hl0']. split; [|done].
      intros Hin. by apply Hl0, Hdom.
  - constructor.
    + exists r, r'. split_and!; [done | done |].
      rewrite Hframe2; [done |]. apply elem_of_dom. by rewrite Hr'.
    + eapply Forall2_impl_in; [exact Hres' | exact Hcopies |].
      intros l0 l0' Hl0 (r0 & r0' & Hr0 & Hpure0 & Hr0').
      exists r0, r0'. by rewrite <- Hframe1.
Qed.

(** The store version of the phase computes what [render] uses: the
    contents of the copies are the shrunk contents of the originals. *)
Lemma heap_shrink_all_pure (limit : Z) (res cut_res : list Heap.loc) σ σ' (rs : list record) :
  Forall (λ l, l ∈ dom σ) res →
  Heap.shrink_all limit res σ = Ok (cut_res, σ') →
  Heap.contents σ res = Some <$> rs →
  ∃ rs', mapM (shrink_record limit) rs = Ok rs' ∧
         Heap.contents σ' cut_res = Some <$> rs'.
Proof.
  intros Hres H Hrs.
  destruct (heap_shrink_all limit res cut_res σ σ' Hres H) as (_ & _ & Hcopies).
  clear Hres H. revert rs Hrs.
  induction Hcopies as [|l l' res cut_res (r & r' & Hr & Hpure & Hr') _ IH];
    intros rs Hrs.
  { destruct rs; [|done]. by exists []. }
  destruct rs as [|r0 rs]; [done |].
  unfold Heap.contents in Hrs. rewrite !fmap_cons in Hrs.
  injection Hrs as Hr0 Hrs. rewrite Hr in Hr0. injection Hr0 as <-.
  destruct (IH rs Hrs) as (rs' & Hmap & Hcontents).
  exists (r' :: rs'). split.
  - cbn [mapM]. rewrite Hpure. simpl. rewrite Hmap. done.
  - unfold Heap.contents in *. rewrite !fmap_cons. by rewrite Hr', Hcontents.
Qed.

End frame.

(** C10.  The shrink phase over a list of references to records: every
    object of the store, so every record of the list, has the content it
    had before; the entries of [cut_res] refer to objects that did not
    exist before, one per entry of [res], and each holds what the shrink
    of the content of its original gives. *)
Theorem shrink_all_keeps_originals {utils : Utils} (limit : Z) (res cut_res : list Heap.loc)
    (σ σ' : gmap Heap.loc record) :
  Forall (λ l, l ∈ dom σ) res →
  Heap.shrink_all limit res σ = Ok (cut_res, σ') →
  (∀ l r, σ !! l = Some r → σ' !! l = Some r) ∧
  Heap.contents σ' res = Heap.contents σ res ∧
  Forall (λ l', l' ∉ dom σ) cut_res ∧
  Forall2 (λ l l', ∃ r r',
    σ !! l = Some r ∧ shrink_record limit r = Ok r' ∧ σ' !! l' = Some r') res cut_res.
Proof.
  intros Hres H.
  destruct (heap_shrink_all limit res cut_res σ σ' Hres H) as (Hframe & Hnew & Hcopies).
  split_and!.
  - intros l r Hl. rewrite Hframe; [done |]. apply elem_of_dom. by rewrite Hl.
  - unfold Heap.contents. apply Forall_fmap_ext_1.
    eapply Forall_impl; [exact Hres |]. intros l Hl. by apply Hframe.
  - eapply Forall_impl; [exact Hnew |]. by intros l' [? _].
  - exact Hcopies.
Qed.

Section frame_demo.
#[local] Existing Instance Demo.utils.

Lemma shrink_all_keeps_originals_witness :
  (∀ l r, Demo.store !! l = Some r → Demo.store_after !! l = Some r) ∧
  Heap.contents Demo.store_after [1%positive; 2%positive; 1%positive]
    = Heap.contents Demo.store [1%positive; 2%positive; 1%positive] ∧
  Forall (λ l', l' ∉ dom Demo.store) [3%positive; 4%positive; 5%positive] ∧
  Forall2 (λ l l', ∃ r r',
    Demo.store !! l = Some r ∧ shrink_record 59 r = Ok r' ∧ Demo.store_after !! l' = Some r')
    [1%positive; 2%positive; 1%positive] [3%positive; 4%positive; 5%positive].
Proof.
  apply (shrink_all_keeps_originals 59 [1%positive; 2%positive; 1%positive]
           [3%positive; 4%positive; 5%positive] Demo.store Demo.store_after).
  - repeat constructor; compute_done.
  - vm_compute. reflexivity.
Defined.

End frame_demo.

(** * Further properties of the code *)

(** ** [split], [join] and [replace] *)

Section text.

Lemma no_space_head (c : Ascii.ascii) (w : string) :
  spaces (String c w) = O → Ascii.eqb c Py.space = false ∧ spaces w = O.
Proof. simpl. destruct (Ascii.eqb c Py.space); [lia | done]. Qed.

Lemma split_word (w : string) : spaces w = O → Py.split w = [w].
Proof.
  induction w as [|c w IH]; [done |]. intros [Hc Hw]%no_space_head.
  simpl. by rewrite Hc, (IH Hw).
Qed.

Lemma split_word_space (w rest : string) :
  spaces w = O → Py.split (w +:+ " " +:+ rest) = w :: Py.split rest.
Proof.
  induction w as [|c w IH]; [done |]. intros [Hc Hw]%no_space_head.
  rewrite app_String. simpl. by rewrite Hc, (IH Hw).
Qed.

Lemma split_join (ws : list string) :
  ws ≠ [] → Forall (λ w, spaces w = O) ws → Py.split (Py.join ws) = ws.
Proof.
  intros Hne Hws. induction Hws as [|w ws Hw Hws IH]; [done |].
  destruct ws as [|w' ws]; [by apply split_word |].
  rewrite join_cons by done. rewrite split_word_space by done.
  by rewrite IH.
Qed.

Lemma drop_length (k : nat) (s : string) :
  (String.length (Py.drop k s) ≤ String.length s)%nat.
Proof.
  revert k. induction s as [|c s IH]; intros [|k]; simpl; try lia.
  specialize (IH k). lia.
Qed.

Lemma replace_from_skip (k : nat) (old new s : string) :
  Py.replace_from k old new s = Py.replace_from O old new (Py.drop k s).
Proof.
  revert k. induction s as [|c s IH]; intros [|k]; try done.
  simpl. apply IH.
Qed.

Lemma is_prefix_drop (p s : string) :
  Py.is_prefix p s = true → s = p +:+ Py.drop (String.length p) s.
Proof.
  revert s. induction p as [|a p IH]; intros [|b s]; simpl; try done.
  intros [Hab Hp]%andb_true_iff. apply Ascii.eqb_eq in Hab as ->.
  rewrite app_String. f_equal. by apply IH.
Qed.

(** Replacing a text by itself changes nothing. *)
Lemma replace_same (old s : string) : Py.replace old old s = s.
Proof.
  destruct old as [|a p].
  { simpl. induction s as [|c s IH]; [done |]. simpl.
    change (String c (Py.interleave EmptyString s) = String c s). by rewrite IH. }
  unfold Py.replace.
  remember (String.length s) as n eqn:Hn.
  assert (String.length s ≤ n)%nat as Hle by lia. clear Hn.
  revert s Hle. induction n as [|n IH]; intros [|c s] Hle; simpl in *; try done; try lia.
  destruct (Ascii.eqb a c && Py.is_prefix p s) eqn:Hpre.
  - rewrite Nat.sub_0_r, replace_from_skip.
    rewrite IH by (pose proof (drop_length (String.length p) s); lia).
    apply andb_true_iff in Hpre as [Hac Hp]. apply Ascii.eqb_eq in Hac as ->.
    rewrite app_String. f_equal. symmetry. by apply is_prefix_drop.
  - f_equal. apply IH. lia.
Qed.

Lemma escape_quote_cons (c : Ascii.ascii) (s : string) :
  Py.replace "'" "''" (String c s)
  = if Ascii.eqb c apostrophe then "''" +:+ Py.replace "'" "''" s
    else String c (Py.replace "'" "''" s).
Proof.
  unfold Py.replace. cbn [Py.replace_from Py.is_prefix String.length Nat.sub].
  by rewrite andb_true_r, (Ascii.eqb_sym _ c).
Qed.

(** A text without a quote is its own escaped form. *)
Lemma escape_quote_none (s : string) :
  all_chars not_apostrophe s = true → Py.replace "'" "''" s = s.
Proof.
  induction s as [|c s IH]; [done |]. cbn [all_chars]. intros [Hc Hs]%andb_true_iff.
  rewrite escape_quote_cons. unfold not_apostrophe in Hc.
  destruct (Ascii.eqb c apostrophe); [done |]. by rewrite IH.
Qed.

Lemma unescape_quote_quote (e : string) :
  Py.replace_from O "''" "'" (String apostrophe (String apostrophe e))
  = "'" +:+ Py.replace_from O "''" "'" e.
Proof.
  cbn [Py.replace_from Py.is_prefix String.length Nat.sub].
  change (Ascii.Ascii true true true false false true false false) with apostrophe.
  rewrite !Ascii.eqb_refl. reflexivity.
Qed.

Lemma unescape_other (c : Ascii.ascii) (e : string) :
  Ascii.eqb c apostrophe = false →
  Py.replace_from O "''" "'" (String c e) = String c (Py.replace_from O "''" "'" e).
Proof.
  intros Hc. cbn [Py.replace_from Py.is_prefix].
  change (Ascii.Ascii true true true false false true false false) with apostrophe.
  rewrite (Ascii.eqb_sym _ c), Hc. reflexivity.
Qed.

End text.

(** X1.  [split] and [join] are inverse to each other: joining the words
    of any text gives the text back, and splitting the join of a non-empty
    list of words without spaces gives the list back. *)
Theorem split_join_round_trip (ws : list string) :
  ws ≠ [] → Forall (λ w, spaces w = O) ws →
  Py.split (Py.join ws) = ws ∧ ∀ s, Py.join (Py.split s) = s.
Proof. intros Hne Hws. split; [by apply split_join | apply join_split]. Qed.

Lemma split_join_round_trip_witness :
  Py.split (Py.join ["one"; "two"; "three..."]) = ["one"; "two"; "three..."] ∧
  ∀ s, Py.join (Py.split s) = s.
Proof.
  apply (split_join_round_trip ["one"; "two"; "three..."]).
  - done.
  - repeat constructor.
Defined.

(** X2.  The escaping of a matched value for SQLite doubles every single
    quote and can be undone: replacing the doubled quotes by single ones
    gives the value back. *)
Theorem quote_escape_round_trip (s : string) :
  Py.replace "''" "'" (Py.replace "'" "''" s) = s.
Proof.
  induction s as [|c s IH]; [done |].
  rewrite escape_quote_cons.
  destruct (Ascii.eqb c apostrophe) eqn:Hc.
  - apply Ascii.eqb_eq in Hc as ->.
    change (Py.replace_from O "''" "'"
              (String apostrophe (String apostrophe (Py.replace "'" "''" s)))
            = String apostrophe s).
    rewrite unescape_quote_quote.
    change (String apostrophe (Py.replace "''" "'" (Py.replace "'" "''" s))
            = String apostrophe s).
    by rewrite IH.
  - change (Py.replace_from O "''" "'" (String c (Py.replace "'" "''" s)) = String c s).
    rewrite unescape_other by done.
    change (String c (Py.replace "''" "'" (Py.replace "'" "''" s)) = String c s).
    by rewrite IH.
Qed.

(** ** Dictionaries *)

Section dict.
Context {V : Type}.
Implicit Types (d : list (string * V)) (k : string) (v : V).

Lemma dict_get_set_eq k v d : dict_get k (dict_set k v d) = Ok v.
Proof.
  induction d as [|[k' v'] d IH]; csimpl.
  - by rewrite String.eqb_refl.
  - destruct (String.eqb k k') eqn:E; csimpl; rewrite ?String.eqb_refl, ?E; done.
Qed.

Lemma dict_get_set_ne k k' v d :
  k' ≠ k → dict_get k' (dict_set k v d) = dict_get k' d.
Proof.
  intros Hne. apply String.eqb_neq in Hne.
  induction d as [|[k0 v0] d IH]; csimpl.
  - by rewrite Hne.
  - destruct (String.eqb k k0) eqn:E; csimpl.
    + apply String.eqb_eq in E as <-. by rewrite Hne.
    + by rewrite IH.
Qed.

Lemma dict_set_keys_present k v d : k ∈ d.*1 → (dict_set k v d).*1 = d.*1.
Proof.
  induction d as [|[k0 v0] d IH]; csimpl; [by intros ?%elem_of_nil |].
  destruct (String.eqb k k0) eqn:E.
  - apply String.eqb_eq in E as <-. done.
  - apply String.eqb_neq in E. intros [?|Hin]%elem_of_cons; [done |].
    csimpl. by rewrite IH.
Qed.

Lemma dict_set_keys_absent k v d : k ∉ d.*1 → (dict_set k v d).*1 = d.*1 ++ [k].
Proof.
  induction d as [|[k0 v0] d IH]; csimpl; [done |].
  intros [Hne Hnin]%not_elem_of_cons.
  apply String.eqb_neq in Hne. rewrite Hne. csimpl. by rewrite IH.
Qed.

Lemma dict_set_NoDup k v d : NoDup d.*1 → NoDup (dict_set k v d).*1.
Proof.
  intros Hnd. destruct (decide (k ∈ d.*1)) as [Hin | Hnin].
  - by rewrite dict_set_keys_present.
  - rewrite dict_set_keys_absent by done. apply NoDup_app. split_and!; [done | | ].
    + intros x Hx ->%list_elem_of_singleton. done.
    + apply NoDup_singleton.
Qed.

Lemma dict_set_elem k v k0 v0 d :
  (k0, v0) ∈ dict_set k v d → (k0 = k ∧ v0 = v) ∨ (k0, v0) ∈ d.
Proof.
  induction d as [|[k1 v1] d IH]; csimpl.
  - intros [= -> ->]%list_elem_of_singleton. by left.
  - destruct (String.eqb k k1) eqn:E.
    + intros [[= -> ->] | Hin]%elem_of_cons; [by left |].
      right. by apply elem_of_cons; right.
    + intros [[= -> ->] | Hin]%elem_of_cons.
      * right. apply elem_of_cons. by left.
      * destruct (IH Hin) as [? | ?]; [by left |].
        right. apply elem_of_cons. by right.
Qed.



End dict.

(** X3.  Assignment to a dictionary as [rewrite_sql] uses it for its two
    substitution maps: the assigned key reads back the assigned value,
    every other key reads what it read before, no key comes to be held
    twice, a key that was present keeps its place and a new key goes to
    the end. *)
Theorem dict_set_then_get {V : Type} (k k' : string) (v : V) (d : list (string * V)) :
  NoDup d.*1 →
  dict_get k (dict_set k v d) = Ok v ∧
  (k' ≠ k → dict_get k' (dict_set k v d) = dict_get k' d) ∧
  NoDup (dict_set k v d).*1 ∧
  (k ∈ d.*1 → (dict_set k v d).*1 = d.*1) ∧
  (k ∉ d.*1 → (dict_set k v d).*1 = d.*1 ++ [k]).
Proof.
  intros Hnd. split_and!.
  - apply dict_get_set_eq.
  - apply dict_get_set_ne.
  - by apply dict_set_NoDup.
  - apply dict_set_keys_present.
  - apply dict_set_keys_absent.
Qed.

Lemma dict_set_then_get_witness :
  dict_get "colr" (dict_set "colr" "color" [("titel", "title"); ("colr", "colour")])
    = Ok "color" ∧
  ("titel" ≠ "colr" →
   dict_get "titel" (dict_set "colr" "color" [("titel", "title"); ("colr", "colour")])
   = dict_get "titel" [("titel", "title"); ("colr", "colour")]) ∧
  NoDup (dict_set "colr" "color" [("titel", "title"); ("colr", "colour")]).*1 ∧
  ("colr" ∈ [("titel", "title"); ("colr", "colour")].*1 →
   (dict_set "colr" "color" [("titel", "title"); ("colr", "colour")]).*1
   = [("titel", "title"); ("colr", "colour")].*1) ∧
  ("colr" ∉ [("titel", "title"); ("colr", "colour")].*1 →
   (dict_set "colr" "color" [("titel", "title"); ("colr", "colour")]).*1
   = [("titel", "title"); ("colr", "colour")].*1 ++ ["colr"]).
Proof.
  apply (dict_set_then_get "colr" "titel" "color" [("titel", "title"); ("colr", "colour")]).
  compute_done.
Defined.

(** ** Grounding in [rewrite_sql] *)

Section grounding.
Context {utils : Utils}.
Variable self : QueryTool.t.

Local Abbreviation corpus := (QueryTool.item_corpus self).


Lemma ground_columns_known (cols : list string) (d0 : list (string * string)) :
  Forall (λ col, col ∈ BaseGallery.column_meaning corpus) cols →
  QueryTool.ground_columns self cols d0 = Ok d0.
Proof.
  induction 1 as [|col cols Hcol _ IH]; [done |]. simpl.
  by rewrite (bool_decide_eq_true_2 _ Hcol).
Qed.

(** The map of the values when every value with a domain matches itself:
    every entry replaces a text by the same text. *)
Lemma ground_values_same (res : list (string * string)) (d0 : list (string * string)) :
  Forall (λ cv, cv.1 ∈ BaseGallery.fuzzy_engine corpus →
     BaseGallery.fuzzy_match corpus cv.2 cv.1 = Ok cv.2 ∧
     all_chars not_apostrophe cv.2 = true) res →
  Forall (λ kv, kv.1 = kv.2) d0 →
  ∃ d, QueryTool.ground_values self res d0 = Ok d ∧ Forall (λ kv, kv.1 = kv.2) d.
Proof.
  intros Hres. revert d0. induction Hres as [|[col value] res Hcv _ IH]; intros d0 Hd0.
  { by exists d0. }
  cbn [QueryTool.ground_values fst snd] in *.
  destruct (bool_decide (col ∈ BaseGallery.fuzzy_engine corpus)) eqn:Hdom.
  - apply bool_decide_eq_true in Hdom. destruct (Hcv Hdom) as [-> Hquote].
    cbn [mbind result_bind rbind]. rewrite escape_quote_none by done. apply IH.
    apply Forall_forall. intros [k v] Hkv.
    apply dict_set_elem in Hkv as [[-> ->] | Hkv]; [done |].
    by apply (proj1 (Forall_forall _ _) Hd0 (k, v)).
  - by apply IH.
Qed.

Lemma replace_all_same (d : list (string * string)) (sql : string) :
  Forall (λ kv, kv.1 = kv.2) d → QueryTool.replace_all d sql = sql.
Proof.
  unfold QueryTool.replace_all. intros Hd. revert sql.
  induction Hd as [|[k v] d Hkv _ IH]; intros sql; [done |].
  simpl in *. subst v. by rewrite replace_same.
Qed.

End grounding.



(** X5.  A query that needs no grounding is returned as the FROM
    normalisation leaves it: when [re.sub] returns the normalised query,
    every column the extractor returns for it is a column of the corpus and
    every value of a LIKE predicate on a column with a fuzzy domain matches
    itself and holds no quote, [rewrite_sql] returns the normalised
    query. *)
Theorem rewrite_sql_noop {utils : Utils} {pylib : PyLib} (self : QueryTool.t)
    (sql normalised : string) (cols : list string) :
  let corpus := QueryTool.item_corpus self in
  Re.sub_from_where ("FROM " +:+ BaseGallery.name corpus +:+ " WHERE") sql = Ok normalised →
  extract_columns_from_where normalised = Ok cols →
  Forall (λ col, col ∈ BaseGallery.column_meaning corpus) cols →
  Forall (λ cv, cv.1 ∈ BaseGallery.fuzzy_engine corpus →
     BaseGallery.fuzzy_match corpus cv.2 cv.1 = Ok cv.2 ∧
     all_chars not_apostrophe cv.2 = true) (Re.findall_like normalised) →
  QueryTool.rewrite_sql self sql = Ok normalised.
Proof.
  intros corpus Hsub Hextract Hcols Hvalues.
  unfold QueryTool.rewrite_sql. fold corpus. rewrite Hsub. cbn [mbind result_bind rbind].
  rewrite Hextract. cbn [mbind result_bind rbind].
  rewrite (ground_columns_known self cols [] Hcols). cbn [mbind result_bind rbind].
  rewrite (replace_all_same [] normalised) by constructor.
  destruct (ground_values_same self _ [] Hvalues ltac:(constructor)) as (d & -> & Hd).
  cbn [mbind result_bind rbind]. by rewrite replace_all_same.
Qed.

Section grounding_demo.
#[local] Existing Instance Demo.utils.
#[local] Existing Instance Demo.pylib.

Lemma rewrite_sql_noop_witness :
  QueryTool.rewrite_sql (Demo.tool (Ok []) 512)
    "select title from things where color LIKE '%coffee%' AND title NOT LIKE '%mug%'"
  = Ok "select title FROM items WHERE color LIKE '%coffee%' AND title NOT LIKE '%mug%'".
Proof.
  apply (rewrite_sql_noop (Demo.tool (Ok []) 512)
           "select title from things where color LIKE '%coffee%' AND title NOT LIKE '%mug%'"
           "select title FROM items WHERE color LIKE '%coffee%' AND title NOT LIKE '%mug%'"
           ["color"; "title"]).
  - vm_compute. reflexivity.
  - vm_compute. reflexivity.
  - repeat constructor; compute_done.
  - replace (Re.findall_like _) with [("color", "coffee"); ("title", "mug")]
      by (vm_compute; reflexivity).
    constructor; [|constructor; [|apply Forall_nil_2]]; cbn [fst snd]; intros Hin.
    + split; vm_compute; reflexivity.
    + exfalso. revert Hin. compute_done.
Defined.

End grounding_demo.

(** ** The LIKE pattern *)

Section like.

Lemma span_spec (p : Ascii.ascii → bool) (s run rest : string) :
  Re.span p s = (run, rest) → s = run +:+ rest ∧ all_chars p run = true.
Proof.
  revert run rest. induction s as [|c s IH]; intros run rest; simpl.
  { by intros [= <- <-]. }
  destruct (p c) eqn:Hc; [|by intros [= <- <-]].
  destruct (Re.span p s) as [run' rest']. intros [= <- <-].
  destruct (IH _ _ eq_refl) as [-> Hrun].
  split; [done |]. simpl. by rewrite Hc.
Qed.

Lemma plus_spec (p : Ascii.ascii → bool) (s run rest : string) :
  Re.plus p s = Some (run, rest) →
  s = run +:+ rest ∧ all_chars p run = true ∧ run ≠ EmptyString.
Proof.
  unfold Re.plus. destruct (Re.span p s) as [run' rest'] eqn:Hspan.
  apply span_spec in Hspan as [-> Hrun].
  destruct run' as [|c run']; [done |]. by intros [= <- <-].
Qed.

Lemma lit_spec (p s rest : string) : Re.lit false p s = Some rest → s = p +:+ rest.
Proof.
  revert s. induction p as [|a p IH]; intros [|b s]; simpl; try done.
  - by intros [= <-].
  - by intros [= <-].
  - destruct (Ascii.eqb a b) eqn:E; [|done]. apply Ascii.eqb_eq in E as ->.
    intros H. rewrite app_String. f_equal. by apply IH.
Qed.

(** A match of the pattern is the text it describes. *)
Lemma match_like_spec (s col value : string) (n : nat) :
  Re.match_like s = Some (col, value, n) →
  ∃ negation rest,
    (negation = EmptyString ∨ negation = "NOT ") ∧
    s = col +:+ " " +:+ negation +:+ "LIKE '%" +:+ value +:+ "%'" +:+ rest ∧
    all_chars Re.is_word col = true ∧ col ≠ EmptyString ∧
    all_chars Re.not_percent value = true ∧ value ≠ EmptyString.
Proof.
  unfold Re.match_like. intros H.
  apply bind_Some in H as ([col' s1] & Hcol & H).
  apply bind_Some in H as (s2 & Hsp & H).
  destruct (Re.lit false "NOT " s2) as [s3|] eqn:Hnot;
    cbn [default] in H;
    apply bind_Some in H as (s4 & Hlike & H);
    apply bind_Some in H as ([value' s5] & Hvalue & H);
    apply bind_Some in H as (s6 & Hend & H);
    injection H as <- <- <-;
    apply plus_spec in Hcol as (-> & Hword & Hcol);
    apply plus_spec in Hvalue as (Hs4 & Hpct & Hvalue);
    apply lit_spec in Hsp as ->; apply lit_spec in Hlike; apply lit_spec in Hend as ->.
  - apply lit_spec in Hnot as ->. unfold id in Hlike. subst.
    exists "NOT ", s6. by split_and!; [right | ..].
  - unfold id in Hlike. subst.
    exists EmptyString, s6. by split_and!; [left | ..].
Qed.

Lemma findall_scan_sound (skip : nat) (s col value : string) :
  (col, value) ∈ Re.findall_scan skip s →
  ∃ before matched n, s = before +:+ matched ∧ Re.match_like matched = Some (col, value, n).
Proof.
  revert skip. induction s as [|c s IH]; intros skip; cbn [Re.findall_scan].
  { by intros ?%elem_of_nil. }
  assert (∀ k, (col, value) ∈ Re.findall_scan k s →
    ∃ before matched n, String c s = before +:+ matched ∧
                        Re.match_like matched = Some (col, value, n)) as Htail.
  { intros k (before & matched & n & -> & Hm)%IH.
    exists (String c before), matched, n. by rewrite app_String. }
  destruct skip as [|skip]; [|apply Htail].
  destruct (Re.match_like (String c s)) as [[[col' value'] n]|] eqn:Hm; [|apply Htail].
  intros [[= -> ->] | Hin]%elem_of_cons; [|by eapply Htail].
  by exists EmptyString, (String c s), n.
Qed.

End like.

(** X6.  What [re.findall] returns for the LIKE pattern is in the query:
    every pair is a non-empty column name made of letters, digits and
    underscores, and a non-empty value without a percent sign, that stand
    in the query as [col LIKE '%value%'] or [col NOT LIKE '%value%']. *)
Theorem findall_like_sound (sql col value : string) :
  (col, value) ∈ Re.findall_like sql →
  ∃ before negation rest,
    (negation = EmptyString ∨ negation = "NOT ") ∧
    sql = before +:+ col +:+ " " +:+ negation +:+ "LIKE '%" +:+ value +:+ "%'" +:+ rest ∧
    all_chars Re.is_word col = true ∧ col ≠ EmptyString ∧
    all_chars Re.not_percent value = true ∧ value ≠ EmptyString.
Proof.
  intros (before & matched & n & -> & Hm)%findall_scan_sound.
  apply match_like_spec in Hm as (negation & rest & Hneg & -> & Hcol).
  by exists before, negation, rest.
Qed.

Lemma findall_like_sound_witness :
  ∃ before negation rest,
    (negation = EmptyString ∨ negation = "NOT ") ∧
    "SELECT * FROM items WHERE a.title NOT LIKE '%red mug%' AND x LIKE '%%'"
    = before +:+ "title" +:+ " " +:+ negation +:+ "LIKE '%" +:+ "red mug" +:+ "%'" +:+ rest ∧
    all_chars Re.is_word "title" = true ∧ "title" ≠ EmptyString ∧
    all_chars Re.not_percent "red mug" = true ∧ "red mug" ≠ EmptyString.
Proof.
  apply (findall_like_sound
           "SELECT * FROM items WHERE a.title NOT LIKE '%red mug%' AND x LIKE '%%'"
           "title" "red mug").
  compute_done.
Defined.

(** ** The normalisation of the FROM target *)

Section from_where.

Lemma word_not_space (c : Ascii.ascii) : Re.is_w c = true → Re.is_space c = false.
Proof. destruct c as [[] [] [] [] [] [] [] []]; vm_compute; congruence. Qed.

Lemma space_not_word (c : Ascii.ascii) : Re.is_space c = true → Re.is_w c = false.
Proof. destruct c as [[] [] [] [] [] [] [] []]; vm_compute; congruence. Qed.

Lemma lower_w_not_space (c : Ascii.ascii) :
  Re.lower c = Ascii.ascii_of_nat 119 → Re.is_space c = false.
Proof. destruct c as [[] [] [] [] [] [] [] []]; vm_compute; congruence. Qed.

Lemma span_app (p : Ascii.ascii → bool) (a b : string) :
  all_chars p a = true → Re.span p b = (EmptyString, b) → Re.span p (a +:+ b) = (a, b).
Proof.
  intros Ha Hb. induction a as [|c a IH]; [done |].
  cbn [all_chars] in Ha. apply andb_true_iff in Ha as [Hc Ha].
  rewrite app_String. cbn [Re.span]. by rewrite Hc, IH.
Qed.

Lemma span_stop (p : Ascii.ascii → bool) (c : Ascii.ascii) (s : string) :
  p c = false → Re.span p (String c s) = (EmptyString, String c s).
Proof. intros Hc. cbn [Re.span]. by rewrite Hc. Qed.

Lemma plus_app (p : Ascii.ascii → bool) (a b : string) :
  all_chars p a = true → a ≠ EmptyString → Re.span p b = (EmptyString, b) →
  Re.plus p (a +:+ b) = Some (a, b).
Proof.
  intros Ha Hne Hb. unfold Re.plus. rewrite span_app by done. by destruct a.
Qed.

Lemma lit_ci (p kw rest : string) :
  lower_text kw = lower_text p → Re.lit true p (kw +:+ rest) = Some rest.
Proof.
  revert kw. induction p as [|a p IH]; intros [|b kw]; try done.
  cbn [lower_text]. intros [= Hb Hkw]. rewrite app_String. cbn [Re.lit].
  by rewrite Hb, Ascii.eqb_refl, IH.
Qed.

Lemma match_from_where_none (c : Ascii.ascii) (s : string) :
  not_f c = true → Re.match_from_where (String c s) = None.
Proof.
  unfold not_f, Re.match_from_where. intros Hc%negb_true_iff.
  cbn [Re.lit]. rewrite Ascii.eqb_sym.
  change (Re.lower (Ascii.Ascii false true true false false false true false))
    with (Ascii.ascii_of_nat 102).
  by rewrite Hc.
Qed.

(** Text without an [f] holds no match and is copied. *)
Lemma sub_scan_copy (prev : option Ascii.ascii) (repl a b : string) :
  all_chars not_f a = true →
  Re.sub_scan O prev repl (a +:+ b) = a +:+ Re.sub_scan O (last_char prev a) repl b.
Proof.
  revert prev. induction a as [|c a IH]; intros prev Ha; [done |].
  cbn [all_chars] in Ha. apply andb_true_iff in Ha as [Hc Ha].
  rewrite !app_String. cbn [Re.sub_scan last_char].
  rewrite (match_from_where_none c _ Hc). rewrite IH by done.
  by destruct (Re.boundary prev).
Qed.

Lemma sub_scan_skip (prev : option Ascii.ascii) (repl a b : string) :
  Re.sub_scan (String.length a) prev repl (a +:+ b)
  = Re.sub_scan O (last_char prev a) repl b.
Proof.
  revert prev. induction a as [|c a IH]; intros prev; [done |].
  rewrite app_String. cbn [String.length Re.sub_scan last_char]. apply IH.
Qed.

Lemma match_from_where_shape (kw_from sp1 table sp2 kw_where rest : string) :
  lower_text kw_from = "from" → lower_text kw_where = "where" →
  all_chars Re.is_space sp1 = true → sp1 ≠ EmptyString →
  all_chars Re.is_w table = true → table ≠ EmptyString →
  all_chars Re.is_space sp2 = true → sp2 ≠ EmptyString →
  Re.match_from_where (kw_from +:+ sp1 +:+ table +:+ sp2 +:+ kw_where +:+ rest)
  = Some (String.length (kw_from +:+ sp1 +:+ table +:+ sp2 +:+ kw_where)).
Proof.
  intros Hfrom Hwhere Hsp1 Hne1 Htable Hnet Hsp2 Hne2. unfold Re.match_from_where.
  rewrite (lit_ci "FROM" kw_from) by done. cbn [mbind option_bind].
  rewrite (plus_app Re.is_space sp1); [| done | done |].
  2:{ destruct table as [|c t]; [done |]. rewrite app_String. apply span_stop.
      cbn [all_chars] in Htable. apply andb_true_iff in Htable as [Hc _].
      by apply word_not_space. }
  cbn [mbind option_bind].
  rewrite (plus_app Re.is_w table); [| done | done |].
  2:{ destruct sp2 as [|c t]; [done |]. rewrite app_String. apply span_stop.
      cbn [all_chars] in Hsp2. apply andb_true_iff in Hsp2 as [Hc _].
      by apply space_not_word. }
  cbn [mbind option_bind].
  rewrite (plus_app Re.is_space sp2); [| done | done |].
  2:{ destruct kw_where as [|c t]; [done |]. rewrite app_String. apply span_stop.
      cbn [lower_text] in Hwhere. injection Hwhere as Hc _.
      by apply lower_w_not_space. }
  cbn [mbind option_bind].
  rewrite (lit_ci "WHERE" kw_where) by done. cbn [mbind option_bind].
  f_equal. rewrite !app_length_s. lia.
Qed.

End from_where.

(** X7.  The first step of [rewrite_sql] replaces the FROM target whatever
    it is.  The replacement holds no backslash, so that [re] inserts it as
    it is written.  In a query made of a head without the letter f that
    does not end in a character of [\w], the keyword FROM in any letter
    case, white space of [\s], a table name of characters of [\w], white
    space, the keyword WHERE in any letter case and a tail without the
    letter f, the part from FROM to WHERE becomes the replacement and the
    rest is kept. *)
Theorem sub_from_where_any_table {pylib : PyLib}
    (repl head kw_from sp1 table sp2 kw_where tail : string) :
  Re.has_backslash repl = false →
  all_chars not_f head = true → Re.boundary (last_char None head) = true →
  lower_text kw_from = "from" → lower_text kw_where = "where" →
  all_chars Re.is_space sp1 = true → sp1 ≠ EmptyString →
  all_chars Re.is_w table = true → table ≠ EmptyString →
  all_chars Re.is_space sp2 = true → sp2 ≠ EmptyString →
  all_chars not_f tail = true →
  Re.sub_from_where repl
    (head +:+ kw_from +:+ sp1 +:+ table +:+ sp2 +:+ kw_where +:+ tail)
  = Ok (head +:+ repl +:+ tail).
Proof.
  intros Hrepl Hhead Hb Hfrom Hwhere Hsp1 Hne1 Htable Hnet Hsp2 Hne2 Htail.
  unfold Re.sub_from_where. rewrite Hrepl. f_equal.
  rewrite sub_scan_copy by done. f_equal.
  pose proof (match_from_where_shape kw_from sp1 table sp2 kw_where tail
                Hfrom Hwhere Hsp1 Hne1 Htable Hnet Hsp2 Hne2) as Hm.
  destruct kw_from as [|c kw]; [done |].
  rewrite !app_String in *. cbn [Re.sub_scan]. rewrite Hb, Hm. f_equal.
  cbn [String.length]. rewrite Nat.sub_succ, Nat.sub_0_r.
  replace (kw +:+ sp1 +:+ table +:+ sp2 +:+ kw_where +:+ tail)
    with ((kw +:+ sp1 +:+ table +:+ sp2 +:+ kw_where) +:+ tail)
    by (by rewrite !app_assoc_s).
  rewrite sub_scan_skip.
  rewrite <- (app_empty_r tail) at 1. rewrite sub_scan_copy by done.
  by rewrite app_empty_r.
Qed.

Lemma sub_from_where_any_table_witness :
  Re.sub_from_where (pylib := Demo.pylib) "FROM items WHERE"
    ("SELECT * " +:+ "From" +:+ "  " +:+ Demo.cafe +:+ Demo.nbsp +:+ "where"
     +:+ " colr LIKE '%coee%'")
  = Ok ("SELECT * " +:+ "FROM items WHERE" +:+ " colr LIKE '%coee%'").
Proof.
  apply (sub_from_where_any_table (pylib := Demo.pylib) "FROM items WHERE" "SELECT * "
           "From" "  " Demo.cafe Demo.nbsp "where" " colr LIKE '%coee%'");
    first [reflexivity | discriminate].
Defined.

(** ** What the shrink loop keeps *)

Section kept.
Context {utils : Utils}.

Lemma field_kept_refl (v : value) : field_kept v v.
Proof. unfold field_kept. by split_and!. Qed.

Lemma field_kept_trans (v1 v2 v3 : value) :
  field_kept v1 v2 → field_kept v2 v3 → field_kept v1 v3.
Proof.
  unfold field_kept. intros (Hle1 & Hshort1 & Hfloor1) (Hle2 & Hshort2 & Hfloor2).
  split_and!.
  - lia.
  - intros Hn. rewrite Hshort2; [by apply Hshort1 | lia].
  - intros Hn. apply Hfloor2. by apply Hfloor1.
Qed.

Lemma record_kept_refl (r : record) : record_kept r r.
Proof. apply Forall_Forall2_diag, Forall_forall. intros kv _. split; [done | apply field_kept_refl]. Qed.

Lemma record_kept_trans (r1 r2 r3 : record) :
  record_kept r1 r2 → record_kept r2 r3 → record_kept r1 r3.
Proof.
  unfold record_kept. intros H12. revert r3.
  induction H12 as [|kv1 kv2 r1 r2 [Hk12 Hf12] _ IH]; intros r3 H23;
    inversion H23 as [|? kv3 ? r3' [Hk23 Hf23] H23']; subst; constructor.
  - split; [congruence | by eapply field_kept_trans].
  - by apply IH.
Qed.

Lemma field_step_kept (v : value) (s' : string) (cut : bool) :
  field_step (py_str v) s' cut → field_kept v (VStr s').
Proof.
  unfold field_kept. cbn [py_str].
  intros [[_ ->] | (_ & H5 & n & Hn & H3 & ->)]; [by split_and! |].
  unfold cut_text. rewrite split_cut_length by lia. split_and!; lia.
Qed.

Lemma shrink_pass_kept (overflow_token : Z) (cut_last cut_last' : bool) (r r' : record) :
  shrink_pass overflow_token cut_last r = Ok (r', cut_last') →
  record_kept r r' ∧ Forall (λ kv, is_text kv.2) r'.
Proof.
  intros (co & k2t & fields' & -> & H)%shrink_pass_inv.
  apply cut_fields_steps in H. unfold stringify, as_record, record_kept in *.
  apply Forall2_fmap_l in H. split.
  - apply Forall2_fmap_r. eapply Forall2_impl; [exact H |].
    intros [k v] [k' s'] [Hk [cut Hstep]]. cbn [fst snd] in *.
    split; [done |]. by eapply field_step_kept.
  - apply Forall_fmap, Forall_forall. intros [k s'] _. by exists s'.
Qed.

(** The loop: what it returns is [record_kept] from what it was given,
    and is made of texts once a pass has run. *)
Lemma shrink_loop_kept (fuel : nat) (limit overflow_token : Z) (cut_last : bool)
    (r r' : record) (passes : nat) :
  shrink_loop fuel limit overflow_token cut_last r = (Exited r', passes) →
  record_kept r r' ∧
  ((passes = O ∧ r' = r ∧ (0 <? overflow_token) && cut_last = false) ∨
   ((0 < passes)%nat ∧ (0 <? overflow_token) && cut_last = true ∧
    Forall (λ kv, is_text kv.2) r')).
Proof.
  revert overflow_token cut_last r passes.
  induction fuel as [|fuel IH]; intros o c r passes H; simpl in H;
    destruct ((0 <? o) && c) eqn:Hcond; try done;
    try (injection H as <- <-; split; [apply record_kept_refl | by left]).
  destruct (shrink_pass o c r) as [[r1 c1]| e |] eqn:Hpass; [|done..].
  destruct (shrink_loop fuel _ _ _ _) as [exit p1] eqn:Hloop.
  injection H as -> <-.
  apply shrink_pass_kept in Hpass as [Hkept1 Htext1].
  apply IH in Hloop as [Hkept2 Hcase].
  split; [by eapply record_kept_trans |]. right. split_and!; [lia | done |].
  by destruct Hcase as [(_ & -> & _) | (_ & _ & ?)].
Qed.

End kept.

(** X9.  A record within its allowance is returned as it is.  A record
    over its allowance comes back with every value a text: whatever the
    passes cut, a number, a truth value or [None] has become its [str]. *)
Theorem shrink_record_texts {utils : Utils} (limit : Z) (r r' : record) :
  shrink_record limit r = Ok r' →
  (num_tokens_from_string (Json.dumps_record r) ≤ limit ∧ r' = r) ∨
  (limit < num_tokens_from_string (Json.dumps_record r) ∧
   Forall (λ kv, is_text kv.2) r').
Proof.
  unfold shrink_record. intros H.
  destruct (shrink_loop _ _ _ _ _) as [[r1 | e |] passes] eqn:Hloop; [|done..].
  injection H as ->. apply shrink_loop_kept in Hloop as [_ Hcase].
  destruct Hcase as [(_ & -> & Hcond) | (_ & Hcond & Htext)];
    rewrite andb_true_r in Hcond.
  - left. apply Z.ltb_ge in Hcond. split; [lia | done].
  - right. apply Z.ltb_lt in Hcond. split; [lia | done].
Qed.

Section kept_demo.
#[local] Existing Instance Demo.utils.

Lemma shrink_record_texts_witness :
  (num_tokens_from_string (Json.dumps_record Demo.mug) ≤ 59 ∧ Demo.mug_after_pass = Demo.mug) ∨
  (59 < num_tokens_from_string (Json.dumps_record Demo.mug) ∧
   Forall (λ kv, is_text kv.2) Demo.mug_after_pass).
Proof.
  apply (shrink_record_texts 59 Demo.mug Demo.mug_after_pass).
  vm_compute. reflexivity.
Defined.

End kept_demo.

(** ** A field without tokens *)

Section zero.
Context {utils : Utils}.

Lemma dict_get_fmap {X Y : Type} (f : X → Y) (l : list (string * X)) (k : string) (x : X) :
  NoDup l.*1 → (k, x) ∈ l → dict_get k ((λ kv, (kv.1, f kv.2)) <$> l) = Ok (f x).
Proof.
  induction l as [|[k0 x0] l IH]; csimpl; [by intros _ ?%elem_of_nil |].
  intros [Hk0 Hnd]%NoDup_cons [[= -> ->] | Hin]%elem_of_cons.
  - by rewrite String.eqb_refl.
  - destruct (String.eqb k k0) eqn:E; [|by apply IH].
    apply String.eqb_eq in E as ->. exfalso. apply Hk0.
    apply list_elem_of_fmap. by exists (k0, x).
Qed.

Lemma mapM_Ok_fmap {X Y : Type} (f : X → result Y) (g : X → Y) (l : list X) :
  (∀ x, f x = Ok (g x)) → mapM f l = Ok (g <$> l).
Proof.
  intros Hf. induction l as [|x l IH]; [done |].
  cbn [mapM]. rewrite Hf. cbn [mbind result_bind rbind]. rewrite IH. done.
Qed.

Lemma cut_field_nonzero (cut_off key_token : Z) (v : string) :
  key_token ≠ 0 → ∃ v' cut, cut_field cut_off key_token v = Ok (v', cut).
Proof.
  intros Hne%Z.eqb_neq. unfold cut_field. rewrite Hne.
  repeat (match goal with |- context [if ?b then _ else _] => destruct b end); eauto.
Qed.

(** The second [for] stops with [ZeroDivisionError] at the first field
    whose text has no token. *)
Lemma cut_fields_zero (cut_off_token key2token : list (string * Z))
    (fields : list (string * string)) (cut_last : bool) :
  (∀ k v, (k, v) ∈ fields →
     (∃ c, dict_get k cut_off_token = Ok c) ∧
     dict_get k key2token = Ok (num_tokens_from_string v)) →
  (∃ k v, (k, v) ∈ fields ∧ num_tokens_from_string v = 0) →
  cut_fields cut_off_token key2token fields cut_last = Raise ZeroDivisionError.
Proof.
  revert cut_last. induction fields as [|[k v] rest IH]; intros c0 Hget (k0 & v0 & Hin & Hzero).
  { by apply elem_of_nil in Hin. }
  cbn [cut_fields].
  destruct (Hget k v ltac:(apply elem_of_cons; by left)) as [[c ->] ->].
  cbn [mbind result_bind rbind].
  destruct (decide (num_tokens_from_string v = 0)) as [Hv | Hv].
  { unfold cut_field. rewrite Hv. done. }
  destruct (cut_field_nonzero c _ v Hv) as (v' & cut & ->).
  cbn [mbind result_bind rbind]. rewrite IH; [done | |].
  - intros k1 v1 Hin1. apply Hget, elem_of_cons. by right.
  - apply elem_of_cons in Hin as [[= -> ->] | Hin]; [done |]. by exists k0, v0.
Qed.

Lemma shrink_pass_zero (overflow_token : Z) (cut_last : bool) (r : record)
    (k : string) (v : value) :
  NoDup r.*1 → (k, v) ∈ r → num_tokens_from_string (py_str v) = 0 →
  shrink_pass overflow_token cut_last r = Raise ZeroDivisionError.
Proof.
  intros Hnd Hin Hzero. unfold shrink_pass.
  assert ((stringify r).*1 = r.*1) as Hkeys.
  { unfold stringify. rewrite <- list_fmap_compose. by apply list_fmap_ext. }
  remember (stringify r) as fields eqn:Hfields.
  remember ((λ kv : string * string, (kv.1, num_tokens_from_string kv.2)) <$> fields)
    as key2token eqn:Hk2t.
  assert (key2token.*1 = r.*1) as Hkeys2.
  { rewrite Hk2t, <- list_fmap_compose, <- Hkeys. by apply list_fmap_ext. }
  destruct (sum_tokens key2token =? 0) eqn:Hall.
  - destruct key2token as [|kt rest].
    + destruct r; [by apply elem_of_nil in Hin | done].
    + reflexivity.
  - rewrite (mapM_Ok_fmap _
      (λ kv : string * Z, (kv.1, (overflow_token * kv.2) `div` sum_tokens key2token)))
      by done.
    cbn [mbind result_bind rbind].
    rewrite cut_fields_zero; [done | |].
    + intros k1 s1 Hin1. split.
      * eexists.
        apply (dict_get_fmap (λ t, (overflow_token * t) `div` sum_tokens key2token)
                 key2token k1 (num_tokens_from_string s1)).
        -- by rewrite Hkeys2.
        -- rewrite Hk2t. apply list_elem_of_fmap. by exists (k1, s1).
      * rewrite Hk2t.
        apply (dict_get_fmap num_tokens_from_string fields k1 s1); [by rewrite Hkeys | done].
    + exists k, (py_str v). split; [|done].
      rewrite Hfields. unfold stringify. apply list_elem_of_fmap. by exists (k, v).
Qed.

End zero.

(** X10.  A record over its allowance that has a field whose text counts
    no token (an empty text under a tokenizer) cannot be shrunk: the first
    pass divides by that count and the shrink raises [ZeroDivisionError],
    which [run] turns into its fallback answer. *)
Theorem shrink_record_zero_tokens {utils : Utils} (limit : Z) (r : record)
    (k : string) (v : value) :
  NoDup r.*1 → (k, v) ∈ r → num_tokens_from_string (py_str v) = 0 →
  limit < num_tokens_from_string (Json.dumps_record r) →
  shrink_record limit r = Raise ZeroDivisionError.
Proof.
  intros Hnd Hin Hzero Hover. unfold shrink_record. cbn [shrink_loop].
  replace (0 <? num_tokens_from_string (Json.dumps_record r) - limit) with true
    by (symmetry; apply Z.ltb_lt; lia).
  cbn [andb]. by rewrite (shrink_pass_zero _ _ r k v).
Qed.

Section zero_demo.
#[local] Existing Instance Demo.utils.

Lemma shrink_record_zero_tokens_witness :
  shrink_record 10 [("title", VStr "mug"); ("description", VStr EmptyString)]
  = Raise ZeroDivisionError.
Proof.
  apply (shrink_record_zero_tokens 10 [("title", VStr "mug"); ("description", VStr EmptyString)]
           "description" (VStr EmptyString)).
  - compute_done.
  - apply list_elem_of_In. simpl. tauto.
  - reflexivity.
  - vm_compute. reflexivity.
Defined.

End zero_demo.

(** ** What [run] answers and what it leaves behind *)

Section answers.
Context {utils : Utils} {pylib : PyLib}.
Variable self : QueryTool.t.

Lemma mapM_length {X Y : Type} (f : X → result Y) (l : list X) (l' : list Y) :
  mapM f l = Ok l' → length l' = length l.
Proof.
  revert l'. induction l as [|x l IH]; intros l' H; cbn [mapM] in H.
  { by injection H as <-. }
  apply bind_Ok in H as (y & _ & H). apply bind_Ok in H as (k & Hk & H).
  injection H as <-. cbn [length]. by rewrite (IH k).
Qed.

End answers.

(** X11.  The usage buffer: a call of [run] whose rewrite step succeeds
    gives the buffer exactly one entry, the tool's name with the rewritten
    query and the fixed label, whether the execution then succeeds or
    raises; a call whose rewrite step fails gives it no entry and leaves
    the generator as it was. *)
Theorem run_tracks_usage {utils : Utils} {pylib : PyLib} (self : QueryTool.t) (fuel : nat)
    (inputs out : string) (w w' : World) :
  QueryTool.run self fuel inputs w = Ok (out, w') →
  (∀ q, QueryTool.rewrite_sql self inputs = Ok q →
     tracked w' = tracked w ++ [(QueryTool.name self, q, "Some item information.")]) ∧
  (∀ e, QueryTool.rewrite_sql self inputs = Raise e →
     tracked w' = tracked w ∧ random_state w' = random_state w).
Proof.
  intros Hrun. split.
  - intros q Hrw.
    destruct (QueryTool.search self fuel q (QueryTool.rewrite_notice self q) (random_state w))
      as [[[info output]| e |] g] eqn:Hsearch.
    + rewrite (run_search_ok self fuel inputs q info output w g Hrw Hsearch) in Hrun.
      by injection Hrun as <- <-.
    + rewrite (run_search_raise self fuel inputs q w e g Hrw Hsearch) in Hrun.
      by injection Hrun as <- <-.
    + by rewrite (run_search_diverge self fuel inputs q w g Hrw Hsearch) in Hrun.
  - intros e Hrw. rewrite (run_rewrite_failure self fuel inputs w e Hrw) in Hrun.
    by injection Hrun as <- <-.
Qed.

(** X12.  The three answers of [run]: the failure message (the rewrite
    step failed), the text [can not seach related information.] (a later
    step raised), or the serialization of a list of records; for a tool
    built by the constructor with budget [B] that list has at most
    [B // 5] records. *)
Theorem run_answers {utils : Utils} {pylib : PyLib} (name desc : string)
    (corpus : BaseGallery.t) (B : Z) (fuel : nat) (inputs out : string) (w w' : World) :
  let self := QueryTool.__init__ name desc corpus B in
  QueryTool.run self fuel inputs w = Ok (out, w') →
  out = QueryTool.broken_message self ∨
  out = "can not seach related information." ∨
  ∃ final, out = Json.dumps final ∧ Z.of_nat (length final) ≤ B `div` 5.
Proof.
  intros self Hrun.
  destruct (QueryTool.rewrite_sql self inputs) as [q| e |] eqn:Hrw.
  - destruct (QueryTool.search self fuel q (QueryTool.rewrite_notice self q) (random_state w))
      as [[[info output]| e |] g] eqn:Hsearch.
    + rewrite (run_search_ok self fuel inputs q info output w g Hrw Hsearch) in Hrun.
      injection Hrun as <- <-. right. right.
      apply search_ok_inv in Hsearch as (res0 & res & any_cut & _ & Hcap & Hrender).
      apply record_cap_inv in Hcap as [Hlen _]. change (QueryTool._max_record_num self)
        with (B `div` 5) in Hlen.
      apply render_inv in Hrender as [_ Hout].
      destruct Hout as [[_ ->] | (_ & cut_res & Hmap & [[_ ->] | [_ ->]])].
      * by exists res.
      * exists cut_res. split; [done |]. apply mapM_length in Hmap. lia.
      * eexists. split; [done |]. apply mapM_length in Hmap.
        destruct (cut_list_spec cut_res (QueryTool.result_max_token self))
          as [Hpre%prefix_length _]. lia.
    + rewrite (run_search_raise self fuel inputs q w e g Hrw Hsearch) in Hrun.
      injection Hrun as <- <-. right. by left.
    + by rewrite (run_search_diverge self fuel inputs q w g Hrw Hsearch) in Hrun.
  - rewrite (run_rewrite_failure self fuel inputs w e Hrw) in Hrun.
    injection Hrun as <- <-. by left.
  - unfold QueryTool.run in Hrun. by rewrite Hrw in Hrun.
Qed.

(** X14.  A negative budget: every query whose rewriting and execution
    succeed is answered with the fallback text, because the record cap
    asks [random.sample] for a negative number of records and the
    [ValueError] is caught. *)
Theorem run_negative_budget {utils : Utils} {pylib : PyLib} (name desc : string)
    (corpus : BaseGallery.t) (B : Z) (fuel : nat) (inputs q : string) (res : list record)
    (w : World) :
  let self := QueryTool.__init__ name desc corpus B in
  B < 0 →
  QueryTool.rewrite_sql self inputs = Ok q →
  BaseGallery.query corpus q = Ok res →
  ∃ w', QueryTool.run self fuel inputs w = Ok ("can not seach related information.", w') ∧
        LogExn ValueError ∈ debug_log w' ∧ random_state w' = random_state w.
Proof.
  intros self HB Hrw Hquery.
  assert (QueryTool.search self fuel q (QueryTool.rewrite_notice self q) (random_state w)
          = (Raise ValueError, random_state w)) as Hsearch.
  { unfold QueryTool.search. change (QueryTool.item_corpus self) with corpus.
    rewrite Hquery. unfold QueryTool.record_cap, random_sample.
    change (QueryTool._max_record_num self) with (B `div` 5).
    assert (B `div` 5 < 0) as Hk by (apply Z.div_lt_upper_bound; lia).
    replace (B `div` 5 <? Z.of_nat (length res)) with true by (symmetry; apply Z.ltb_lt; lia).
    replace (B `div` 5 <? 0) with true by (symmetry; by apply Z.ltb_lt).
    done. }
  eexists. split; [exact (run_search_raise self fuel inputs q w _ _ Hrw Hsearch) |].
  unfold world_after. cbn [debug_log random_state]. split; [|done].
  rewrite !elem_of_app. right. right. left. by apply list_elem_of_singleton.
Qed.

(** X15.  A budget from 0 to 4 leaves room for no record: every query
    whose rewriting and execution succeed is answered with the empty
    list. *)
Theorem run_budget_below_five {utils : Utils} {pylib : PyLib} (name desc : string)
    (corpus : BaseGallery.t) (B : Z) (fuel : nat) (inputs q : string) (res : list record)
    (w : World) :
  let self := QueryTool.__init__ name desc corpus B in
  0 ≤ B < 5 →
  QueryTool.rewrite_sql self inputs = Ok q →
  BaseGallery.query corpus q = Ok res →
  ∃ w', QueryTool.run self fuel inputs w = Ok ("[]", w').
Proof.
  intros self HB Hrw Hquery.
  assert (B `div` 5 = 0) as Hk by (apply Z.div_small; lia).
  assert (∃ info g,
    QueryTool.search self fuel q (QueryTool.rewrite_notice self q) (random_state w)
    = (Ok (info, "[]"), g)) as (info & g & Hsearch).
  { unfold QueryTool.search. change (QueryTool.item_corpus self) with corpus.
    rewrite Hquery. unfold QueryTool.record_cap, random_sample.
    change (QueryTool._max_record_num self) with (B `div` 5). rewrite Hk.
    assert (∀ any_cut info0, ∃ info,
      QueryTool.render self [] any_cut info0 = Ok (info, "[]")) as Hrender.
    { intros any_cut info0. unfold QueryTool.render.
      destruct (_ <? _); [|by eexists].
      cbn [mapM mbind mret result_bind result_ret rbind].
      assert (cut_list [] (QueryTool.result_max_token self) = []) as ->.
      { unfold cut_list. cbn [length cut_list_from take]. by destruct (_ <=? _). }
      destruct (_ <? _); by eexists. }
    destruct (0 <? Z.of_nat (length res)) eqn:Hlen.
    - replace ((0 <? 0) || (Z.of_nat (length res) <? 0)) with false
        by (symmetry; apply orb_false_iff; split; apply Z.ltb_ge; lia).
      change (Z.to_nat 0) with O.
      destruct (Z.of_nat (length res) <=? setsize 0);
        cbn [sample_loop sample_set mbind result_bind rbind];
        destruct (Hrender true (QueryTool.rewrite_notice self q)) as [info ->]; eauto.
    - apply Z.ltb_ge in Hlen. destruct res; [|simpl in Hlen; lia].
      destruct (Hrender false (QueryTool.rewrite_notice self q)) as [info ->]. eauto. }
  eexists. exact (run_search_ok self fuel inputs q info "[]" w g Hrw Hsearch).
Qed.

Section answers_demo.
#[local] Existing Instance Demo.utils.
#[local] Existing Instance Demo.pylib.

Lemma run_tracks_usage_witness :
  (∀ q, QueryTool.rewrite_sql (Demo.tool (Raise CorpusError) 512) Demo.scenario_sql = Ok q →
     tracked (world_after (Demo.tool (Raise CorpusError) 512) Demo.scenario_sql
                "SELECT * FROM items WHERE color LIKE '%coffee%'"
                (QueryTool.rewrite_notice (Demo.tool (Raise CorpusError) 512)
                   "SELECT * FROM items WHERE color LIKE '%coffee%'"
                 +:+ QueryTool.broken_message (Demo.tool (Raise CorpusError) 512))
                Demo.zeros (Some CorpusError) (Demo.world Demo.zeros))
     = tracked (Demo.world Demo.zeros) ++ [("query", q, "Some item information.")]) ∧
  (∀ e, QueryTool.rewrite_sql (Demo.tool (Raise CorpusError) 512) Demo.scenario_sql = Raise e →
     tracked (world_after (Demo.tool (Raise CorpusError) 512) Demo.scenario_sql
                "SELECT * FROM items WHERE color LIKE '%coffee%'"
                (QueryTool.rewrite_notice (Demo.tool (Raise CorpusError) 512)
                   "SELECT * FROM items WHERE color LIKE '%coffee%'"
                 +:+ QueryTool.broken_message (Demo.tool (Raise CorpusError) 512))
                Demo.zeros (Some CorpusError) (Demo.world Demo.zeros))
     = tracked (Demo.world Demo.zeros) ∧
     random_state (world_after (Demo.tool (Raise CorpusError) 512) Demo.scenario_sql
                "SELECT * FROM items WHERE color LIKE '%coffee%'"
                (QueryTool.rewrite_notice (Demo.tool (Raise CorpusError) 512)
                   "SELECT * FROM items WHERE color LIKE '%coffee%'"
                 +:+ QueryTool.broken_message (Demo.tool (Raise CorpusError) 512))
                Demo.zeros (Some CorpusError) (Demo.world Demo.zeros))
     = random_state (Demo.world Demo.zeros)).
Proof.
  apply (run_tracks_usage (Demo.tool (Raise CorpusError) 512) 0 Demo.scenario_sql
           "can not seach related information." (Demo.world Demo.zeros)).
  apply (run_search_raise (Demo.tool (Raise CorpusError) 512) 0 Demo.scenario_sql
           "SELECT * FROM items WHERE color LIKE '%coffee%'" (Demo.world Demo.zeros)
           CorpusError Demo.zeros).
  - vm_compute. reflexivity.
  - reflexivity.
Defined.

Lemma run_answers_witness :
  let self := QueryTool.__init__ "query" "looks up items"
                (Demo.corpus (Ok [Demo.mug; Demo.cup; Demo.cup; Demo.mug])) 12 in
  Json.dumps [Demo.cup; [("description", VStr "one two three..."); ("id", VStr "7")]]
    = QueryTool.broken_message self ∨
  Json.dumps [Demo.cup; [("description", VStr "one two three..."); ("id", VStr "7")]]
    = "can not seach related information." ∨
  ∃ final,
    Json.dumps [Demo.cup; [("description", VStr "one two three..."); ("id", VStr "7")]]
      = Json.dumps final ∧ Z.of_nat (length final) ≤ 12 `div` 5.
Proof.
  intros self.
  apply (run_answers (utils := Demo.words) "query" "looks up items"
           (Demo.corpus (Ok [Demo.mug; Demo.cup; Demo.cup; Demo.mug])) 12 0
           Demo.scenario_sql
           (Json.dumps [Demo.cup; [("description", VStr "one two three..."); ("id", VStr "7")]])
           (Demo.world Demo.ones)
           (world_after self Demo.scenario_sql "SELECT * FROM items WHERE color LIKE '%coffee%'"
              (QueryTool.rewrite_notice self "SELECT * FROM items WHERE color LIKE '%coffee%'"
               +:+ QueryTool.sampling_notice self +:+ "query search result: "
               +:+ Json.dumps [Demo.cup; [("description", VStr "one two three...");
                                          ("id", VStr "7")]])
              (λ i, Demo.ones (S (S i))) None (Demo.world Demo.ones))).
  apply (run_search_ok (utils := Demo.words) self 0 Demo.scenario_sql
           "SELECT * FROM items WHERE color LIKE '%coffee%'").
  - vm_compute. reflexivity.
  - vm_compute. reflexivity.
Defined.

Lemma run_negative_budget_witness :
  ∃ w', QueryTool.run (QueryTool.__init__ "query" "looks up items"
                         (Demo.corpus (Ok [Demo.cup])) (-1))
          0 Demo.scenario_sql (Demo.world Demo.zeros)
        = Ok ("can not seach related information.", w') ∧
        LogExn ValueError ∈ debug_log w' ∧
        random_state w' = random_state (Demo.world Demo.zeros).
Proof.
  apply (run_negative_budget "query" "looks up items" (Demo.corpus (Ok [Demo.cup])) (-1) 0
           Demo.scenario_sql "SELECT * FROM items WHERE color LIKE '%coffee%'" [Demo.cup]
           (Demo.world Demo.zeros)).
  - lia.
  - vm_compute. reflexivity.
  - reflexivity.
Defined.

Lemma run_budget_below_five_witness :
  ∃ w', QueryTool.run (QueryTool.__init__ "query" "looks up items"
                         (Demo.corpus (Ok [Demo.cup; Demo.mug])) 4)
          0 Demo.scenario_sql (Demo.world Demo.zeros)
        = Ok ("[]", w').
Proof.
  apply (run_budget_below_five "query" "looks up items"
           (Demo.corpus (Ok [Demo.cup; Demo.mug])) 4 0
           Demo.scenario_sql "SELECT * FROM items WHERE color LIKE '%coffee%'"
           [Demo.cup; Demo.mug] (Demo.world Demo.zeros)).
  - lia.
  - vm_compute. reflexivity.
  - reflexivity.
Defined.

End answers_demo.

(** ** The substitution map of the values *)

Section values.
Context {utils : Utils}.
Variable self : QueryTool.t.

Lemma ground_values_inv (res : list (string * string)) (d0 d : list (string * string)) :
  QueryTool.ground_values self res d0 = Ok d →
  (∀ k v, (k, v) ∈ d →
     (k, v) ∈ d0 ∨
     ∃ col value matched,
       (col, value) ∈ res ∧
       col ∈ BaseGallery.fuzzy_engine (QueryTool.item_corpus self) ∧
       BaseGallery.fuzzy_match (QueryTool.item_corpus self) value col = Ok matched ∧
       k = "%" +:+ value +:+ "%" ∧
       v = "%" +:+ Py.replace "'" "''" matched +:+ "%") ∧
  (NoDup d0.*1 → NoDup d.*1).
Proof.
  revert d0 d. induction res as [|[col value] res IH]; intros d0 d H;
    cbn [QueryTool.ground_values] in H.
  { injection H as <-. split; [by left | done]. }
  destruct (bool_decide (col ∈ BaseGallery.fuzzy_engine (QueryTool.item_corpus self)))
    eqn:Hdom.
  - apply bool_decide_eq_true in Hdom.
    apply bind_Ok in H as (matched & Hmatch & H).
    destruct (IH _ _ H) as (Hentries & Hnd). split.
    + intros k v Hkv. destruct (Hentries k v Hkv) as [Hset | (c & x & m & Hin & ?)].
      * apply dict_set_elem in Hset as [[-> ->] | ?]; [|by left].
        right. exists col, value, matched. split_and!; [by apply elem_of_cons; left | done..].
      * right. exists c, x, m. split; [by apply elem_of_cons; right | done].
    + intros Hd0. by apply Hnd, dict_set_NoDup.
  - destruct (IH _ _ H) as (Hentries & Hnd). split; [|done].
    intros k v Hkv. destruct (Hentries k v Hkv) as [? | (c & x & m & Hin & ?)]; [by left |].
    right. exists c, x, m. split; [by apply elem_of_cons; right | done].
Qed.

End values.

(** X16.  The substitution map of the values: every entry replaces
    [%value%], for a value that the LIKE pattern found on a column with a
    fuzzy domain, by the fuzzy match of the value in that domain with its
    quotes doubled, between percent signs; a value on a column without a
    domain gives no entry; and no key is held twice. *)
Theorem ground_values_domain_only {utils : Utils} (self : QueryTool.t)
    (res d : list (string * string)) :
  QueryTool.ground_values self res [] = Ok d →
  (∀ k v, (k, v) ∈ d →
     ∃ col value matched,
       (col, value) ∈ res ∧
       col ∈ BaseGallery.fuzzy_engine (QueryTool.item_corpus self) ∧
       BaseGallery.fuzzy_match (QueryTool.item_corpus self) value col = Ok matched ∧
       k = "%" +:+ value +:+ "%" ∧
       v = "%" +:+ Py.replace "'" "''" matched +:+ "%") ∧
  NoDup d.*1.
Proof.
  intros H. destruct (ground_values_inv self res [] d H) as (Hentries & Hnd).
  split; [|apply Hnd; constructor].
  intros k v Hkv. by destruct (Hentries k v Hkv) as [?%elem_of_nil | ?].
Qed.

Lemma ground_values_domain_only_witness :
  let self := Demo.tool (Ok []) 512 in
  (∀ k v, (k, v) ∈ [("%cofee%", "%coffee%")] →
     ∃ col value matched,
       (col, value) ∈ [("title", "mug"); ("color", "cofee")] ∧
       col ∈ BaseGallery.fuzzy_engine (QueryTool.item_corpus self) ∧
       BaseGallery.fuzzy_match (QueryTool.item_corpus self) value col = Ok matched ∧
       k = "%" +:+ value +:+ "%" ∧
       v = "%" +:+ Py.replace "'" "''" matched +:+ "%") ∧
  NoDup [("%cofee%", "%coffee%")].*1.
Proof.
  intros self.
  apply (ground_values_domain_only (utils := Demo.utils) self
           [("title", "mug"); ("color", "cofee")] [("%cofee%", "%coffee%")]).
  vm_compute. reflexivity.
Defined.

(** ** The serialized payload *)

Section payload.

Lemma all_chars_app (p : Ascii.ascii → bool) (a b : string) :
  all_chars p (a +:+ b) = all_chars p a && all_chars p b.
Proof.
  induction a as [|c a IH]; [done |]. rewrite app_String. cbn [all_chars].
  by rewrite IH, andb_assoc.
Qed.

Lemma all_chars_concat (p : Ascii.ascii → bool) (sep : string) (l : list string) :
  all_chars p sep = true → Forall (λ s, all_chars p s = true) l →
  all_chars p (String.concat sep l) = true.
Proof.
  intros Hsep. induction 1 as [|s l Hs Hl IH]; [done |].
  destruct l as [|s' l]; [done |].
  change (String.concat sep (s :: s' :: l)) with (s +:+ sep +:+ String.concat sep (s' :: l)).
  by rewrite !all_chars_app, Hs, Hsep, IH.
Qed.

Lemma escape_char_printable (c : Ascii.ascii) :
  all_chars printable (Json.escape_char c) = true.
Proof. destruct c as [[] [] [] [] [] [] [] []]; vm_compute; reflexivity. Qed.

Lemma escape_printable (s : string) : all_chars printable (Json.escape s) = true.
Proof.
  induction s as [|c s IH]; [done |]. cbn [Json.escape].
  by rewrite all_chars_app, escape_char_printable, IH.
Qed.

Lemma dumps_str_printable (s : string) : all_chars printable (Json.dumps_str s) = true.
Proof.
  unfold Json.dumps_str. by rewrite !all_chars_app, escape_printable.
Qed.

Lemma uint_printable (d : Decimal.uint) :
  all_chars printable (NilEmpty.string_of_uint d) = true.
Proof. induction d; cbn [NilEmpty.string_of_uint all_chars]; by rewrite ?IHd. Qed.

Lemma str_int_printable (z : Z) : all_chars printable (Py.str_int z) = true.
Proof.
  unfold Py.str_int, NilZero.string_of_int, NilZero.string_of_uint.
  destruct (Z.to_int z) as [d | d]; destruct d; try done;
    cbn [all_chars]; try apply (uint_printable (Decimal.D0 _));
    try (rewrite andb_true_l);
    first [ apply (uint_printable (Decimal.D0 d)) | apply (uint_printable (Decimal.D1 d))
          | apply (uint_printable (Decimal.D2 d)) | apply (uint_printable (Decimal.D3 d))
          | apply (uint_printable (Decimal.D4 d)) | apply (uint_printable (Decimal.D5 d))
          | apply (uint_printable (Decimal.D6 d)) | apply (uint_printable (Decimal.D7 d))
          | apply (uint_printable (Decimal.D8 d)) | apply (uint_printable (Decimal.D9 d)) ].
Qed.

Lemma dumps_value_printable (v : value) : all_chars printable (Json.dumps_value v) = true.
Proof.
  destruct v as [s | z | [] |]; cbn [Json.dumps_value]; try done.
  - apply dumps_str_printable.
  - apply str_int_printable.
Qed.

Lemma dumps_record_printable (r : record) :
  all_chars printable (Json.dumps_record r) = true.
Proof.
  unfold Json.dumps_record. rewrite !all_chars_app.
  rewrite all_chars_concat; [done | done |].
  apply Forall_fmap, Forall_forall. intros [k v] _.
  unfold compose, Json.dumps_item. cbn [fst snd].
  by rewrite !all_chars_app, dumps_str_printable, dumps_value_printable.
Qed.

End payload.

(** X17.  The payload is plain ASCII on one line: whatever characters the
    names and texts of the records hold, every character of the
    serialization is a printable ASCII character (quotes, backslashes,
    control characters and characters above 126 leave as escapes). *)
Theorem dumps_printable (rs : list record) : all_chars printable (Json.dumps rs) = true.
Proof.
  unfold Json.dumps. rewrite !all_chars_app.
  rewrite all_chars_concat; [done | done |].
  apply Forall_fmap, Forall_forall. intros r _. apply dumps_record_printable.
Qed.

(** ** The copies of the shrink phase *)

Section copies.
Context {utils : Utils}.

Lemma heap_shrink_all_distinct (limit : Z) (res cut_res : list Heap.loc)
    (σ σ' : gmap Heap.loc record) :
  Forall (λ l, l ∈ dom σ) res →
  Heap.shrink_all limit res σ = Ok (cut_res, σ') →
  NoDup cut_res.
Proof.
  revert cut_res σ σ'. induction res as [|l res IH]; intros cut_res σ σ' Hres H;
    cbn [Heap.shrink_all] in H.
  { injection H as <- <-. constructor. }
  apply bind_Ok in H as ([l' σ1] & Hrec & H).
  apply bind_Ok in H as ([cut' σ2] & Hall & H). injection H as <- <-.
  apply heap_shrink_record in Hrec as (r & r' & Hr & Hfresh & Hframe1 & Hpure & Hr').
  assert (Forall (λ l0, l0 ∈ dom σ1) res) as Hres1.
  { inversion Hres as [|? ? _ Hres']; subst. eapply Forall_impl; [exact Hres' |].
    intros l0 Hl0. apply elem_of_dom. rewrite Hframe1 by done. by apply elem_of_dom. }
  constructor; [|by eapply IH].
  destruct (heap_shrink_all limit res cut' σ1 σ2 Hres1 Hall) as (_ & Hnew & _).
  intros Hin. apply (proj1 (Forall_forall _ _) Hnew) in Hin as [Hnot _].
  apply Hnot, elem_of_dom. by rewrite Hr'.
Qed.

End copies.

(** X18.  The entries of [cut_res] are objects of their own: there is one
    per entry of [res], no two entries of [cut_res] are the same object
    (also when [res] lists one record twice), and none is an entry of
    [res]; an assignment to a shrunk record reaches neither another
    shrunk record nor a record of the result. *)
Theorem shrink_all_copies_distinct {utils : Utils} (limit : Z) (res cut_res : list Heap.loc)
    (σ σ' : gmap Heap.loc record) :
  Forall (λ l, l ∈ dom σ) res →
  Heap.shrink_all limit res σ = Ok (cut_res, σ') →
  length cut_res = length res ∧ NoDup cut_res ∧ Forall (λ l', l' ∉ res) cut_res.
Proof.
  intros Hres H.
  destruct (heap_shrink_all limit res cut_res σ σ' Hres H) as (_ & Hnew & Hcopies).
  split_and!.
  - symmetry. by eapply Forall2_length.
  - by eapply heap_shrink_all_distinct.
  - eapply Forall_impl; [exact Hnew |]. intros l' [Hnot _] Hin.
    by apply Hnot, (proj1 (Forall_forall _ _) Hres).
Qed.

Section copies_demo.
#[local] Existing Instance Demo.utils.

Lemma shrink_all_copies_distinct_witness :
  length [3%positive; 4%positive; 5%positive] = length [1%positive; 2%positive; 1%positive] ∧
  NoDup [3%positive; 4%positive; 5%positive] ∧
  Forall (λ l', l' ∉ [1%positive; 2%positive; 1%positive])
    [3%positive; 4%positive; 5%positive].
Proof.
  apply (shrink_all_copies_distinct 59 [1%positive; 2%positive; 1%positive]
           [3%positive; 4%positive; 5%positive] Demo.store Demo.store_after).
  - repeat constructor; compute_done.
  - vm_compute. reflexivity.
Defined.

End copies_demo.

(** ** The first words of a field survive *)

Section prefix.
Context {utils : Utils}.

Lemma join_snoc (l : list string) (w x : string) :
  Py.join (l ++ [w]) +:+ x = Py.join (l ++ [w +:+ x]).
Proof.
  induction l as [|a l IH]; [done |].
  rewrite <- !app_comm_cons.
  rewrite !join_cons by (by destruct l).
  by rewrite !app_assoc_s, IH.
Qed.

(** The words of a cut text: the words kept, the last one with the
    ellipsis. *)
Lemma take_split_cut (s : string) (m m' : nat) :
  (m' < m)%nat → (m ≤ length (Py.split s))%nat →
  take m' (Py.split (Py.join (take m (Py.split s)) +:+ "...")) = take m' (Py.split s).
Proof.
  intros Hm' Hm. destruct m as [|m0]; [lia |].
  destruct (lookup_lt_is_Some_2 (Py.split s) m0 ltac:(lia)) as [w Hw].
  rewrite (take_S_r _ _ _ Hw), join_snoc.
  pose proof (split_words_no_space s) as Hwords.
  rewrite split_join.
  - rewrite take_app_le by (rewrite length_take; lia).
    rewrite take_take. f_equal. lia.
  - by destruct (take m0 (Py.split s)).
  - apply Forall_app. split; [by apply Forall_take |].
    constructor; [|constructor]. rewrite spaces_app.
    apply list_elem_of_lookup_2 in Hw.
    by rewrite (proj1 (Forall_forall _ _) Hwords w Hw).
Qed.

Lemma field_cut_of_refl (v : value) : field_cut_of v v.
Proof. by left. Qed.

Lemma field_cut_of_trans (v1 v2 v3 : value) :
  field_cut_of v1 v2 → field_cut_of v2 v3 → field_cut_of v1 v3.
Proof.
  unfold field_cut_of. intros [E12 | (H5 & m & Hm & E12)].
  { by rewrite E12. }
  rewrite E12. rewrite split_cut_length by lia.
  intros [E23 | (_ & m' & Hm' & E23)]; right; (split; [done |]).
  - exists m. by rewrite E23.
  - exists m'. split; [lia |]. rewrite E23. by rewrite take_split_cut by lia.
Qed.

Lemma field_step_cut_of (v : value) (s' : string) (cut : bool) :
  field_step (py_str v) s' cut → field_cut_of v (VStr s').
Proof.
  unfold field_cut_of. cbn [py_str].
  intros [[_ ->] | (_ & H5 & n & Hn & H3 & ->)]; [by left |].
  right. split; [done |]. exists (length (Py.split (py_str v)) - n)%nat. split; [lia | done].
Qed.

Lemma record_cut_of_trans (r1 r2 r3 : record) :
  record_cut_of r1 r2 → record_cut_of r2 r3 → record_cut_of r1 r3.
Proof.
  unfold record_cut_of. intros H12. revert r3.
  induction H12 as [|kv1 kv2 r1 r2 [Hk12 Hf12] _ IH]; intros r3 H23;
    inversion H23 as [|? kv3 ? r3' [Hk23 Hf23] H23']; subst; constructor.
  - split; [congruence | by eapply field_cut_of_trans].
  - by apply IH.
Qed.

Lemma shrink_pass_cut_of (overflow_token : Z) (cut_last cut_last' : bool) (r r' : record) :
  shrink_pass overflow_token cut_last r = Ok (r', cut_last') → record_cut_of r r'.
Proof.
  intros (co & k2t & fields' & -> & H)%shrink_pass_inv.
  apply cut_fields_steps in H. unfold stringify, as_record, record_cut_of in *.
  apply Forall2_fmap_l in H. apply Forall2_fmap_r.
  eapply Forall2_impl; [exact H |].
  intros [k v] [k' s'] [Hk [cut Hstep]]. cbn [fst snd] in *.
  split; [done |]. by eapply field_step_cut_of.
Qed.

Lemma shrink_loop_cut_of (fuel : nat) (limit overflow_token : Z) (cut_last : bool)
    (r r' : record) (passes : nat) :
  shrink_loop fuel limit overflow_token cut_last r = (Exited r', passes) →
  record_cut_of r r'.
Proof.
  assert (∀ r0, record_cut_of r0 r0) as Hrefl.
  { intros r0. apply Forall_Forall2_diag, Forall_forall. intros kv _.
    split; [done | apply field_cut_of_refl]. }
  revert overflow_token cut_last r passes.
  induction fuel as [|fuel IH]; intros o c r passes H; simpl in H;
    destruct ((0 <? o) && c); try done; try (by injection H as <- <-).
  destruct (shrink_pass o c r) as [[r1 c1]| e |] eqn:Hpass; [|done..].
  destruct (shrink_loop fuel _ _ _ _) as [exit p1] eqn:Hloop.
  injection H as -> <-.
  eapply record_cut_of_trans; [by eapply shrink_pass_cut_of | by eapply IH].
Qed.

End prefix.

(** X8.  What the shrink of a record returns, field by field: the fields
    keep their names and their order, and the text of a field is the text
    it had, or, for a field of more than 5 words, its first [m] words
    followed by one ellipsis, with [m] at least 3 and less than the number
    of words it had.  Whatever the number of passes, the words kept are
    the leading words of the original text. *)
Theorem shrink_record_first_words {utils : Utils} (limit : Z) (r r' : record) :
  shrink_record limit r = Ok r' →
  Forall2 (λ kv kv' : string * value,
    kv'.1 = kv.1 ∧
    let words := Py.split (py_str kv.2) in
    py_str kv'.2 = py_str kv.2 ∨
    ((5 < length words)%nat ∧
     ∃ m : nat, (3 ≤ m < length words)%nat ∧
       py_str kv'.2 = Py.join (take m words) +:+ "...")) r r'.
Proof.
  unfold shrink_record. intros H.
  destruct (shrink_loop _ _ _ _ _) as [[r1 | e |] passes] eqn:Hloop; [|done..].
  injection H as ->. by apply shrink_loop_cut_of in Hloop.
Qed.

Section prefix_demo.
#[local] Existing Instance Demo.utils.

Lemma shrink_record_first_words_witness :
  Forall2 (λ kv kv' : string * value,
    kv'.1 = kv.1 ∧
    let words := Py.split (py_str kv.2) in
    py_str kv'.2 = py_str kv.2 ∨
    ((5 < length words)%nat ∧
     ∃ m : nat, (3 ≤ m < length words)%nat ∧
       py_str kv'.2 = Py.join (take m words) +:+ "..."))
    Demo.mug_id_first
    [("id", VStr "7"); ("description", VStr "one two three four five six...")].
Proof.
  apply (shrink_record_first_words 59 Demo.mug_id_first
           [("id", VStr "7"); ("description", VStr "one two three four five six...")]).
  vm_compute. reflexivity.
Defined.

End prefix_demo.

(** X19.  A result that fits the record cap is not sampled and the call
    leaves the generator of [random] in the state it found it, whether the
    rest of the call succeeds or raises. *)
Theorem run_within_cap_keeps_generator {utils : Utils} {pylib : PyLib} (self : QueryTool.t)
    (fuel : nat) (inputs q out : string) (res : list record) (w w' : World) :
  QueryTool.rewrite_sql self inputs = Ok q →
  BaseGallery.query (QueryTool.item_corpus self) q = Ok res →
  Z.of_nat (length res) ≤ QueryTool._max_record_num self →
  QueryTool.run self fuel inputs w = Ok (out, w') →
  random_state w' = random_state w.
Proof.
  intros Hrw Hquery Hlen Hrun.
  assert (QueryTool.search self fuel q (QueryTool.rewrite_notice self q) (random_state w)
          = (QueryTool.render self res false (QueryTool.rewrite_notice self q),
             random_state w)) as Hsearch.
  { unfold QueryTool.search, QueryTool.record_cap. rewrite Hquery.
    by replace (QueryTool._max_record_num self <? Z.of_nat (length res)) with false
      by (symmetry; apply Z.ltb_ge; lia). }
  destruct (QueryTool.render self res false (QueryTool.rewrite_notice self q))
    as [[info output]| e |].
  - rewrite (run_search_ok self fuel inputs q info output w _ Hrw Hsearch) in Hrun.
    by injection Hrun as <- <-.
  - rewrite (run_search_raise self fuel inputs q w e _ Hrw Hsearch) in Hrun.
    by injection Hrun as <- <-.
  - by rewrite (run_search_diverge self fuel inputs q w _ Hrw Hsearch) in Hrun.
Qed.

Section generator_demo.
#[local] Existing Instance Demo.utils.
#[local] Existing Instance Demo.pylib.

Lemma run_within_cap_keeps_generator_witness :
  random_state
    (world_after (Demo.tool (Ok [Demo.mug; Demo.mug]) 177) Demo.scenario_sql
       "SELECT * FROM items WHERE color LIKE '%coffee%'"
       (QueryTool.rewrite_notice (Demo.tool (Ok [Demo.mug; Demo.mug]) 177)
          "SELECT * FROM items WHERE color LIKE '%coffee%'"
        +:+ "query search result: "
        +:+ Json.dumps [Demo.mug_after_pass; Demo.mug_after_pass])
       Demo.ones None (Demo.world Demo.ones))
  = random_state (Demo.world Demo.ones).
Proof.
  apply (run_within_cap_keeps_generator (Demo.tool (Ok [Demo.mug; Demo.mug]) 177) 0
           Demo.scenario_sql "SELECT * FROM items WHERE color LIKE '%coffee%'"
           (Json.dumps [Demo.mug_after_pass; Demo.mug_after_pass])
           [Demo.mug; Demo.mug] (Demo.world Demo.ones)).
  - vm_compute. reflexivity.
  - reflexivity.
  - vm_compute. discriminate.
  - apply (run_search_ok (Demo.tool (Ok [Demo.mug; Demo.mug]) 177) 0 Demo.scenario_sql
             "SELECT * FROM items WHERE color LIKE '%coffee%'").
    + vm_compute. reflexivity.
    + vm_compute. reflexivity.
Defined.

End generator_demo.
